(** * A broadcast chat server: cache, client rotation, worker pool, broadcaster

    Shallow embedding of the server's core (cache.cpp, scheduler.cpp,
    thread_pool.cpp, server.cpp) and the properties its specification states
    about it.

    Conventions.
    - C++ [int] is a [Z] kept in range by [int_wrap]; [uint64_t] by
      [uint64_wrap]; [time_t] by [time_wrap] (64-bit signed).
    - [time(nullptr)] is an input: every operation that reads the clock takes
      the value read as the argument [now].
    - [std::vector] is a [list] read with [entry_at]; [std::unordered_map] and
      [std::map] are [gmap]s.
    - Each class is modelled as one thread sees it while it holds the class's
      mutex: one call is one function from state to state. *)

From stdpp Require Import gmap strings list fin_maps pretty sorting.
From Stdlib Require Import ZArith Lia Ascii.

Open Scope Z_scope.

(** ** Machine integers *)

Definition INT_MAX : Z := 2147483647.

Definition int_wrap (z : Z) : Z := (z + 2 ^ 31) mod 2 ^ 32 - 2 ^ 31.

Definition uint64_wrap (z : Z) : Z := z mod 2 ^ 64.

Definition time_wrap (z : Z) : Z := (z + 2 ^ 63) mod 2 ^ 64 - 2 ^ 63.

(** ** MessageCache (cache.h, cache.cpp) *)

Module Cache.

(** [struct CacheEntry] of common.h. *)
Record CacheEntry := mkCacheEntry {
  message_id : string;
  content : string;
  sender : string;
  timestamp : Z;
  last_access : Z;
  access_count : Z;
  valid : bool
}.

(** The default constructor [CacheEntry()]. *)
Definition CacheEntry_new : CacheEntry :=
  mkCacheEntry "" "" "" 0 0 0 false.

(** [class MessageCache]; the mutex is not state of the sequential model.
    [head] and [tail] are the two unused members. *)
Record MessageCache := mkMessageCache {
  cache : list CacheEntry;
  capacity : Z;
  head : Z;
  tail : Z;
  size : Z;
  index_map : gmap string Z;
  hits : Z;
  misses : Z
}.

(** [cache[i]]: reading outside the vector is undefined in C++; the model
    reads a default entry there, and [cache_inv] below shows that no
    reachable cache does so. *)
Definition entry_at (v : list CacheEntry) (i : Z) : CacheEntry :=
  default CacheEntry_new (v !! Z.to_nat i).

(** The constructor: [None] is the [std::invalid_argument] it throws. *)
Definition MessageCache_new (cap : Z) : option MessageCache :=
  if cap <=? 0 then None
  else Some (mkMessageCache (replicate (Z.to_nat cap) CacheEntry_new)
                            cap 0 0 0 ∅ 0 0).

(** [ss << sender << "_" << timestamp]. *)
Definition generate_message_id (sender : string) (timestamp : Z) : string :=
  sender +:+ "_" +:+ pretty timestamp.

(** One turn of the [for] loop of [find_lru_index]; the loop state is
    [(lru_index, oldest_access)]. *)
Definition lru_step (v : list CacheEntry) (st : Z * Z) (i : Z) : Z * Z :=
  if valid (entry_at v i) && (last_access (entry_at v i) <? st.2)
  then (i, last_access (entry_at v i))
  else st.

Definition find_lru_index (c : MessageCache) : Z :=
  if size c =? 0 then 0
  else (foldl (lru_step (cache c))
              (0, last_access (entry_at (cache c) 0))
              (seqZ 1 (size c - 1))).1.

(** The slot [insert] writes, the new [size] and the index map after the
    erasure of the evicted fingerprint. *)
Definition choose_slot (c : MessageCache) : Z * Z * gmap string Z :=
  if size c <? capacity c then
    (size c, int_wrap (size c + 1), index_map c)
  else
    let insert_index := find_lru_index c in
    (insert_index, size c,
     if valid (entry_at (cache c) insert_index)
     then delete (message_id (entry_at (cache c) insert_index)) (index_map c)
     else index_map c).

Definition insert (c : MessageCache) (sender content : string)
    (timestamp now : Z) : bool * MessageCache :=
  let msg_id := generate_message_id sender timestamp in
  match index_map c !! msg_id with
  | Some _ => (false, c)
  | None =>
    let '(insert_index, size', index_map') := choose_slot c in
    (true,
     mkMessageCache
       (<[Z.to_nat insert_index :=
            mkCacheEntry msg_id content sender timestamp now 1 true]> (cache c))
       (capacity c) (head c) (tail c) size'
       (<[msg_id := insert_index]> index_map')
       (hits c) (misses c))
  end.

(** The slot a fingerprint is live in: the test shared by [lookup] and
    [update_access]. *)
Definition live_slot (c : MessageCache) (message_id : string) : option Z :=
  match index_map c !! message_id with
  | Some index =>
    if (0 <=? index) && (index <? size c) && valid (entry_at (cache c) index)
    then Some index else None
  | None => None
  end.

(** [lookup]: [Some content] is the result [true] with the out-parameter
    assigned; [None] is [false]. *)
Definition lookup (c : MessageCache) (message_id : string)
    : option string * MessageCache :=
  match live_slot c message_id with
  | Some index =>
    (Some (content (entry_at (cache c) index)),
     mkMessageCache (cache c) (capacity c) (head c) (tail c) (size c)
                    (index_map c) (uint64_wrap (hits c + 1)) (misses c))
  | None =>
    (None,
     mkMessageCache (cache c) (capacity c) (head c) (tail c) (size c)
                    (index_map c) (hits c) (uint64_wrap (misses c + 1)))
  end.

Definition touch (now : Z) (e : CacheEntry) : CacheEntry :=
  mkCacheEntry (message_id e) (content e) (sender e) (timestamp e)
               now (int_wrap (access_count e + 1)) (valid e).

Definition update_access (c : MessageCache) (message_id : string) (now : Z)
    : MessageCache :=
  match live_slot c message_id with
  | Some index =>
    mkMessageCache
      (<[Z.to_nat index := touch now (entry_at (cache c) index)]> (cache c))
      (capacity c) (head c) (tail c) (size c) (index_map c)
      (hits c) (misses c)
  | None => c
  end.

Definition get_hits (c : MessageCache) : Z := hits c.
Definition get_misses (c : MessageCache) : Z := misses c.
Definition get_size (c : MessageCache) : Z := size c.
Definition get_capacity (c : MessageCache) : Z := capacity c.

(** What the loop of [clear] does to one slot: the three strings are
    emptied and [valid] reset; the numeric members are left as they are. *)
Definition wipe (e : CacheEntry) : CacheEntry :=
  mkCacheEntry "" "" "" (timestamp e) (last_access e) (access_count e) false.

Definition clear (c : MessageCache) : MessageCache :=
  mkMessageCache
    ((wipe <$> take (Z.to_nat (size c)) (cache c))
       ++ drop (Z.to_nat (size c)) (cache c))
    (capacity c) (head c) (tail c) 0 ∅ 0 0.

(** *** Histories of calls *)

Inductive Op :=
  | OpInsert (sender content : string) (timestamp now : Z)
  | OpLookup (message_id : string)
  | OpUpdateAccess (message_id : string) (now : Z)
  | OpClear.

Definition run (c : MessageCache) (op : Op) : MessageCache :=
  match op with
  | OpInsert s x t now => (insert c s x t now).2
  | OpLookup k => (lookup c k).2
  | OpUpdateAccess k now => update_access c k now
  | OpClear => clear c
  end.

(** The caches a program can hold: built by the constructor from an [int]
    capacity it accepts, then used through the public operations. *)
Inductive reachable : MessageCache → Prop :=
  | reach_new cap c :
      cap ≤ INT_MAX → MessageCache_new cap = Some c → reachable c
  | reach_run c op : reachable c → reachable (run c op).

(** A slot holds a live entry. *)
Definition live_at (c : MessageCache) (i : Z) : Prop :=
  0 ≤ i < size c ∧ valid (entry_at (cache c) i) = true.

(** The representation invariant. *)
Record cache_inv (c : MessageCache) : Prop := mkInv {
  inv_cap : 0 < capacity c ≤ INT_MAX;
  inv_len : Z.of_nat (length (cache c)) = capacity c;
  inv_size : 0 ≤ size c ≤ capacity c;
  inv_valid : ∀ i, 0 ≤ i < capacity c →
    valid (entry_at (cache c) i) = true ↔ i < size c;
  inv_index : ∀ k i, index_map c !! k = Some i ↔
    (0 ≤ i < size c ∧ message_id (entry_at (cache c) i) = k);
  inv_count : ∀ i, - 2 ^ 31 ≤ access_count (entry_at (cache c) i) ≤ INT_MAX
}.

(** The entry a caller reaches through a fingerprint. *)
Definition entry_of (c : MessageCache) (message_id : string)
    : option CacheEntry :=
  match live_slot c message_id with
  | Some index => Some (entry_at (cache c) index)
  | None => None
  end.

(** A cache built with capacity [cap] and taken through the calls [ops]. *)
Definition history (cap : Z) (ops : list Op) : option MessageCache :=
  match MessageCache_new cap with
  | Some c => Some (foldl run c ops)
  | None => None
  end.

(** A cache of capacity 2 filled by two inserts, and the same cache after
    [alice]'s entry is touched. *)
Definition demo_empty : MessageCache :=
  mkMessageCache [CacheEntry_new; CacheEntry_new] 2 0 0 0 ∅ 0 0.

Definition demo_full : MessageCache :=
  run (run demo_empty (OpInsert "alice" "hi" 100 100))
      (OpInsert "bob" "yo" 101 105).

(** The calls other than [update_access]. *)
Definition not_update_access (op : Op) : Prop :=
  match op with OpUpdateAccess _ _ => False | _ => True end.

(** A slot the scan considers: slot 0 is taken unconditionally, the others
    only when valid. *)
Definition scanned (v : list CacheEntry) (j : Z) : Prop :=
  j = 0 ∨ valid (entry_at v j) = true.

Record lru_of (v : list CacheEntry) (bound : Z) (st : Z * Z) : Prop := mkLru {
  lru_range : 0 ≤ st.1 ≤ bound;
  lru_cached : st.2 = last_access (entry_at v st.1);
  lru_scanned : scanned v st.1;
  lru_least : ∀ j, 0 ≤ j ≤ bound → scanned v j →
    st.2 ≤ last_access (entry_at v j);
  lru_first : ∀ j, 0 ≤ j < st.1 → scanned v j →
    st.2 < last_access (entry_at v j)
}.

(** *** Calls and their results *)

(** What the caller of one operation gets back: the [bool] of [insert], the
    [bool] and out-parameter of [lookup], nothing from the two [void]
    functions. *)
Inductive Result :=
  | RInsert (inserted : bool)
  | RLookup (found : option string)
  | RVoid.

Definition call (c : MessageCache) (op : Op) : Result * MessageCache :=
  match op with
  | OpInsert s x t now => let '(ok, c') := insert c s x t now in (RInsert ok, c')
  | OpLookup k => let '(r, c') := lookup c k in (RLookup r, c')
  | OpUpdateAccess k now => (RVoid, update_access c k now)
  | OpClear => (RVoid, clear c)
  end.

(** A sequence of calls, with the results in call order. *)
Fixpoint calls (c : MessageCache) (ops : list Op)
    : list Result * MessageCache :=
  match ops with
  | [] => ([], c)
  | op :: ops' =>
    let '(r, c') := call c op in
    let '(rs, c'') := calls c' ops' in
    (r :: rs, c'')
  end.

Definition is_hit (r : Result) : bool :=
  match r with RLookup (Some _) => true | _ => false end.

Definition is_miss (r : Result) : bool :=
  match r with RLookup None => true | _ => false end.

Definition is_inserted (r : Result) : bool :=
  match r with RInsert true => true | _ => false end.

Definition count (f : Result → bool) (rs : list Result) : Z :=
  Z.of_nat (length (filter (λ r, f r = true) rs)).

Definition not_clear (op : Op) : Prop :=
  match op with OpClear => False | _ => True end.

(** What the getters return. *)
Definition getters (c : MessageCache) : Z * Z * Z * Z :=
  (get_size c, get_capacity c, get_hits c, get_misses c).

(** Two caches a caller cannot tell apart: the same members, and the same
    entries in the slots in use.  The slots past [size] may differ. *)
Record same_view (c1 c2 : MessageCache) : Prop := mkSameView {
  view_capacity : capacity c1 = capacity c2;
  view_size : size c1 = size c2;
  view_index : index_map c1 = index_map c2;
  view_hits : hits c1 = hits c2;
  view_misses : misses c1 = misses c2;
  view_entries : ∀ i, 0 ≤ i < size c1 →
    entry_at (cache c1) i = entry_at (cache c2) i
}.

(** A cache of capacity 2 filled within one second. *)
Definition demo_same_second : MessageCache :=
  run (run demo_empty (OpInsert "alice" "hi" 100 100))
      (OpInsert "bob" "yo" 101 100).

End Cache.

(** ** RoundRobinScheduler (scheduler.h, scheduler.cpp) *)

Module Scheduler.

(** A [ScheduledClient*]: [None] is [nullptr], [Some p] the address of a
    node made by [new]. *)
Definition loc := positive.

Record ScheduledClient := mkScheduledClient {
  socket_fd : Z;
  user_id : string;
  last_scheduled : Z;
  next : option loc
}.

(** [class RoundRobinScheduler], with the nodes it owns: [nodes] maps the
    address of every node allocated and not yet deleted to its contents. *)
Record RoundRobinScheduler := mkScheduler {
  nodes : gmap loc ScheduledClient;
  head : option loc;
  current : option loc;
  client_count : Z;
  time_quantum_ms : Z
}.

Definition set_next (v : option loc) (n : ScheduledClient) : ScheduledClient :=
  mkScheduledClient (socket_fd n) (user_id n) (last_scheduled n) v.

Definition set_last_scheduled (t : Z) (n : ScheduledClient) : ScheduledClient :=
  mkScheduledClient (socket_fd n) (user_id n) t (next n).

(** The constructor; [None] is the exception it throws. *)
Definition RoundRobinScheduler_new (quantum_ms : Z) : option RoundRobinScheduler :=
  if quantum_ms <=? 0 then None
  else Some (mkScheduler ∅ None None 0 quantum_ms).

(** The loops walk the [next] links until they meet [head] again.  Each is
    written with a bound on the number of turns; the callers pass the number
    of nodes allocated, which no walk that comes back to [head] exceeds.
    [None] stands for a walk that leaves the allocated nodes (undefined
    behaviour) or does not come back. *)

(** [do { if (temp->socket_fd == socket_fd) return; temp = temp->next; }
    while (temp != head)]: [Some true] when the descriptor is found. *)
Fixpoint find_fd (fuel : nat) (h : gmap loc ScheduledClient) (hd temp : loc)
    (fd : Z) : option bool :=
  match fuel with
  | O => None
  | S fuel' =>
    match h !! temp with
    | None => None
    | Some node =>
      if socket_fd node =? fd then Some true
      else match next node with
           | None => None
           | Some n =>
             if decide (n = hd) then Some false else find_fd fuel' h hd n fd
           end
    end
  end.

(** [while (last->next != head) last = last->next;] *)
Fixpoint find_last (fuel : nat) (h : gmap loc ScheduledClient) (hd last : loc)
    : option loc :=
  match fuel with
  | O => None
  | S fuel' =>
    match h !! last with
    | None => None
    | Some node =>
      match next node with
      | None => None
      | Some n =>
        if decide (n = hd) then Some last else find_last fuel' h hd n
      end
    end
  end.

(** The search loop of [remove_client], case 2: [Some (Some (prev, temp))]
    when [temp] carries the descriptor, [Some None] when the walk is back at
    [head] without a match. *)
Fixpoint find_victim (fuel : nat) (h : gmap loc ScheduledClient)
    (hd prev temp : loc) (fd : Z) : option (option (loc * loc)) :=
  match fuel with
  | O => None
  | S fuel' =>
    if decide (temp = hd) then Some None
    else
      match h !! temp with
      | None => None
      | Some node =>
        if socket_fd node =? fd then Some (Some (prev, temp))
        else match next node with
             | None => None
             | Some n => find_victim fuel' h hd temp n fd
             end
      end
  end.

Definition add_client (s : RoundRobinScheduler) (fd : Z) (uid : string)
    : option RoundRobinScheduler :=
  found ← match head s with
          | Some hd => find_fd (stdpp.base.size (nodes s)) (nodes s) hd hd fd
          | None => Some false
          end;
  if found : bool then Some s
  else
    let new_client := fresh (dom (nodes s)) in
    let h := <[new_client := mkScheduledClient fd uid 0 None]> (nodes s) in
    match head s with
    | None =>
      Some (mkScheduler (alter (set_next (Some new_client)) new_client h)
                        (Some new_client) (Some new_client)
                        (int_wrap (client_count s + 1)) (time_quantum_ms s))
    | Some hd =>
      last ← find_last (stdpp.base.size h) h hd hd;
      Some (mkScheduler
              (alter (set_next (Some hd)) new_client
                     (alter (set_next (Some new_client)) last h))
              (head s) (current s)
              (int_wrap (client_count s + 1)) (time_quantum_ms s))
    end.

Definition remove_client (s : RoundRobinScheduler) (fd : Z)
    : option RoundRobinScheduler :=
  match head s with
  | None => Some s
  | Some hd =>
    hnode ← nodes s !! hd;
    if bool_decide (next hnode = Some hd) && (socket_fd hnode =? fd) then
      Some (mkScheduler (delete hd (nodes s)) None None 0 (time_quantum_ms s))
    else
      last ← find_last (stdpp.base.size (nodes s)) (nodes s) hd hd;
      if socket_fd hnode =? fd then
        let h := alter (set_next (next hnode)) last (nodes s) in
        Some (mkScheduler (delete hd h) (next hnode)
                (if bool_decide (current s = Some hd) then next hnode
                 else current s)
                (int_wrap (client_count s - 1)) (time_quantum_ms s))
      else
        first ← next hnode;
        r ← find_victim (stdpp.base.size (nodes s)) (nodes s) hd hd first fd;
        match r with
        | None => Some s
        | Some (prev, temp) =>
          tnode ← nodes s !! temp;
          let h := alter (set_next (next tnode)) prev (nodes s) in
          Some (mkScheduler (delete temp h) (head s)
                  (if bool_decide (current s = Some temp) then next tnode
                   else current s)
                  (int_wrap (client_count s - 1)) (time_quantum_ms s))
        end
  end.

(** [get_next_client]: the pointer returned and the scheduler after the
    call; [now] is the value of [time(nullptr)]. *)
Definition get_next_client (s : RoundRobinScheduler) (now : Z)
    : option (option loc * RoundRobinScheduler) :=
  match current s with
  | None => Some (None, s)
  | Some selected =>
    node ← nodes s !! selected;
    Some (Some selected,
          mkScheduler (<[selected := set_last_scheduled now node]> (nodes s))
                      (head s) (next node)
                      (client_count s) (time_quantum_ms s))
  end.

Definition get_client_count (s : RoundRobinScheduler) : Z := client_count s.

(** What a caller reads through a pointer it was returned. *)
Definition deref (s : RoundRobinScheduler) (p : option loc)
    : option (Z * string * Z) :=
  match p with
  | None => None
  | Some l =>
    (λ n, (socket_fd n, user_id n, last_scheduled n)) <$> nodes s !! l
  end.

(** Registering the clients [cs] in order on a fresh scheduler. *)
Fixpoint add_clients (s : RoundRobinScheduler) (cs : list (Z * string))
    : option RoundRobinScheduler :=
  match cs with
  | [] => Some s
  | (fd, uid) :: cs' => s' ← add_client s fd uid; add_clients s' cs'
  end.

(** One call of [get_next_client] per clock value; each result is read
    through the returned pointer right after its call. *)
Fixpoint get_next_clients (s : RoundRobinScheduler) (nows : list Z)
    : option (list (option (Z * string * Z)) * RoundRobinScheduler) :=
  match nows with
  | [] => Some ([], s)
  | now :: nows' =>
    '(p, s') ← get_next_client s now;
    '(rest, s'') ← get_next_clients s' nows';
    Some (deref s' p :: rest, s'')
  end.

(** What the caller reads when client [c] was returned at time [now]. *)
Definition scheduled (c : Z * string) (now : Z) : option (Z * string * Z) :=
  Some (c.1, c.2, now).

(** The nodes from [p] up to, not including, [q], with their addresses and
    clients, linked by [next]. *)
Fixpoint lseg (h : gmap loc ScheduledClient) (p : loc)
    (l : list (loc * (Z * string))) (q : loc) : Prop :=
  match l with
  | [] => p = q
  | (x, c) :: l' =>
    p = x ∧
    ∃ node y, h !! x = Some node ∧
              socket_fd node = c.1 ∧ user_id node = c.2 ∧
              next node = Some y ∧ lseg h y l' q
  end.

(** The scheduler holds the ring [l], in insertion order from [head], with
    the cursor on its [k]-th node. *)
Record ring (s : RoundRobinScheduler) (l : list (loc * (Z * string)))
    (k : nat) : Prop := mkRing {
  ring_nodup : NoDup l.*1;
  ring_fds : NoDup (l.*2).*1;
  ring_dom : dom (nodes s) = list_to_set l.*1;
  ring_head : head s = l.*1 !! 0%nat;
  ring_current : current s = l.*1 !! k;
  ring_cursor : (k < length l)%nat ∨ (l = [] ∧ k = 0%nat);
  ring_links : ∀ hd, head s = Some hd → lseg (nodes s) hd l hd
}.

Definition get_time_quantum (s : RoundRobinScheduler) : Z := time_quantum_ms s.

(** The loop of the destructor: [next_client = temp->next; delete temp;
    temp = next_client;] until [temp] is [head] again.  The result is the
    heap without the nodes deleted. *)
Fixpoint delete_all (fuel : nat) (h : gmap loc ScheduledClient) (hd temp : loc)
    : option (gmap loc ScheduledClient) :=
  match fuel with
  | O => None
  | S fuel' =>
    match h !! temp with
    | None => None
    | Some node =>
      match next node with
      | None => None
      | Some n =>
        if decide (n = hd) then Some (delete temp h)
        else delete_all fuel' (delete temp h) hd n
      end
    end
  end.

(** [~RoundRobinScheduler]. *)
Definition destroy (s : RoundRobinScheduler) : option RoundRobinScheduler :=
  match head s with
  | None => Some s
  | Some hd =>
    h ← delete_all (stdpp.base.size (nodes s)) (nodes s) hd hd;
    Some (mkScheduler h None None 0 (time_quantum_ms s))
  end.

(** One line of [print_schedule], without its [std::endl]. *)
Definition schedule_line (position : Z) (uid : string) (fd : Z)
    (is_current : bool) : string :=
  "  [" +:+ pretty position +:+ "] " +:+ uid
    +:+ " (fd: " +:+ pretty fd +:+ ")"
    +:+ (if is_current then " <- CURRENT" else "").

Fixpoint schedule_lines (fuel : nat) (h : gmap loc ScheduledClient)
    (hd : loc) (cur : option loc) (temp : loc) (position : Z)
    : option (list string) :=
  match fuel with
  | O => None
  | S fuel' =>
    match h !! temp with
    | None => None
    | Some node =>
      let line := schedule_line position (user_id node) (socket_fd node)
                                (bool_decide (Some temp = cur)) in
      match next node with
      | None => None
      | Some n =>
        if decide (n = hd) then Some [line]
        else (line ::.) <$>
               schedule_lines fuel' h hd cur n (int_wrap (position + 1))
      end
    end
  end.

(** [print_schedule]: the lines written to [std::cout]. *)
Definition print_schedule (s : RoundRobinScheduler) : option (list string) :=
  match head s with
  | None => Some ["[Scheduler] No clients scheduled"]
  | Some hd =>
    ("[Scheduler] Current schedule (Round-Robin):" ::.) <$>
      schedule_lines (stdpp.base.size (nodes s)) (nodes s) hd (current s) hd 0
  end.

(** *** Histories of calls *)

Inductive Op :=
  | OpAdd (fd : Z) (uid : string)
  | OpRemove (fd : Z)
  | OpNext (now : Z).

Definition run (s : RoundRobinScheduler) (op : Op)
    : option RoundRobinScheduler :=
  match op with
  | OpAdd fd uid => add_client s fd uid
  | OpRemove fd => remove_client s fd
  | OpNext now => snd <$> get_next_client s now
  end.

Fixpoint runs (s : RoundRobinScheduler) (ops : list Op)
    : option RoundRobinScheduler :=
  match ops with
  | [] => Some s
  | op :: ops' => s' ← run s op; runs s' ops'
  end.

(** Three clients scheduled on a new scheduler, and one call of
    [get_next_client]: the cursor is on the second client. *)
Definition demo_scheduler : RoundRobinScheduler :=
  let s0 := mkScheduler ∅ None None 0 100 in
  default s0
    (s ← add_clients s0 [(4, "alice"); (5, "bob"); (7, "carol")];
     snd <$> get_next_client s 10).

End Scheduler.

(** ** ThreadPool (thread_pool.h, thread_pool.cpp) *)

(** The pool is concurrent.  Everything a worker does to the queue and the
    stop flag happens inside one critical section of [queue_mutex], so the
    pool is modelled as a transition system whose steps are those critical
    sections and the moves of a worker between them; a run of the pool is
    the sequence of steps in the order the threads take them. *)

Module Pool.

Section ThreadPool.

(** The tasks: the non-empty [std::function<void()>] values. *)
Context {Task : Type}.

(** Where a worker thread is in [worker_thread]. *)
Inductive Worker :=
  | Waiting              (* at the head of the loop, or in [condition.wait] *)
  | Holding (t : Task)   (* left the critical section with [task] *)
  | Running (t : Task)   (* past [active_count++], inside [task()] *)
  | Exited.              (* returned *)

(** [class ThreadPool].  [accepted] and [finished] are history variables:
    the tasks [enqueue] has put in the queue, and the tasks whose call has
    returned or thrown, latest first. *)
Record ThreadPool := mkThreadPool {
  workers : list Worker;
  tasks : list Task;
  stop : bool;
  active_count : Z;
  pool_size : Z;
  accepted : list Task;
  finished : list Task
}.

(** The constructor; [None] is [std::invalid_argument]. *)
Definition ThreadPool_new (size : Z) : option ThreadPool :=
  if size <=? 0 then None
  else Some (mkThreadPool (replicate (Z.to_nat size) Waiting) [] false 0 size
                          [] []).

Inductive enqueue_error := invalid_argument | runtime_error.

(** [enqueue]; the argument is [None] for an empty [std::function]. *)
Definition enqueue (p : ThreadPool) (task : option Task)
    : enqueue_error + ThreadPool :=
  match task with
  | None => inl invalid_argument
  | Some t =>
    if stop p then inl runtime_error
    else inr (mkThreadPool (workers p) (tasks p ++ [t]) (stop p)
                           (active_count p) (pool_size p)
                           (accepted p ++ [t]) (finished p))
  end.

(** The first block of the destructor. *)
Definition begin_shutdown (p : ThreadPool) : ThreadPool :=
  mkThreadPool (workers p) (tasks p) true (active_count p) (pool_size p)
               (accepted p) (finished p).

(** What a worker leaves its critical section with. *)
Inductive Outcome :=
  | Return                          (* [stop && tasks.empty()] *)
  | Take (t : Task) (rest : list Task)
  | Nothing.                        (* [task] stays empty: loop again *)

(** The critical section of [worker_thread]: [None] while the predicate of
    [condition.wait] is false and the thread stays blocked. *)
Definition critical_section (stop : bool) (tasks : list Task)
    : option Outcome :=
  if stop || negb (bool_decide (tasks = [])) then
    if stop && bool_decide (tasks = []) then Some Return
    else match tasks with
         | t :: rest => Some (Take t rest)
         | [] => Some Nothing
         end
  else None.

Definition set_worker (p : ThreadPool) (i : nat) (w : Worker) : ThreadPool :=
  mkThreadPool (<[i := w]> (workers p)) (tasks p) (stop p) (active_count p)
               (pool_size p) (accepted p) (finished p).

(** The next move of worker [i]; [None] when it has none (blocked in the
    wait, or returned).  A worker in [Running t] moves when [task()] returns
    or throws: both catch clauses fall through to [active_count--]. *)
Definition worker_step (p : ThreadPool) (i : nat) : option ThreadPool :=
  match workers p !! i with
  | Some Waiting =>
    match critical_section (stop p) (tasks p) with
    | Some Return => Some (set_worker p i Exited)
    | Some (Take t rest) =>
      Some (mkThreadPool (<[i := Holding t]> (workers p)) rest (stop p)
                         (active_count p) (pool_size p)
                         (accepted p) (finished p))
    | Some Nothing => Some p
    | None => None
    end
  | Some (Holding t) =>
    Some (mkThreadPool (<[i := Running t]> (workers p)) (tasks p) (stop p)
                       (int_wrap (active_count p + 1)) (pool_size p)
                       (accepted p) (finished p))
  | Some (Running t) =>
    Some (mkThreadPool (<[i := Waiting]> (workers p)) (tasks p) (stop p)
                       (int_wrap (active_count p - 1)) (pool_size p)
                       (accepted p) (t :: finished p))
  | Some Exited | None => None
  end.

(** The steps of a run. *)
Inductive Event :=
  | EvEnqueue (task : option Task)
  | EvShutdown
  | EvWorker (i : nat).

(** One step; [None] when the step cannot be taken in [p].  A call of
    [enqueue] that throws is a step that leaves the pool as it is. *)
Definition exec (p : ThreadPool) (ev : Event) : option ThreadPool :=
  match ev with
  | EvEnqueue task =>
    match enqueue p task with inr p' => Some p' | inl _ => Some p end
  | EvShutdown => Some (begin_shutdown p)
  | EvWorker i => worker_step p i
  end.

Fixpoint run (p : ThreadPool) (evs : list Event) : option ThreadPool :=
  match evs with
  | [] => Some p
  | ev :: evs' =>
    match exec p ev with
    | Some p' => run p' evs'
    | None => None
    end
  end.

(** The task a worker has taken off the queue and not yet finished. *)
Definition held (w : Worker) : list Task :=
  match w with
  | Holding t | Running t => [t]
  | Waiting | Exited => []
  end.

Definition in_flight (ws : list Worker) : list Task := ws ≫= held.

(** Every worker has returned: the state in which the joins of the
    destructor are over. *)
Definition joined (p : ThreadPool) : Prop :=
  Forall (λ w, w = Exited) (workers p).

(** The number of worker steps a stopped pool can still take. *)
Definition worker_weight (w : Worker) : nat :=
  match w with
  | Exited => 0
  | Waiting => 1
  | Running _ => 2
  | Holding _ => 3
  end.

Definition remaining (p : ThreadPool) : nat :=
  3 * length (tasks p) + sum_list (worker_weight <$> workers p).

Definition is_worker_event (ev : Event) : Prop :=
  match ev with EvWorker _ => True | _ => False end.

(** The invariant of a run: every accepted task is finished, with a worker
    or in the queue, as often as it was accepted; and once a worker has
    returned, the pool is stopped and the queue empty. *)
Record pool_inv (p : ThreadPool) : Prop := mkPoolInv {
  inv_tasks :
    accepted p ≡ₚ finished p ++ in_flight (workers p) ++ tasks p;
  inv_exited :
    Exited ∈ workers p → stop p = true ∧ tasks p = []
}.

End ThreadPool.

Arguments Worker : clear implicits.
Arguments ThreadPool : clear implicits.
Arguments Outcome : clear implicits.
Arguments Event : clear implicits.

(** A run of a pool of two workers on tasks [1], [2] and [3]: worker 0 has
    taken task 1 when shutdown begins, tasks 2 and 3 are still queued. *)
Definition demo_before : list (Event nat) :=
  [EvEnqueue (Some 1%nat); EvEnqueue (Some 2%nat); EvEnqueue (Some 3%nat);
   EvWorker 0].

Definition demo_after : list (Event nat) :=
  [EvWorker 1; EvWorker 0; EvWorker 0; EvWorker 0; EvWorker 0; EvWorker 0;
   EvWorker 0; EvWorker 1; EvWorker 1; EvWorker 1].

(** *** What the getters and a run show *)

Section Observers.

Context {Task : Type}.

Definition get_active_count (p : ThreadPool Task) : Z := active_count p.

Definition get_pool_size (p : ThreadPool Task) : Z := pool_size p.

(** [tasks.size()], a [size_t]. *)
Definition get_queue_size (p : ThreadPool Task) : Z :=
  Z.of_nat (length (tasks p)) mod 2 ^ 64.

(** The workers that are inside [task()]. *)
Definition is_running (w : Worker Task) : bool :=
  match w with Running _ => true | _ => false end.

Definition running (p : ThreadPool Task) : list (Worker Task) :=
  filter (λ w, is_running w = true) (workers p).

(** The tasks the calls of [enqueue] in a run were given, null ones left
    out. *)
Definition enqueued (evs : list (Event Task)) : list Task :=
  omap (λ ev, match ev with EvEnqueue (Some t) => Some t | _ => None end) evs.

Definition is_shutdown (ev : Event Task) : Prop :=
  match ev with EvShutdown => True | _ => False end.

(** The counter is the number of workers inside [task()], and the vector of
    workers keeps the length the constructor gave it. *)
Record count_inv (p : ThreadPool Task) : Prop := mkCountInv {
  count_running : active_count p = Z.of_nat (length (running p));
  count_workers : Z.of_nat (length (workers p)) = pool_size p;
  count_max : pool_size p ≤ INT_MAX
}.

End Observers.

End Pool.

(** ** The server (common.h, server.cpp) *)

(** [handle_client] and [broadcast_message] run on the pool's threads over
    the global registry, cache, scheduler and metrics.  The model follows
    one call from its first statement to its last: the globals are threaded
    through as a [State], and everything the call does to the outside world
    (mutexes, sockets, the clock, the log) is appended to [trace] in program
    order.  What the world answers is read from an [Env], as a function of
    the trace so far. *)

Module Server.

(** *** common.h *)

Definition BUFFER_SIZE : Z := 4096.
Definition CACHE_SIZE : Z := 10.
Definition USERNAME_MAX_LEN : Z := 63.

Definition MSG_TEXT : Z := 1.
Definition MSG_JOIN : Z := 2.
Definition MSG_LEAVE : Z := 3.
Definition MSG_AUDIO : Z := 4.
Definition MSG_VIDEO : Z := 5.
Definition MSG_STATUS : Z := 6.
Definition MSG_CACHE_TEST : Z := 7.

(** [struct Message].  The two [char] arrays are strings of the arrays'
    lengths, NUL bytes included; [uid] is the member [user_id]. *)
Record Message := mkMessage {
  type : Z;
  uid : Z;
  payload_size : Z;
  sender : string;
  payload : string;
  timestamp : Z
}.

(** [sizeof(Message)] under the LP64 ABI: 1 + 3 + 4 + 4 + 64 + 4096 bytes,
    4 bytes of padding before the 8-byte [time_t], 8 bytes. *)
Definition sizeof_Message : Z := 4184.

Definition NUL : ascii := "000"%char.

Fixpoint nuls (n : nat) : string :=
  match n with O => EmptyString | S n' => String NUL (nuls n') end.

Fixpoint take_str (n : nat) (s : string) : string :=
  match n, s with
  | S n', String a s' => String a (take_str n' s')
  | _, _ => EmptyString
  end.

(** The C string an array holds: the characters before the first NUL.
    This is [std::string(const char* )], and [c_str()] read back. *)
Fixpoint c_str (s : string) : string :=
  match s with
  | EmptyString => EmptyString
  | String a s' => if decide (a = NUL) then EmptyString else String a (c_str s')
  end.

(** A string without NUL bytes: what a [std::string] built from a C string
    holds. *)
Fixpoint no_nul (s : string) : Prop :=
  match s with
  | EmptyString => True
  | String a s' => a ≠ NUL ∧ no_nul s'
  end.

(** A zeroed array of [n] bytes with [s] written at its start. *)
Definition char_array (n : nat) (s : string) : string :=
  take_str n s +:+ nuls (n - String.length (take_str n s)).

(** [strncpy(a, src, n - 1); a[n - 1] = 0] on an array of [n] bytes. *)
Definition strncpy_nul (n : nat) (src : string) : string :=
  char_array n (take_str (n - 1) (c_str src)).

(** [snprintf(a, n, "%s...", ...)] on a zeroed array of [n] bytes, [text]
    being the formatted text. *)
Definition snprintf (n : nat) (text : string) : string :=
  char_array n (take_str (n - 1) (c_str text)).

(** [a[n - 1] = 0] on an array of [n] bytes. *)
Definition terminate (n : nat) (a : string) : string :=
  take_str (n - 1) a +:+ nuls 1.

Definition strlen (a : string) : Z := Z.of_nat (String.length (c_str a)).

Definition uint32_wrap (z : Z) : Z := z mod 2 ^ 32.

(** [Message()] and [memset(&msg, 0, sizeof(msg))]. *)
Definition Message_zero : Message :=
  mkMessage 0 0 0 (nuls 64) (nuls 4096) 0.

Definition set_sender (m : Message) (name : string) : Message :=
  mkMessage (type m) (uid m) (payload_size m) (strncpy_nul 64 name)
            (payload m) (timestamp m).

Definition set_payload (m : Message) (text : string) : Message :=
  mkMessage (type m) (uid m)
            (uint32_wrap (strlen (strncpy_nul 4096 text)))
            (sender m) (strncpy_nul 4096 text) (timestamp m).

(** [struct ClientInfo]. *)
Record ClientInfo := mkClientInfo {
  socket_fd : Z;
  user_id : string;
  connect_time : Z;
  last_active : Z;
  active : bool
}.

(** [struct PerformanceMetrics]. *)
Record PerformanceMetrics := mkMetrics {
  messages_sent : Z;
  messages_received : Z;
  cache_hits : Z;
  cache_misses : Z;
  page_faults_minor : Z;
  page_faults_major : Z;
  active_threads : Z;
  active_clients : Z
}.

Definition PerformanceMetrics_new : PerformanceMetrics :=
  mkMetrics 0 0 0 0 0 0 0 0.

(** *** The world *)

Inductive Mutex := clients_mutex | metrics_mutex.

#[global] Instance Mutex_eq_dec : EqDecision Mutex.
Proof. solve_decision. Defined.

Inductive Event :=
  | EvLock (m : Mutex)
  | EvUnlock (m : Mutex)
  | EvSend (fd : Z) (msg : Message) (ret : Z)
  | EvRecv (fd : Z) (ret : Z)
  | EvTime (t : Z)
  | EvRunning (b : bool)
  | EvSetsockopt (fd : Z) (ret : Z)
  | EvProc (lines : nat)
  | EvLog (line : string)
  | EvPrint (text : string)
  | EvClose (fd : Z).

(** The answers of the world, each a function of the trace at the moment of
    the call.
    - [env_time]: [time(nullptr)];
    - [env_send fd msg]: the result of [send];
    - [env_recv_id fd]: the handshake [recv]: its result and the bytes read;
    - [env_recv_msg fd]: the [recv] of a record: its result, whether [errno]
      is [EWOULDBLOCK] or [EAGAIN], and [msg] after the call;
    - [env_setsockopt fd]: the result of [setsockopt];
    - [env_running]: [server_running.load()];
    - [env_proc]: how many lines of [/proc/self/status] start with [VmHWM:]
      or [VmRSS:] (none when the file cannot be read);
    - [env_hit_rate hits misses]: the text [operator<<] prints for
      [get_hit_rate()], a [double], under [std::fixed] and
      [std::setprecision(2)]. *)
Record Env := mkEnv {
  env_time : list Event → Z;
  env_send : list Event → Z → Message → Z;
  env_recv_id : list Event → Z → Z * string;
  env_recv_msg : list Event → Z → Z * bool * Message;
  env_setsockopt : list Event → Z → Z;
  env_running : list Event → bool;
  env_proc : list Event → nat;
  env_hit_rate : Z → Z → string
}.

(** The globals of server.cpp and the trace of the call. *)
Record State := mkState {
  clients : gmap Z ClientInfo;
  message_cache : Cache.MessageCache;
  scheduler : Scheduler.RoundRobinScheduler;
  metrics : PerformanceMetrics;
  trace : list Event
}.

Definition emit (ev : Event) (s : State) : State :=
  mkState (clients s) (message_cache s) (scheduler s) (metrics s)
          (trace s ++ [ev]).

Definition with_clients (f : gmap Z ClientInfo → gmap Z ClientInfo)
    (s : State) : State :=
  mkState (f (clients s)) (message_cache s) (scheduler s) (metrics s)
          (trace s).

Definition with_cache (c : Cache.MessageCache) (s : State) : State :=
  mkState (clients s) c (scheduler s) (metrics s) (trace s).

Definition with_scheduler (r : Scheduler.RoundRobinScheduler) (s : State)
    : State :=
  mkState (clients s) (message_cache s) r (metrics s) (trace s).

Definition with_metrics (f : PerformanceMetrics → PerformanceMetrics)
    (s : State) : State :=
  mkState (clients s) (message_cache s) (scheduler s) (f (metrics s))
          (trace s).

(** [log_message]: the line, without its time-of-day prefix. *)
Definition log_message (line : string) (s : State) : State :=
  emit (EvLog line) s.

(** [time(nullptr)]: the value read and the state after the call. *)
Definition time_nullptr (env : Env) (s : State) : Z * State :=
  let t := env_time env (trace s) in (t, emit (EvTime t) s).

(** The three calls into the cache.  [insert] and [update_access] read
    the clock themselves, and only on the path that writes an entry:
    [insert] returns [false] for a fingerprint it has before it comes to
    [time(nullptr)], and returns [true] on the one path that reads it;
    [update_access] reads it inside the test that finds the entry live. *)
Definition cache_insert (env : Env) (sender content : string) (timestamp : Z)
    (s : State) : bool * State :=
  let now := env_time env (trace s) in
  let '(ok, c) := Cache.insert (message_cache s) sender content timestamp now in
  (ok, with_cache c (if ok then emit (EvTime now) s else s)).

Definition cache_lookup (message_id : string) (s : State)
    : option string * State :=
  let '(r, c) := Cache.lookup (message_cache s) message_id in
  (r, with_cache c s).

Definition cache_update_access (env : Env) (message_id : string) (s : State)
    : State :=
  match Cache.live_slot (message_cache s) message_id with
  | Some _ =>
    let '(now, s) := time_nullptr env s in
    with_cache (Cache.update_access (message_cache s) message_id now) s
  | None => s
  end.

(** *** broadcast_message *)

Definition deactivate (c : ClientInfo) : ClientInfo :=
  mkClientInfo (socket_fd c) (user_id c) (connect_time c) (last_active c) false.

Definition incr_messages_sent (m : PerformanceMetrics) : PerformanceMetrics :=
  mkMetrics (uint64_wrap (messages_sent m + 1)) (messages_received m)
            (cache_hits m) (cache_misses m) (page_faults_minor m)
            (page_faults_major m) (active_threads m) (active_clients m).

Definition key_le (a b : Z * ClientInfo) : Prop := a.1 ≤ b.1.

#[global] Instance key_le_dec a b : Decision (key_le a b).
Proof. unfold key_le. apply _. Defined.

(** The entries of a [std::map<int, ClientInfo>] in iteration order. *)
Definition entries (m : gmap Z ClientInfo) : list (Z * ClientInfo) :=
  merge_sort key_le (map_to_list m).

(** One turn of the first loop; the loop state is the globals and
    [failed_sockets]. *)
Definition send_to (env : Env) (msg : Message) (sender_socket : Z)
    (st : State * list Z) (e : Z * ClientInfo) : State * list Z :=
  let '(s, failed_sockets) := st in
  let '(fd, client_info) := e in
  if bool_decide (fd ≠ sender_socket) && active client_info then
    let sent := env_send env (trace s) fd msg in
    let s := emit (EvSend fd msg sent) s in
    if 0 <? sent then
      (emit (EvUnlock metrics_mutex)
         (with_metrics incr_messages_sent (emit (EvLock metrics_mutex) s)),
       failed_sockets)
    else (s, failed_sockets ++ [fd])
  else st.

(** The first block: the sends, under [clients_mutex]. *)
Definition send_pass (env : Env) (msg : Message) (sender_socket : Z)
    (s : State) : State * list Z :=
  let s := emit (EvLock clients_mutex) s in
  let '(s, failed_sockets) :=
    foldl (send_to env msg sender_socket) (s, []) (entries (clients s)) in
  (emit (EvUnlock clients_mutex) s, failed_sockets).

(** One turn of the second loop. *)
Definition mark_failed (s : State) (fd : Z) : State :=
  let s := emit (EvLock clients_mutex) s in
  let s :=
    match clients s !! fd with
    | Some info =>
      with_clients (<[fd := deactivate info]>)
        (log_message ("Client connection lost: " +:+ user_id info) s)
    | None => s
    end in
  emit (EvUnlock clients_mutex) s.

Definition broadcast_message (env : Env) (msg : Message) (sender_socket : Z)
    (s : State) : State :=
  let '(s, failed_sockets) := send_pass env msg sender_socket s in
  let s := foldl mark_failed s failed_sockets in
  (cache_insert env (c_str (sender msg)) (c_str (payload msg))
                (timestamp msg) s).2.

(** *** handle_client *)

Definition set_timestamp (m : Message) (t : Z) : Message :=
  mkMessage (type m) (uid m) (payload_size m) (sender m) (payload m) t.

Definition set_last_active (t : Z) (c : ClientInfo) : ClientInfo :=
  mkClientInfo (socket_fd c) (user_id c) (connect_time c) t (active c).

Definition incr_messages_received (m : PerformanceMetrics)
    : PerformanceMetrics :=
  mkMetrics (messages_sent m) (uint64_wrap (messages_received m + 1))
            (cache_hits m) (cache_misses m) (page_faults_minor m)
            (page_faults_major m) (active_threads m) (active_clients m).

Definition set_active_clients (n : Z) (m : PerformanceMetrics)
    : PerformanceMetrics :=
  mkMetrics (messages_sent m) (messages_received m)
            (cache_hits m) (cache_misses m) (page_faults_minor m)
            (page_faults_major m) (active_threads m) n.

Definition set_cache_counters (h x : Z) (m : PerformanceMetrics)
    : PerformanceMetrics :=
  mkMetrics (messages_sent m) (messages_received m) h x
            (page_faults_minor m) (page_faults_major m) (active_threads m)
            (active_clients m).

(** [update_metrics], with [read_page_faults] inlined.  For every matching
    line [read_page_faults] locks [metrics_mutex], which its caller holds:
    the thread does not come back from that lock, and the result is
    [None]. *)
Definition update_metrics (env : Env) (s : State) : option State :=
  let s := emit (EvLock metrics_mutex) s in
  let s := emit (EvLock clients_mutex) s in
  let s := with_metrics
             (set_active_clients (int_wrap (Z.of_nat (size (clients s))))) s in
  let s := emit (EvUnlock clients_mutex) s in
  let s := with_metrics
             (set_cache_counters (Cache.get_hits (message_cache s))
                                 (Cache.get_misses (message_cache s))) s in
  let lines := env_proc env (trace s) in
  let s := emit (EvProc lines) s in
  match lines with
  | O => Some (emit (EvUnlock metrics_mutex) s)
  | S _ => None
  end.

Definition nl : string := String "010"%char EmptyString.

(** The text both [print_statistics] and the status reply are built from;
    [sep] ends a line. *)
Definition statistics_lines (env : Env) (s : State) : list string :=
  [ "Messages Sent:     " +:+ pretty (messages_sent (metrics s));
    "Messages Received: " +:+ pretty (messages_received (metrics s));
    "Active Clients:    " +:+ pretty (active_clients (metrics s));
    "Cache Hits:        " +:+ pretty (cache_hits (metrics s));
    "Cache Misses:      " +:+ pretty (cache_misses (metrics s));
    "Cache Hit Rate:    "
      +:+ env_hit_rate env (Cache.get_hits (message_cache s))
                           (Cache.get_misses (message_cache s)) +:+ "%";
    "Cache Size:        " +:+ pretty (Cache.get_size (message_cache s))
      +:+ "/" +:+ pretty (Cache.get_capacity (message_cache s)) ].

Definition join_lines (ls : list string) : string :=
  foldr (λ l acc, l +:+ nl +:+ acc) EmptyString ls.

Definition print_statistics (env : Env) (s : State) : State :=
  let s := emit (EvLock metrics_mutex) s in
  let s := emit (EvPrint
    (nl +:+ "==================================" +:+ nl
        +:+ "    SERVER STATISTICS" +:+ nl
        +:+ "==================================" +:+ nl
        +:+ join_lines (statistics_lines env s)
        +:+ "==================================" +:+ nl)) s in
  emit (EvUnlock metrics_mutex) s.

(** [case MSG_TEXT]. *)
Definition touch_previous (env : Env) (user_id : string) (timestamp : Z)
    (s : State) (i : Z) : State :=
  let prev_msg_id := user_id +:+ "_" +:+ pretty (time_wrap (timestamp - i)) in
  let '(found, s) := cache_lookup prev_msg_id s in
  match found with
  | Some _ => cache_update_access env prev_msg_id s
  | None => s
  end.

Definition handle_text (env : Env) (client_socket : Z) (user_id : string)
    (msg : Message) (s : State) : State :=
  let msg := mkMessage (type msg) (uid msg) (payload_size msg)
                       (terminate 64 (sender msg))
                       (terminate 4096 (payload msg)) (timestamp msg) in
  let recent_msg_id :=
    c_str (sender msg) +:+ "_" +:+ pretty (time_wrap (timestamp msg - 5)) in
  let '(_, s) := cache_lookup recent_msg_id s in
  let '(now, s) := time_nullptr env s in
  let msg := set_timestamp msg now in
  let s := broadcast_message env msg client_socket s in
  let s := log_message
             ("Message from " +:+ user_id +:+ ": " +:+ c_str (payload msg)) s in
  foldl (touch_previous env user_id (timestamp msg)) s [1; 2; 3].

(** [case MSG_STATUS]. *)
Definition handle_status (env : Env) (client_socket : Z) (user_id : string)
    (s : State) : option State :=
  s ← update_metrics env s;
  let '(now, s) := time_nullptr env s in
  let stats_msg :=
    set_sender (mkMessage MSG_TEXT 0 0 (nuls 64) (nuls 4096) now) "SERVER" in
  let s := emit (EvLock metrics_mutex) s in
  let text := nl +:+ "=== SERVER STATISTICS ===" +:+ nl
                 +:+ join_lines (statistics_lines env s)
                 +:+ "=========================" in
  let s := emit (EvUnlock metrics_mutex) s in
  let stats_msg := set_payload stats_msg text in
  let sent := env_send env (trace s) client_socket stats_msg in
  let s := emit (EvSend client_socket stats_msg sent) s in
  let s :=
    if 0 <? sent then
      log_message ("Statistics sent to " +:+ user_id +:+ " ("
                     +:+ pretty sent +:+ " bytes)") s
    else log_message ("ERROR: Failed to send statistics to " +:+ user_id) s in
  Some (print_statistics env s).

(** How a turn of the message loop ends. *)
Inductive Control := Continue | Break.

(** The body of [while (server_running.load())]. *)
Definition loop_body (env : Env) (client_socket : Z) (user_id : string)
    (s : State) : option (Control * State) :=
  let '(bytes, timed_out, msg) := env_recv_msg env (trace s) client_socket in
  let s := emit (EvRecv client_socket bytes) s in
  if bytes <? 0 then
    if timed_out : bool then Some (Continue, s) else Some (Break, s)
  else if (bytes =? 0) || negb (bytes =? sizeof_Message) then
    Some (Break, s)
  else
    let s := emit (EvUnlock metrics_mutex)
               (with_metrics incr_messages_received
                  (emit (EvLock metrics_mutex) s)) in
    let s := emit (EvLock clients_mutex) s in
    let s :=
      match clients s !! client_socket with
      | Some info =>
        let '(now, s) := time_nullptr env s in
        with_clients (<[client_socket := set_last_active now info]>) s
      | None => s
      end in
    let s := emit (EvUnlock clients_mutex) s in
    if type msg =? MSG_TEXT then
      Some (Continue, handle_text env client_socket user_id msg s)
    else if type msg =? MSG_STATUS then
      s ← handle_status env client_socket user_id s; Some (Continue, s)
    else
      Some (Continue,
            log_message ("Unknown message type " +:+ pretty (type msg)
                           +:+ " from " +:+ user_id) s).

(** The message loop.  It runs as long as the clients send and the server
    is up: [fuel] bounds the number of turns, and [None] is a loop that has
    not ended within it (or a turn that does not end). *)
Fixpoint message_loop (fuel : nat) (env : Env) (client_socket : Z)
    (user_id : string) (s : State) : option State :=
  match fuel with
  | O => None
  | S fuel' =>
    let running := env_running env (trace s) in
    let s := emit (EvRunning running) s in
    if running then
      match loop_body env client_socket user_id s with
      | Some (Continue, s') => message_loop fuel' env client_socket user_id s'
      | Some (Break, s') => Some s'
      | None => None
      end
    else Some s
  end.

Definition incr_active_clients (m : PerformanceMetrics) : PerformanceMetrics :=
  set_active_clients (int_wrap (active_clients m + 1)) m.

Definition decr_active_clients (m : PerformanceMetrics) : PerformanceMetrics :=
  if 0 <? active_clients m
  then set_active_clients (int_wrap (active_clients m - 1)) m
  else m.

(** The block "Register client". *)
Definition register_client (env : Env) (client_socket : Z) (user_id : string)
    (s : State) : State :=
  let s := emit (EvLock clients_mutex) s in
  let '(t1, s) := time_nullptr env s in
  let '(t2, s) := time_nullptr env s in
  let s := with_clients
             (<[client_socket := mkClientInfo client_socket user_id t1 t2 true]>)
             s in
  let s := emit (EvLock metrics_mutex) s in
  let s := with_metrics incr_active_clients s in
  emit (EvUnlock clients_mutex) (emit (EvUnlock metrics_mutex) s).

(** A join or leave notification: a zeroed message with the four members
    the handler sets. *)
Definition notification (kind : Z) (now : Z) (user_id text : string)
    : Message :=
  let m := set_sender (mkMessage kind 0 0 (nuls 64) (nuls 4096) now) user_id in
  mkMessage (type m) (uid m) (uint32_wrap (strlen (snprintf 4096 text)))
            (sender m) (snprintf 4096 text) (timestamp m).

Definition announce_join (env : Env) (client_socket : Z) (user_id : string)
    (s : State) : State :=
  let '(now, s) := time_nullptr env s in
  broadcast_message env
    (notification MSG_JOIN now user_id (user_id +:+ " has joined the chat"))
    client_socket s.

Definition announce_leave (env : Env) (user_id : string) (s : State) : State :=
  let '(now, s) := time_nullptr env s in
  broadcast_message env
    (notification MSG_LEAVE now user_id (user_id +:+ " has left the chat"))
    (-1) s.

(** Everything after the [try] block: "Client cleanup", the leave
    notification, [close]. *)
Definition finish_client (env : Env) (client_socket : Z) (user_id : string)
    (s : State) : option State :=
  r ← Scheduler.remove_client (scheduler s) client_socket;
  let s := with_scheduler r s in
  let s := emit (EvLock clients_mutex) s in
  let s := with_clients (delete client_socket) s in
  let s := emit (EvLock metrics_mutex) s in
  let s := with_metrics decr_active_clients s in
  let s := emit (EvUnlock clients_mutex) (emit (EvUnlock metrics_mutex) s) in
  let s :=
    if bool_decide (user_id = EmptyString) then s
    else
      log_message ("Client disconnected: " +:+ user_id +:+ " (fd: "
                     +:+ pretty client_socket +:+ ")")
        (announce_leave env user_id s) in
  Some (emit (EvClose client_socket) s).

Definition handle_client (fuel : nat) (env : Env) (client_socket : Z)
    (s : State) : option State :=
  let r := env_setsockopt env (trace s) client_socket in
  let s := emit (EvSetsockopt client_socket r) s in
  let s := if r <? 0
           then log_message "Warning: Failed to set socket timeout" s
           else s in
  let '(bytes, buffer) := env_recv_id env (trace s) client_socket in
  let s := emit (EvRecv client_socket bytes) s in
  if bytes <=? 0 then Some (emit (EvClose client_socket) s)
  else
    let user_id :=
      c_str (take_str (Z.to_nat (Z.min bytes (BUFFER_SIZE - 1))) buffer) in
    if bool_decide (user_id = EmptyString)
       || (USERNAME_MAX_LEN <? Z.of_nat (String.length user_id)) then
      Some (emit (EvClose client_socket)
              (log_message "Invalid user ID received, disconnecting" s))
    else
      let s := register_client env client_socket user_id s in
      r ← Scheduler.add_client (scheduler s) client_socket user_id;
      let s := with_scheduler r s in
      let s := announce_join env client_socket user_id s in
      let s := log_message ("Client connected: " +:+ user_id +:+ " (fd: "
                              +:+ pretty client_socket +:+ ")") s in
      s ← message_loop fuel env client_socket user_id s;
      finish_client env client_socket user_id s.

(** *** Reading a trace *)

(** The [send] calls of a trace: descriptor, message, result. *)
Definition sent_to (evs : list Event) : list (Z * Message * Z) :=
  omap (λ ev, match ev with
              | EvSend fd msg ret => Some (fd, msg, ret)
              | _ => None
              end) evs.

(** A send has failed when its result is not positive: the test of
    [broadcast_message]. *)
Definition send_failed (x : Z * Message * Z) : Prop := x.2 ≤ 0.

#[global] Instance send_failed_dec x : Decision (send_failed x).
Proof. unfold send_failed. apply _. Defined.

Definition failed_sends (evs : list Event) : list Z :=
  (filter send_failed (sent_to evs)).*1.*1.

Definition delivered_sends (evs : list Event) : list Z :=
  (filter (λ x, ¬ send_failed x) (sent_to evs)).*1.*1.

(** The sends of a trace that went to [fd]. *)
Definition sends_to (fd : Z) (evs : list Event) : list (Z * Message * Z) :=
  filter (λ x, x.1.1 = fd) (sent_to evs).

(** What a call has added to the trace. *)
Definition new_events (s s' : State) : list Event :=
  drop (length (trace s)) (trace s').

(** The connections a broadcast addresses: active, and not the sender. *)
Definition is_peer (sender_socket : Z) (e : Z * ClientInfo) : Prop :=
  e.1 ≠ sender_socket ∧ active e.2 = true.

#[global] Instance is_peer_dec sender_socket e : Decision (is_peer sender_socket e).
Proof. unfold is_peer. apply _. Defined.

Definition peers (m : gmap Z ClientInfo) (sender_socket : Z) : list Z :=
  (filter (is_peer sender_socket) (entries m)).*1.

Definition locks_clients (ev : Event) : Prop :=
  ev = EvLock clients_mutex ∨ ev = EvUnlock clients_mutex.

(** What the sends of a broadcast leave behind: the registry, the cache and
    the scheduler as they were, new events [evs] on the trace, and the
    descriptors of the failed sends added to [failed_sockets]. *)
Record sends (msg : Message) (l : list Z) (st st' : State * list Z)
    (evs : list Event) : Prop := mkSends {
  sends_trace : trace st'.1 = trace st.1 ++ evs;
  sends_clients : clients st'.1 = clients st.1;
  sends_cache : message_cache st'.1 = message_cache st.1;
  sends_scheduler : scheduler st'.1 = scheduler st.1;
  sends_fds : (sent_to evs).*1.*1 = l;
  sends_msg : Forall (λ x, x.1.2 = msg) (sent_to evs);
  sends_failed : st'.2 = st.2 ++ failed_sends evs;
  sends_unlocked : Forall (λ ev, ¬ locks_clients ev) evs;
  sends_metrics :
    metrics st'.1 =
      Nat.iter (length (delivered_sends evs)) incr_messages_sent (metrics st.1)
}.

(** The events of one turn of the second loop of [broadcast_message]. *)
Definition mark_events (m : gmap Z ClientInfo) (fd : Z) : list Event :=
  match m !! fd with
  | Some info =>
    [EvLock clients_mutex;
     EvLog ("Client connection lost: " +:+ user_id info);
     EvUnlock clients_mutex]
  | None => [EvLock clients_mutex; EvUnlock clients_mutex]
  end.

(** The registry after the connections [fds] are flagged inactive. *)
Definition flag_all (m : gmap Z ClientInfo) (fds : list Z)
    : gmap Z ClientInfo :=
  foldl (λ m fd, alter deactivate fd m) m fds.

(** A world in which every send to descriptor 5 fails and no record arrives
    whole, three registered clients, and a text message of the first. *)
Definition demo_env : Env :=
  mkEnv (λ _, 1000) (λ _ fd _, if fd =? 5 then -1 else 4184)
        (λ _ _, (3, "bob"))
        (λ _ _, (10, false, Message_zero)) (λ _ _, 0) (λ _, true) (λ _, O)
        (λ _ _, "0.00").

Definition demo_state : State :=
  mkState (<[4 := mkClientInfo 4 "alice" 0 0 true]>
             (<[5 := mkClientInfo 5 "bob" 0 0 true]>
                (<[6 := mkClientInfo 6 "carol" 0 0 true]> ∅)))
          (Cache.mkMessageCache (replicate 10 Cache.CacheEntry_new)
                                10 0 0 0 ∅ 0 0)
          (Scheduler.mkScheduler ∅ None None 0 100)
          PerformanceMetrics_new [].

Definition demo_msg : Message :=
  set_payload (set_sender (mkMessage MSG_TEXT 0 0 (nuls 64) (nuls 4096) 990)
                          "alice") "hi".

(** *** cleanup_server *)

(** One turn of the loop of [cleanup_server]: an active connection is
    closed at once ([SO_LINGER] with a zero timeout, then [close]) and
    flagged. *)
Definition close_active (env : Env) (s : State) (e : Z * ClientInfo) : State :=
  let '(fd, client_info) := e in
  if active client_info then
    let r := env_setsockopt env (trace s) fd in
    let s := emit (EvSetsockopt fd r) s in
    let s := emit (EvClose fd) s in
    with_clients (<[fd := deactivate client_info]>) s
  else s.

(** [cleanup_server]; the pause of one second between the unlock and the
    statistics, and the closing of the log file at the end, leave no mark on
    the state or the trace.  The [setsockopt] of the loop sets [SO_LINGER];
    it is recorded with the event of the trace for [setsockopt]. *)
Definition cleanup_server (env : Env) (server_socket : Z) (s : State) : State :=
  let s := log_message "Shutting down server..." s in
  let s := emit (EvClose server_socket) s in
  let s := emit (EvLock clients_mutex) s in
  let s := foldl (close_active env) s (entries (clients s)) in
  let s := with_clients (λ _, ∅) s in
  let s := emit (EvUnlock clients_mutex) s in
  let s := emit (EvPrint ("Waiting for threads to finish..." +:+ nl)) s in
  let s := print_statistics env s in
  log_message "Server shutdown complete" s.

(** *** More ways to read a trace *)

(** The descriptors closed, in order. *)
Definition closed (evs : list Event) : list Z :=
  omap (λ ev, match ev with EvClose fd => Some fd | _ => None end) evs.


(** The events of one call of [MessageCache::insert] on the cache [c] when
    the clock stands at [now]: one reading of the clock when the message is
    stored, nothing when its fingerprint is there already. *)
Definition insert_events (c : Cache.MessageCache) (sender content : string)
    (timestamp now : Z) : list Event :=
  if (Cache.insert c sender content timestamp now).1 then [EvTime now] else [].

(** The lines logged, in order. *)
Definition logged (evs : list Event) : list string :=
  omap (λ ev, match ev with EvLog line => Some line | _ => None end) evs.

(** The events of the message loop: everything but [setsockopt] and
    [close]. *)
Definition loop_event (ev : Event) : Prop :=
  match ev with
  | EvClose _ | EvSetsockopt _ _ => False
  | _ => True
  end.

Definition not_send (ev : Event) : Prop :=
  match ev with EvSend _ _ _ => False | _ => True end.

(** A reading of the clock. *)
Definition clock_event (ev : Event) : Prop :=
  match ev with EvTime _ => True | _ => False end.

(** The cache of [s'] comes from the cache of [s] by calls of the public
    operations of [MessageCache]. *)
Definition cache_steps (s s' : State) : Prop :=
  ∃ ops, message_cache s' = foldl Cache.run (message_cache s) ops.


(** The events of a call that neither sends nor closes. *)
Definition quiet_event (ev : Event) : Prop := loop_event ev ∧ not_send ev.

(** A call has added events to the trace, all of them with property [P]. *)
Definition emits (P : Event → Prop) (s s' : State) : Prop :=
  ∃ evs, trace s' = trace s ++ evs ∧ Forall P evs.

(** Following the mutexes through a trace.  [held] lists the mutexes the
    thread holds, the latest first.  The result is [None] when the thread
    locks a mutex it holds (a [std::mutex] is not recursive) or unlocks a
    mutex other than the latest it took (every lock of server.cpp is a
    [std::lock_guard], released at the end of its scope).  Otherwise it is
    the mutexes held at the end and, for every lock taken while others were
    held, the pairs (held, taken). *)
Fixpoint lock_walk (held : list Mutex) (evs : list Event)
    : option (list (Mutex * Mutex) * list Mutex) :=
  match evs with
  | [] => Some ([], held)
  | EvLock m :: evs' =>
    if decide (m ∈ held) then None
    else '(pairs, held') ← lock_walk (m :: held) evs';
         Some (((λ m', (m', m)) <$> held) ++ pairs, held')
  | EvUnlock m :: evs' =>
    match held with
    | m' :: rest => if decide (m = m') then lock_walk rest evs' else None
    | [] => None
    end
  | _ :: evs' => lock_walk held evs'
  end.

(** The mutexes held when each [send] of a trace is made. *)
Fixpoint held_at_sends (held : list Mutex) (evs : list Event)
    : list (Z * list Mutex) :=
  match evs with
  | [] => []
  | EvLock m :: evs' => held_at_sends (m :: held) evs'
  | EvUnlock m :: evs' => held_at_sends (tail held) evs'
  | EvSend fd _ _ :: evs' => (fd, held) :: held_at_sends held evs'
  | _ :: evs' => held_at_sends held evs'
  end.

(** What the sends of a broadcast do with the mutexes, [clients_mutex]
    being held. *)
Record send_locks (st st' : State * list Z) (evs : list Event) : Prop :=
  mkSendLocks {
  locks_trace : trace st'.1 = trace st.1 ++ evs;
  locks_walk :
    lock_walk [clients_mutex] evs
      = Some (replicate (length (delivered_sends evs))
                        (clients_mutex, metrics_mutex), [clients_mutex]);
  locks_sends :
    held_at_sends [clients_mutex] evs
      = (λ fd, (fd, [clients_mutex])) <$> (sent_to evs).*1.*1
}.

End Server.

(** * Properties *)

(** Closed goals over concrete states: evaluate, then each conjunct is an
    equation between constructors. *)
Ltac evaluate :=
  vm_compute; repeat split; first [reflexivity | discriminate].

Lemma int_wrap_small z : - 2 ^ 31 ≤ z ≤ INT_MAX → int_wrap z = z.
Proof.
  unfold int_wrap, INT_MAX. intros Hz.
  rewrite Z.mod_small; lia.
Qed.

Lemma int_wrap_range z : - 2 ^ 31 ≤ int_wrap z ≤ INT_MAX.
Proof.
  unfold int_wrap, INT_MAX.
  pose proof (Z.mod_pos_bound (z + 2 ^ 31) (2 ^ 32)). lia.
Qed.

(** ** MessageCache *)

Module CacheFacts.
Import Cache.

(** *** Reading and writing slots *)

Lemma entry_at_insert_eq (v : list CacheEntry) i e :
  0 ≤ i < Z.of_nat (length v) →
  entry_at (<[Z.to_nat i := e]> v) i = e.
Proof.
  intros Hi. unfold entry_at.
  rewrite list_lookup_insert_eq by lia. done.
Qed.

Lemma entry_at_insert_ne (v : list CacheEntry) i j e :
  0 ≤ i → 0 ≤ j → i ≠ j →
  entry_at (<[Z.to_nat i := e]> v) j = entry_at v j.
Proof.
  intros Hi Hj Hne. unfold entry_at.
  rewrite list_lookup_insert_ne by lia. done.
Qed.

Lemma entry_at_replicate n i :
  entry_at (replicate n CacheEntry_new) i = CacheEntry_new.
Proof.
  unfold entry_at.
  destruct (replicate n CacheEntry_new !! Z.to_nat i) as [e|] eqn:He; [|done].
  apply lookup_replicate in He as [-> _]. done.
Qed.

Lemma entry_at_clear_lt (v : list CacheEntry) n i :
  0 ≤ i < Z.of_nat n → (n ≤ length v)%nat →
  entry_at ((wipe <$> take n v) ++ drop n v) i = wipe (entry_at v i).
Proof.
  intros Hi Hn. unfold entry_at.
  rewrite lookup_app_l by (rewrite length_fmap, length_take; lia).
  rewrite list_lookup_fmap, lookup_take_lt by lia.
  destruct (v !! Z.to_nat i) eqn:He; [done|].
  apply lookup_ge_None in He. lia.
Qed.

Lemma entry_at_clear_ge (v : list CacheEntry) n i :
  Z.of_nat n ≤ i → (n ≤ length v)%nat →
  entry_at ((wipe <$> take n v) ++ drop n v) i = entry_at v i.
Proof.
  intros Hi Hn. unfold entry_at.
  rewrite lookup_app_r by (rewrite length_fmap, length_take; lia).
  rewrite length_fmap, length_take, lookup_drop.
  do 2 f_equal. lia.
Qed.

(** *** The scan of [find_lru_index] *)

Lemma lru_scan_spec (v : list CacheEntry) (n : nat) :
  lru_of v (Z.of_nat n)
    (foldl (lru_step v) (0, last_access (entry_at v 0)) (seqZ 1 (Z.of_nat n))).
Proof.
  induction n as [|n IH].
  - simpl. split; simpl; try lia; try done.
    + by left.
    + intros j Hj _. by replace j with 0 by lia.
  - rewrite seqZ_S, foldl_snoc.
    set (st := foldl _ _ _) in *. destruct IH as [Hr Hc Hs Hl Hf].
    unfold lru_step.
    destruct (valid (entry_at v (1 + Z.of_nat n))) eqn:Hv; simpl.
    + destruct (Z.ltb_spec (last_access (entry_at v (1 + Z.of_nat n))) st.2)
        as [Hlt|Hge].
      * split; simpl.
        -- lia.
        -- done.
        -- by right.
        -- intros j Hj Hsj. destruct (decide (j = 1 + Z.of_nat n)) as [->|]; [lia|].
           specialize (Hl j ltac:(lia) Hsj). lia.
        -- intros j Hj Hsj. specialize (Hl j ltac:(lia) Hsj). lia.
      * split; [lia|done|done| |done].
        intros j Hj Hsj. destruct (decide (j = 1 + Z.of_nat n)) as [->|]; [lia|].
        apply Hl; [lia|done].
    + split; [lia|done|done| |done].
      intros j Hj Hsj. destruct (decide (j = 1 + Z.of_nat n)) as [->|].
      * destruct Hsj as [?|Hsj]; [lia|congruence].
      * apply Hl; [lia|done].
Qed.

Lemma find_lru_index_spec c :
  0 < size c →
  lru_of (cache c) (size c - 1)
         (find_lru_index c, last_access (entry_at (cache c) (find_lru_index c))).
Proof.
  intros Hs. unfold find_lru_index.
  destruct (Z.eqb_spec (size c) 0) as [|_]; [lia|].
  pose proof (lru_scan_spec (cache c) (Z.to_nat (size c - 1))) as H.
  rewrite Z2Nat.id in H by lia.
  set (st := foldl _ _ _) in *.
  destruct H as [Hr Hc Hsc Hl Hf]. rewrite Hc in Hl, Hf.
  split; simpl; done.
Qed.

(** *** The invariant holds of every reachable cache *)

Lemma new_inv cap c :
  cap ≤ INT_MAX → MessageCache_new cap = Some c → cache_inv c.
Proof.
  unfold MessageCache_new. intros Hmax Hnew.
  destruct (Z.leb_spec cap 0) as [|Hpos]; [done|].
  injection Hnew as <-. split; simpl.
  - lia.
  - rewrite length_replicate. lia.
  - lia.
  - intros i Hi. rewrite entry_at_replicate. simpl. split; [done|lia].
  - intros k i. rewrite lookup_empty. split; [done|lia].
  - intros i. rewrite entry_at_replicate. simpl. unfold INT_MAX. lia.
Qed.

Lemma live_slot_inv c k :
  cache_inv c → live_slot c k = index_map c !! k.
Proof.
  intros Hinv. unfold live_slot.
  destruct (index_map c !! k) as [i|] eqn:Hk; [|done].
  apply (inv_index c Hinv) in Hk as [Hi _].
  assert (valid (entry_at (cache c) i) = true) as ->.
  { apply (inv_valid c Hinv); [pose proof (inv_size c Hinv)|]; lia. }
  destruct (Z.leb_spec 0 i), (Z.ltb_spec i (size c)); simpl; (done || lia).
Qed.

Lemma lookup_inv c k : cache_inv c → cache_inv (lookup c k).2.
Proof.
  intros [Hc Hl Hs Hv Hi Hn]. unfold lookup.
  destruct (live_slot c k); split; simpl; done.
Qed.

Lemma update_access_inv c k now :
  cache_inv c → cache_inv (update_access c k now).
Proof.
  intros Hinv. unfold update_access.
  rewrite live_slot_inv by done.
  destruct (index_map c !! k) as [i|] eqn:Hk; [|done].
  pose proof Hinv as [Hc Hl Hs Hv Hi Hn].
  apply Hi in Hk as [Hri Hid].
  assert (∀ j, 0 ≤ j →
    valid (entry_at (<[Z.to_nat i := touch now (entry_at (cache c) i)]> (cache c)) j)
      = valid (entry_at (cache c) j) ∧
    message_id (entry_at (<[Z.to_nat i := touch now (entry_at (cache c) i)]> (cache c)) j)
      = message_id (entry_at (cache c) j)) as Hsame.
  { intros j Hj. destruct (decide (i = j)) as [<-|Hne].
    - rewrite entry_at_insert_eq by lia. done.
    - rewrite entry_at_insert_ne by lia. done. }
  split; simpl; try done.
  - rewrite length_insert. done.
  - intros j Hj. destruct (Hsame j) as [-> _]; [lia|]. by apply Hv.
  - intros k' j. rewrite Hi. split; intros [Hj Hk']; split; try done.
    + destruct (Hsame j) as [_ ->]; [lia|done].
    + destruct (Hsame j) as [_ <-]; [lia|done].
  - intros j. unfold entry_at.
    destruct (decide (Z.to_nat i = Z.to_nat j)) as [<-|Hne].
    + rewrite list_lookup_insert_eq by lia. simpl. apply int_wrap_range.
    + rewrite list_lookup_insert_ne by done. apply Hn.
Qed.

Lemma clear_inv c : cache_inv c → cache_inv (clear c).
Proof.
  intros [Hc Hl Hs Hv Hi Hn]. unfold clear. split; simpl; try done.
  - rewrite length_app, length_fmap, length_take, length_drop. lia.
  - lia.
  - intros i Hri. split; [|lia]. intros Hval. exfalso.
    destruct (Z.lt_ge_cases i (size c)) as [Hlt|Hge].
    + rewrite entry_at_clear_lt in Hval by lia. done.
    + rewrite entry_at_clear_ge in Hval by lia.
      apply Hv in Hval; lia.
  - intros k i. rewrite lookup_empty. split; [done|lia].
  - intros i. destruct (Z.lt_ge_cases i 0) as [Hneg|Hpos].
    + replace (entry_at _ i) with (entry_at ((wipe <$> take (Z.to_nat (size c)) (cache c))
        ++ drop (Z.to_nat (size c)) (cache c)) 0)
        by (unfold entry_at; do 2 f_equal; lia).
      destruct (Z.lt_ge_cases 0 (size c)) as [Hlt|Hge].
      * rewrite entry_at_clear_lt by lia. apply Hn.
      * rewrite entry_at_clear_ge by lia. apply Hn.
    + destruct (Z.lt_ge_cases i (size c)) as [Hlt|Hge].
      * rewrite entry_at_clear_lt by lia. apply Hn.
      * rewrite entry_at_clear_ge by lia. apply Hn.
Qed.

Lemma find_lru_index_range c :
  0 < size c → 0 ≤ find_lru_index c < size c.
Proof.
  intros Hs. destruct (find_lru_index_spec c Hs) as [Hr _ _ _ _].
  simpl in Hr. lia.
Qed.

(** The two ways [insert] picks its slot: the next free one, or the
    victim of the scan, whose fingerprint leaves the index. *)
Lemma choose_slot_spec c idx sz im :
  cache_inv c → choose_slot c = (idx, sz, im) →
  (size c < capacity c ∧ idx = size c ∧ sz = size c + 1 ∧ im = index_map c) ∨
  (size c = capacity c ∧ idx = find_lru_index c ∧ sz = size c ∧
   0 ≤ idx < size c ∧
   im = delete (message_id (entry_at (cache c) idx)) (index_map c)).
Proof.
  intros [Hc Hl Hs Hv Hi Hn]. unfold choose_slot.
  destruct (Z.ltb_spec (size c) (capacity c)) as [Hlt|Hge]; intros [= <- <- <-].
  - left. rewrite int_wrap_small by (unfold INT_MAX in *; lia). done.
  - right. assert (size c = capacity c) as Hfull by lia.
    pose proof (find_lru_index_range c ltac:(lia)) as Hr.
    assert (valid (entry_at (cache c) (find_lru_index c)) = true) as ->.
    { apply Hv; lia. }
    done.
Qed.

Lemma insert_dup c s x t now v :
  index_map c !! generate_message_id s t = Some v →
  insert c s x t now = (false, c).
Proof. intros Hk. unfold insert. by rewrite Hk. Qed.

Lemma insert_inv c s x t now : cache_inv c → cache_inv (insert c s x t now).2.
Proof.
  intros Hinv. unfold insert.
  destruct (index_map c !! generate_message_id s t) eqn:Hnew; [done|].
  destruct (choose_slot c) as [[idx sz] im] eqn:Hslot. simpl.
  pose proof Hinv as [Hc Hl Hs Hv Hi Hn].
  set (e := mkCacheEntry _ _ _ _ _ _ _).
  assert (∀ i j, - 2 ^ 31 ≤ access_count (entry_at (<[Z.to_nat i := e]> (cache c)) j)
                 ≤ INT_MAX) as Hn'.
  { intros i j. unfold entry_at.
    destruct (decide (Z.to_nat i = Z.to_nat j)) as [Heq|Hne].
    - rewrite Heq. destruct (decide (Z.to_nat j < length (cache c))%nat).
      + rewrite list_lookup_insert_eq by done. simpl. unfold INT_MAX. lia.
      + rewrite list_insert_ge by lia. apply Hn.
    - rewrite list_lookup_insert_ne by done. apply Hn. }
  set (fp := generate_message_id s t) in *.
  assert (∀ j, 0 ≤ j < size c → message_id (entry_at (cache c) j) ≠ fp) as Hfresh.
  { intros j Hj Hid. assert (index_map c !! fp = Some j) as Hin by by apply Hi.
    congruence. }
  destruct (choose_slot_spec c idx sz im Hinv Hslot)
    as [(Hlt & -> & -> & ->)|(Hfull & Hidx & -> & Hr & ->)].
  - split; simpl.
    + done.
    + by rewrite length_insert.
    + lia.
    + intros j Hj. destruct (decide (size c = j)) as [<-|Hne].
      * rewrite entry_at_insert_eq by lia. simpl. split; [lia|done].
      * rewrite entry_at_insert_ne by lia. rewrite Hv by done. lia.
    + intros k j. rewrite lookup_insert. case_decide as Hk.
      * subst k. split.
        -- intros [= <-]. rewrite entry_at_insert_eq by lia. split; [lia|done].
        -- intros [Hj Hid]. destruct (decide (size c = j)) as [<-|Hne]; [done|].
           rewrite entry_at_insert_ne in Hid by lia.
           exfalso. apply (Hfresh j); [lia|done].
      * rewrite Hi. split.
        -- intros [Hj Hid]. rewrite entry_at_insert_ne by lia. split; [lia|done].
        -- intros [Hj Hid]. destruct (decide (size c = j)) as [<-|Hne].
           ++ rewrite entry_at_insert_eq in Hid by lia. done.
           ++ rewrite entry_at_insert_ne in Hid by lia. split; [lia|done].
    + apply Hn'.
  - split; simpl.
    + done.
    + by rewrite length_insert.
    + done.
    + intros j Hj. destruct (decide (idx = j)) as [<-|Hne].
      * rewrite entry_at_insert_eq by lia. simpl. split; [lia|done].
      * rewrite entry_at_insert_ne by lia. by apply Hv.
    + intros k j. rewrite lookup_insert. case_decide as Hk.
      * subst k. split.
        -- intros [= <-]. rewrite entry_at_insert_eq by lia. done.
        -- intros [Hj Hid]. destruct (decide (idx = j)) as [<-|Hne]; [done|].
           rewrite entry_at_insert_ne in Hid by lia.
           exfalso. by apply (Hfresh j).
      * rewrite lookup_delete. case_decide as Hold.
        -- split; [done|]. intros [Hj Hid].
           destruct (decide (idx = j)) as [<-|Hne].
           ++ rewrite entry_at_insert_eq in Hid by lia. done.
           ++ rewrite entry_at_insert_ne in Hid by lia.
              assert (index_map c !! k = Some j) as H1 by by apply Hi.
              assert (index_map c !! k = Some idx) as H2 by by apply Hi.
              congruence.
        -- rewrite Hi. split.
           ++ intros [Hj Hid]. destruct (decide (idx = j)) as [<-|Hne]; [done|].
              rewrite entry_at_insert_ne by lia. done.
           ++ intros [Hj Hid]. destruct (decide (idx = j)) as [<-|Hne].
              ** rewrite entry_at_insert_eq in Hid by lia. done.
              ** rewrite entry_at_insert_ne in Hid by lia. done.
    + apply Hn'.
Qed.

Lemma run_inv c op : cache_inv c → cache_inv (run c op).
Proof.
  destruct op; simpl; eauto using insert_inv, lookup_inv, update_access_inv,
    clear_inv.
Qed.

Lemma reachable_inv c : reachable c → cache_inv c.
Proof.
  induction 1 as [cap c Hmax Hnew|c op _ IH]; eauto using new_inv, run_inv.
Qed.

Lemma reachable_history cap ops c : cap ≤ INT_MAX →
  history cap ops = Some c → reachable c.
Proof.
  unfold history. intros Hmax.
  destruct (MessageCache_new cap) as [c0|] eqn:Hnew; [|done].
  intros [= <-]. assert (reachable c0) as Hc0 by eauto using reach_new.
  clear Hnew. revert c0 Hc0.
  induction ops as [|op ops IH]; intros c0 Hc0; simpl; [done|].
  apply IH. by constructor.
Qed.

Lemma live_at_index c i :
  cache_inv c → live_at c i →
  index_map c !! message_id (entry_at (cache c) i) = Some i.
Proof. intros Hinv [Hi _]. by apply (inv_index c Hinv). Qed.

Lemma index_live_at c k i :
  cache_inv c → index_map c !! k = Some i →
  live_at c i ∧ message_id (entry_at (cache c) i) = k.
Proof.
  intros Hinv Hk. apply (inv_index c Hinv) in Hk as [Hi Hid].
  split; [|done]. split; [done|].
  apply (inv_valid c Hinv); [pose proof (inv_size c Hinv)|]; lia.
Qed.

(** *** Eviction *)

(** C1. When a reachable cache is full, inserting a fingerprint that no live
    entry carries succeeds and evicts exactly one entry: the slot [v] it
    overwrites holds the live entry with the smallest last-access time, the
    lowest such slot on a tie; that entry's fingerprint is the only one to
    leave the index, every other slot is untouched and the size stays at
    capacity. *)
Theorem insert_full_evicts_lru c s x t now :
  reachable c →
  size c = capacity c →
  (∀ j, live_at c j →
        message_id (entry_at (cache c) j) ≠ generate_message_id s t) →
  ∃ v,
    live_at c v ∧
    (∀ j, live_at c j →
          last_access (entry_at (cache c) v) ≤ last_access (entry_at (cache c) j)) ∧
    (∀ j, live_at c j →
          last_access (entry_at (cache c) j) = last_access (entry_at (cache c) v) →
          v ≤ j) ∧
    v = find_lru_index c ∧
    (insert c s x t now).1 = true ∧
    entry_at (cache (insert c s x t now).2) v
      = mkCacheEntry (generate_message_id s t) x s t now 1 true ∧
    (∀ j, 0 ≤ j → j ≠ v →
          entry_at (cache (insert c s x t now).2) j = entry_at (cache c) j) ∧
    size (insert c s x t now).2 = size c ∧
    index_map (insert c s x t now).2
      = <[generate_message_id s t := v]>
          (delete (message_id (entry_at (cache c) v)) (index_map c)) ∧
    (∀ k, is_Some (index_map c !! k) →
          index_map (insert c s x t now).2 !! k = None
          ↔ k = message_id (entry_at (cache c) v)).
Proof.
  intros Hreach Hfull Hfresh.
  pose proof (reachable_inv c Hreach) as Hinv.
  pose proof Hinv as [Hc Hl Hs Hv Hi Hn].
  set (fp := generate_message_id s t) in *.
  assert (index_map c !! fp = None) as Hnew.
  { destruct (index_map c !! fp) as [i|] eqn:Hk; [|done].
    apply index_live_at in Hk as [Hlive Hid]; [|done].
    by destruct (Hfresh i Hlive). }
  destruct (find_lru_index_spec c ltac:(lia)) as [Hr _ _ Hleast Hfirst].
  simpl in Hr, Hleast, Hfirst.
  set (v := find_lru_index c) in *.
  assert (live_at c v) as Hlv.
  { split; [lia|]. apply Hv; lia. }
  assert (choose_slot c
          = (v, size c, delete (message_id (entry_at (cache c) v)) (index_map c)))
    as Hslot.
  { destruct (choose_slot c) as [[idx sz] im] eqn:Hcs.
    destruct (choose_slot_spec c idx sz im Hinv Hcs)
      as [(Hlt & _)|(_ & -> & -> & _ & ->)]; [lia|done]. }
  exists v. unfold insert. fold fp. rewrite Hnew, Hslot. simpl.
  split_and!; try done.
  - intros j [Hj Hvj]. apply Hleast; [lia|by right].
  - intros j [Hj Hvj] Heq. destruct (Z.le_gt_cases v j) as [|Hlt]; [done|].
    specialize (Hfirst j ltac:(lia) ltac:(by right)). lia.
  - rewrite entry_at_insert_eq by lia. done.
  - intros j Hj Hne. rewrite entry_at_insert_ne by lia. done.
  - intros k [i Hk]. rewrite lookup_insert. case_decide as Hfp; [congruence|].
    rewrite lookup_delete. case_decide as Hold.
    + split; [done|]. intros ->. congruence.
    + rewrite Hk. split; [done|]. intros ->. done.
Qed.

Lemma demo_full_reachable : reachable demo_full.
Proof. do 2 apply reach_run. by apply (reach_new 2). Qed.

Lemma insert_full_evicts_lru_witness :
  ∃ v, v = find_lru_index demo_full ∧
       size (insert demo_full "carol" "hey" 102 110).2 = 2 ∧
       index_map (insert demo_full "carol" "hey" 102 110).2 !! "alice_100"
         = None.
Proof.
  destruct (insert_full_evicts_lru demo_full "carol" "hey" 102 110)
    as (v & Hlive & _ & _ & Hv & _ & _ & _ & Hsize & _ & Hgone).
  - apply demo_full_reachable.
  - reflexivity.
  - intros j [Hj _]. change (size demo_full) with 2 in Hj.
    assert (j = 0 ∨ j = 1) as [-> | ->] by lia; vm_compute; discriminate.
  - exists v. split_and!; [done|by rewrite Hsize|].
    apply Hgone; [by exists 0|by subst v].
Defined.

(** *** Duplicates *)

Lemma insert_live_dup c s x t now i :
  cache_inv c → live_at c i →
  message_id (entry_at (cache c) i) = generate_message_id s t →
  insert c s x t now = (false, c).
Proof.
  intros Hinv Hlive Hid. apply (insert_dup _ _ _ _ _ i).
  rewrite <- Hid. by apply live_at_index.
Qed.

(** After any call of [insert], the fingerprint it was given is live. *)
Lemma insert_makes_live c s x t now :
  cache_inv c →
  is_Some (index_map (insert c s x t now).2 !! generate_message_id s t).
Proof.
  intros Hinv. unfold insert.
  destruct (index_map c !! generate_message_id s t) as [i|] eqn:Hk.
  - simpl. by rewrite Hk.
  - destruct (choose_slot c) as [[idx sz] im]. simpl.
    rewrite lookup_insert_eq. done.
Qed.

(** C2. In a reachable cache that holds a live entry with the fingerprint of
    (sender, timestamp), [insert] of that pair returns false and returns the
    cache it was given: size, both counters, the index and every entry,
    with its last-access time and access count, are the same. *)
Theorem insert_duplicate_no_mutation c s x t now :
  reachable c →
  (∃ i, live_at c i ∧
        message_id (entry_at (cache c) i) = generate_message_id s t) →
  insert c s x t now = (false, c) ∧
  size (insert c s x t now).2 = size c ∧
  hits (insert c s x t now).2 = hits c ∧
  misses (insert c s x t now).2 = misses c ∧
  index_map (insert c s x t now).2 = index_map c ∧
  cache (insert c s x t now).2 = cache c.
Proof.
  intros Hreach (i & Hlive & Hid).
  rewrite (insert_live_dup c s x t now i) by eauto using reachable_inv.
  done.
Qed.

Lemma insert_duplicate_no_mutation_witness :
  insert demo_full "alice" "again" 100 200 = (false, demo_full).
Proof.
  apply (insert_duplicate_no_mutation demo_full "alice" "again" 100 200).
  - apply demo_full_reachable.
  - exists 0. evaluate.
Defined.

(** The same pair inserted twice in a row: the second call is rejected,
    whatever the first one did. *)
Lemma insert_twice c s x t now x' now' :
  reachable c →
  insert (insert c s x t now).2 s x' t now' = (false, (insert c s x t now).2).
Proof.
  intros Hreach.
  destruct (insert_makes_live c s x t now) as [i Hi];
    eauto using reachable_inv, insert_dup.
Qed.

(** *** The invariant of the specification *)

Lemma run_capacity c op : capacity (run c op) = capacity c.
Proof.
  destruct op as [s x t now|k|k now|]; simpl; try done.
  - unfold insert. destruct (index_map c !! _); [done|].
    by destruct (choose_slot c) as [[idx sz] im].
  - unfold lookup. by destruct (live_slot c k).
  - unfold update_access. by destruct (live_slot c k).
Qed.

Lemma foldl_run_capacity ops c : capacity (foldl run c ops) = capacity c.
Proof.
  revert c. induction ops as [|op ops IH]; intros c; simpl; [done|].
  by rewrite IH, run_capacity.
Qed.

(** C3. After any sequence of calls on a cache constructed with a positive
    capacity, the size is at most the capacity, every live entry is indexed
    under its fingerprint at its own slot, and every fingerprint of the index
    leads to a live slot that holds it. *)
Theorem size_bounded_index_consistent cap ops c :
  cap ≤ INT_MAX →
  history cap ops = Some c →
  0 < capacity c ∧ capacity c = cap ∧
  0 ≤ size c ≤ capacity c ∧
  (∀ i, live_at c i →
        index_map c !! message_id (entry_at (cache c) i) = Some i) ∧
  (∀ k i, index_map c !! k = Some i →
          live_at c i ∧ message_id (entry_at (cache c) i) = k).
Proof.
  intros Hmax Hhist.
  pose proof (reachable_inv c (reachable_history cap ops c Hmax Hhist)) as Hinv.
  split_and!.
  - apply (inv_cap c Hinv).
  - revert Hhist. unfold history, MessageCache_new.
    destruct (cap <=? 0); [done|]. intros [= <-].
    by rewrite foldl_run_capacity.
  - apply (inv_size c Hinv).
  - apply (inv_size c Hinv).
  - intros i. by apply live_at_index.
  - intros k i. by apply index_live_at.
Qed.

Lemma size_bounded_index_consistent_witness :
  0 ≤ size demo_full ≤ 2 ∧
  index_map demo_full !! "bob_101" = Some 1.
Proof.
  destruct (size_bounded_index_consistent 2
              [OpInsert "alice" "hi" 100 100; OpInsert "bob" "yo" 101 105]
              demo_full) as (_ & _ & Hsize & Hidx & _).
  - vm_compute. discriminate.
  - reflexivity.
  - split; [exact Hsize|]. apply (Hidx 1). evaluate.
Defined.

(** *** Recency *)

Lemma entry_of_inv c k :
  cache_inv c → entry_of c k = entry_at (cache c) <$> index_map c !! k.
Proof.
  intros Hinv. unfold entry_of. rewrite live_slot_inv by done.
  by destruct (index_map c !! k).
Qed.

(** [lookup] writes one counter and nothing else, in any state. *)
Lemma lookup_frame c k :
  cache (lookup c k).2 = cache c ∧
  capacity (lookup c k).2 = capacity c ∧
  size (lookup c k).2 = size c ∧
  index_map (lookup c k).2 = index_map c ∧
  (lookup c k).1 = content <$> entry_of c k ∧
  (∀ k', entry_of (lookup c k).2 k' = entry_of c k') ∧
  (is_Some (entry_of c k) ∧
   hits (lookup c k).2 = uint64_wrap (hits c + 1) ∧
   misses (lookup c k).2 = misses c
   ∨
   entry_of c k = None ∧
   hits (lookup c k).2 = hits c ∧
   misses (lookup c k).2 = uint64_wrap (misses c + 1)).
Proof.
  unfold lookup, entry_of. destruct (live_slot c k) as [i|] eqn:Hk; simpl;
    split_and!; try done; [left|right]; done.
Qed.

Lemma update_access_live c k now i :
  cache_inv c → index_map c !! k = Some i →
  update_access c k now =
    mkMessageCache
      (<[Z.to_nat i := touch now (entry_at (cache c) i)]> (cache c))
      (capacity c) (head c) (tail c) (size c) (index_map c)
      (hits c) (misses c).
Proof.
  intros Hinv Hk. unfold update_access. by rewrite live_slot_inv, Hk.
Qed.

Lemma update_access_entry_of c k now k' :
  cache_inv c →
  entry_of (update_access c k now) k' =
    if decide (k' = k) then touch now <$> entry_of c k' else entry_of c k'.
Proof.
  intros Hinv. pose proof (update_access_inv c k now Hinv) as Hinv'.
  rewrite !entry_of_inv by done.
  destruct (index_map c !! k) as [i|] eqn:Hk.
  - rewrite (update_access_live c k now i) by done. simpl.
    apply (inv_index c Hinv) in Hk as Hi. destruct Hi as [Hi Hid].
    pose proof (inv_size c Hinv). pose proof (inv_len c Hinv).
    case_decide as Hkk.
    + subst k'. rewrite Hk. simpl. rewrite entry_at_insert_eq by lia. done.
    + destruct (index_map c !! k') as [j|] eqn:Hk'; [|done]. simpl.
      apply (inv_index c Hinv) in Hk' as [Hj Hjd].
      rewrite entry_at_insert_ne; [done|lia|lia|]. congruence.
  - assert (update_access c k now = c) as ->.
    { unfold update_access. by rewrite live_slot_inv, Hk. }
    case_decide as Hkk; [|done]. subst k'. by rewrite Hk.
Qed.

Lemma insert_entry_of c s x t now k e :
  cache_inv c → entry_of c k = Some e →
  entry_of (insert c s x t now).2 k = None ∨
  entry_of (insert c s x t now).2 k = Some e.
Proof.
  intros Hinv He. pose proof (insert_inv c s x t now Hinv) as Hinv'.
  rewrite entry_of_inv in He |- * by done. revert Hinv'. unfold insert.
  destruct (index_map c !! generate_message_id s t) eqn:Hnew;
    [intros _; by right|].
  destruct (choose_slot c) as [[idx sz] im] eqn:Hslot. simpl. intros Hinv'.
  destruct (index_map c !! k) as [i|] eqn:Hk; [|done].
  injection He as <-.
  apply (inv_index c Hinv) in Hk as Hi. destruct Hi as [Hi Hid].
  rewrite lookup_insert. case_decide as Hfp; [congruence|].
  destruct (choose_slot_spec c idx sz im Hinv Hslot)
    as [(Hlt & -> & -> & ->)|(Hfull & Hidx & -> & Hr & ->)].
  - right. rewrite Hk. simpl. rewrite entry_at_insert_ne by lia. done.
  - rewrite lookup_delete. case_decide as Hold; [by left|right].
    rewrite Hk. simpl. rewrite entry_at_insert_ne; [done|lia|lia|].
    congruence.
Qed.

(** C4. [lookup] leaves the entries (every field of every slot), the size,
    the capacity and the index as they are and adds one to exactly one of
    the two counters. In a reachable cache, [update_access] on a live
    fingerprint sets that entry's last-access time to the clock and adds one
    to its access count, and changes nothing else; on a fingerprint that is
    not live it changes nothing; and no other call changes an entry that is
    live before and after it. *)
Theorem lookup_frame_update_access_only c k :
  (cache (lookup c k).2 = cache c ∧
   capacity (lookup c k).2 = capacity c ∧
   size (lookup c k).2 = size c ∧
   index_map (lookup c k).2 = index_map c ∧
   (∀ k', entry_of (lookup c k).2 k' = entry_of c k') ∧
   (is_Some (entry_of c k) ∧
    hits (lookup c k).2 = uint64_wrap (hits c + 1) ∧
    misses (lookup c k).2 = misses c
    ∨
    entry_of c k = None ∧
    hits (lookup c k).2 = hits c ∧
    misses (lookup c k).2 = uint64_wrap (misses c + 1))) ∧
  (reachable c →
   (∀ now e, entry_of c k = Some e →
      ∃ e', entry_of (update_access c k now) k = Some e' ∧
            last_access e' = now ∧
            access_count e' = int_wrap (access_count e + 1) ∧
            (access_count e < INT_MAX → access_count e' = access_count e + 1) ∧
            message_id e' = message_id e ∧ content e' = content e ∧
            sender e' = sender e ∧ timestamp e' = timestamp e ∧
            valid e' = valid e) ∧
   (∀ now k', k' ≠ k →
      entry_of (update_access c k now) k' = entry_of c k') ∧
   (∀ now,
      size (update_access c k now) = size c ∧
      capacity (update_access c k now) = capacity c ∧
      index_map (update_access c k now) = index_map c ∧
      hits (update_access c k now) = hits c ∧
      misses (update_access c k now) = misses c) ∧
   (∀ now, entry_of c k = None → update_access c k now = c) ∧
   (∀ op e e', not_update_access op →
      entry_of c k = Some e → entry_of (run c op) k = Some e' → e' = e)).
Proof.
  split.
  { destruct (lookup_frame c k) as (? & ? & ? & ? & ? & ? & ?). done. }
  intros Hreach. pose proof (reachable_inv c Hreach) as Hinv.
  split_and!.
  - intros now e He. exists (touch now e).
    rewrite update_access_entry_of, decide_True, He by done. simpl.
    split_and!; try done.
    intros Hlt. apply int_wrap_small.
    rewrite entry_of_inv in He by done.
    destruct (index_map c !! k) as [i|]; [|done]. injection He as <-.
    pose proof (inv_count c Hinv i). lia.
  - intros now k' Hne. by rewrite update_access_entry_of, decide_False.
  - intros now. unfold update_access. by destruct (live_slot c k).
  - intros now. unfold entry_of, update_access.
    by destruct (live_slot c k).
  - intros op e e' Hop He He'. destruct op as [s x t now|k0|k0 now|]; simpl in *.
    + destruct (insert_entry_of c s x t now k e Hinv He); congruence.
    + destruct (lookup_frame c k0) as (_ & _ & _ & _ & _ & Hsame & _).
      rewrite Hsame in He'. congruence.
    + done.
    + unfold entry_of, live_slot, clear in He'. simpl in He'.
      by rewrite lookup_empty in He'.
Qed.

Lemma lookup_frame_update_access_only_witness :
  cache (lookup demo_full "alice_100").2 = cache demo_full ∧
  ∃ e', entry_of (update_access demo_full "alice_100" 300) "alice_100"
          = Some e' ∧
        last_access e' = 300 ∧ access_count e' = 2.
Proof.
  destruct (lookup_frame_update_access_only demo_full "alice_100")
    as [(Hcache & _) Hreach].
  split; [exact Hcache|].
  destruct (Hreach demo_full_reachable) as (Htouch & _).
  destruct (Htouch 300 (mkCacheEntry "alice_100" "hi" "alice" 100 100 1 true))
    as (e' & He' & Hla & _ & Hcount & _).
  - reflexivity.
  - exists e'. split_and!; [done|done|].
    rewrite Hcount; [reflexivity|]. evaluate.
Defined.

(** *** Fingerprints *)

Lemma pretty_N_go_no_underscore x s :
  (∀ a b, s ≠ a +:+ "_" +:+ b) →
  ∀ a b, pretty_N_go x s ≠ a +:+ "_" +:+ b.
Proof.
  revert s. induction (N.lt_wf_0 x) as [x _ IH]; intros s Hs.
  assert (x = 0 ∨ 0 < x)%N as [->|?] by lia.
  - by rewrite pretty_N_go_0.
  - rewrite pretty_N_go_step by done. apply IH.
    { by apply N.div_lt. }
    intros [|c a] b; simpl.
    + unfold pretty_N_char. by repeat case_match.
    + intros [= _ Hs']. by eapply Hs.
Qed.

Lemma pretty_Z_no_underscore (z : Z) a b : pretty z ≠ a +:+ "_" +:+ b.
Proof.
  assert (∀ a b, EmptyString ≠ a +:+ "_" +:+ b) as Hnil by (by intros [|??] ?).
  assert (∀ (n : N) a b, pretty n ≠ a +:+ "_" +:+ b) as HN.
  { intros n a' b'. unfold pretty, pretty_N. case_decide.
    - destruct a' as [|c [|??]]; simpl; try done.
    - by apply pretty_N_go_no_underscore. }
  destruct z as [|p|p]; unfold pretty, pretty_Z.
  - destruct a as [|c [|??]]; simpl; done.
  - apply HN.
  - destruct a as [|c a]; simpl; [done|].
    intros [= _ H]. by eapply HN.
Qed.

Lemma generate_message_id_inj_aux s1 s2 (d1 d2 : string) :
  (∀ a b, d1 ≠ a +:+ "_" +:+ b) → (∀ a b, d2 ≠ a +:+ "_" +:+ b) →
  s1 +:+ "_" +:+ d1 = s2 +:+ "_" +:+ d2 → s1 = s2 ∧ d1 = d2.
Proof.
  intros H1 H2. revert s2. induction s1 as [|c s1 IH]; intros [|c' s2]; simpl.
  - by intros [= ?].
  - intros [= ? Hd]. by destruct (H1 s2 d2).
  - intros [= ? Hd]. by destruct (H2 s1 d1).
  - intros [= ? H]. apply IH in H as [? ?]. by subst.
Qed.

(** X1. Two messages have the same fingerprint only when they have the same
    sender and the same timestamp: the decimal timestamp holds no
    underscore, so the last underscore of a fingerprint is the separator. *)
Theorem generate_message_id_inj sender1 timestamp1 sender2 timestamp2 :
  generate_message_id sender1 timestamp1
    = generate_message_id sender2 timestamp2 ↔
  sender1 = sender2 ∧ timestamp1 = timestamp2.
Proof.
  split; [|by intros [-> ->]].
  unfold generate_message_id. intros H.
  apply generate_message_id_inj_aux in H as [-> H];
    [|apply pretty_Z_no_underscore..].
  split; [done|]. by apply (inj pretty).
Qed.

(** *** What one insert does *)

(** An accepted [insert], spelled out: the slot written, and what is left
    as it was. *)
Lemma insert_new_spec c s x t now :
  cache_inv c → index_map c !! generate_message_id s t = None →
  ∃ idx,
    insert c s x t now =
      (true,
       mkMessageCache
         (<[Z.to_nat idx := mkCacheEntry (generate_message_id s t) x s t now
                                         1 true]> (cache c))
         (capacity c) (head c) (tail c)
         (if decide (size c < capacity c) then size c + 1 else size c)
         (<[generate_message_id s t := idx]>
            (if decide (size c < capacity c) then index_map c
             else delete (message_id (entry_at (cache c) idx)) (index_map c)))
         (hits c) (misses c)) ∧
    0 ≤ idx < capacity c ∧
    idx = (if decide (size c < capacity c) then size c else find_lru_index c) ∧
    (size c < capacity c ∨ size c = capacity c ∧ 0 ≤ idx < size c).
Proof.
  intros Hinv Hnew. unfold insert. rewrite Hnew.
  destruct (choose_slot c) as [[idx sz] im] eqn:Hslot.
  pose proof Hinv as [Hc Hl Hs Hv Hi Hn].
  destruct (choose_slot_spec c idx sz im Hinv Hslot)
    as [(Hlt & -> & -> & ->)|(Hfull & Hidx & -> & Hr & ->)].
  - exists (size c). rewrite !decide_True by done. split_and!; auto with lia.
  - exists idx. rewrite !decide_False by lia. split_and!; auto with lia.
Qed.

Lemma insert_new_entry_at c s x t now idx j :
  cache_inv c → 0 ≤ idx < capacity c → 0 ≤ j →
  entry_at (<[Z.to_nat idx := mkCacheEntry (generate_message_id s t) x s t now
                                            1 true]> (cache c)) j
  = if decide (j = idx)
    then mkCacheEntry (generate_message_id s t) x s t now 1 true
    else entry_at (cache c) j.
Proof.
  intros [Hc Hl Hs Hv Hi Hn] Hidx Hj. case_decide as Heq.
  - subst. by rewrite entry_at_insert_eq by lia.
  - by rewrite entry_at_insert_ne by lia.
Qed.

Lemma insert_result c s x t now :
  (insert c s x t now).1
    = bool_decide (index_map c !! generate_message_id s t = None).
Proof.
  unfold insert. destruct (index_map c !! _); [done|].
  by destruct (choose_slot c) as [[??]?].
Qed.

Lemma lookup_result c k :
  cache_inv c →
  (lookup c k).1 = (λ i, content (entry_at (cache c) i)) <$> index_map c !! k.
Proof.
  intros Hinv. destruct (lookup_frame c k) as (_ & _ & _ & _ & -> & _).
  rewrite entry_of_inv by done. by destruct (index_map c !! k).
Qed.

(** X2. Round trip: a message [insert] has accepted is found by [lookup]
    under its fingerprint, with the content inserted, and the lookup counts
    as one hit.  A second [insert] for the same sender and timestamp is
    refused whatever its content, and [lookup] still returns the first
    content. *)
Theorem insert_lookup_round_trip c sender content timestamp now content' now' :
  reachable c →
  (insert c sender content timestamp now).1 = true →
  let c1 := (insert c sender content timestamp now).2 in
  let id := generate_message_id sender timestamp in
  (lookup c1 id).1 = Some content ∧
  get_hits (lookup c1 id).2 = uint64_wrap (get_hits c + 1) ∧
  get_misses (lookup c1 id).2 = get_misses c ∧
  insert c1 sender content' timestamp now' = (false, c1) ∧
  (lookup (insert c1 sender content' timestamp now').2 id).1 = Some content.
Proof.
  intros Hr Hok c1 id. pose proof (reachable_inv c Hr) as Hinv.
  rewrite insert_result in Hok. apply bool_decide_eq_true in Hok.
  destruct (insert_new_spec c sender content timestamp now Hinv Hok)
    as (idx & Hins & Hidx & _ & _).
  assert (cache_inv c1) as Hinv1 by by apply insert_inv.
  assert (index_map c1 !! id = Some idx) as Hid.
  { unfold c1. rewrite Hins. simpl. apply lookup_insert_eq. }
  assert (entry_at (cache c1) idx
          = mkCacheEntry id content sender timestamp now 1 true) as He.
  { unfold c1. rewrite Hins. simpl.
    rewrite insert_new_entry_at by (done || lia). by rewrite decide_True. }
  assert ((lookup c1 id).1 = Some content) as Hl.
  { rewrite lookup_result, Hid by done. simpl. by rewrite He. }
  assert (insert c1 sender content' timestamp now' = (false, c1)) as Hdup
    by by eapply insert_dup.
  split_and!; [done|..|done|by rewrite Hdup].
  - destruct (lookup_frame c1 id) as (_ & _ & _ & _ & Hres & _ & [(_ & H & _)|(Hn & _)]).
    + unfold get_hits. rewrite H. unfold c1. by rewrite Hins.
    + rewrite Hn in Hres. simpl in Hres. congruence.
  - destruct (lookup_frame c1 id) as (_ & _ & _ & _ & Hres & _ & [(_ & _ & H)|(Hn & _)]).
    + unfold get_misses. rewrite H. unfold c1. by rewrite Hins.
    + rewrite Hn in Hres. simpl in Hres. congruence.
Qed.

Lemma call_run c op : (call c op).2 = run c op.
Proof.
  destruct op; simpl; try done.
  - by destruct (insert _ _ _ _ _).
  - by destruct (lookup _ _).
Qed.

Lemma call_inv c op : cache_inv c → cache_inv (call c op).2.
Proof. rewrite call_run. apply run_inv. Qed.

Lemma calls_cons c op ops :
  calls c (op :: ops) =
    ((call c op).1 :: (calls (call c op).2 ops).1, (calls (call c op).2 ops).2).
Proof.
  simpl. destruct (call c op) as [r c1]. simpl.
  by destruct (calls c1 ops).
Qed.

Lemma count_cons f r rs :
  count f (r :: rs) = (if f r then 1 else 0) + count f rs.
Proof.
  unfold count. rewrite filter_cons.
  case_decide as H; destruct (f r); try done; simpl; lia.
Qed.

Lemma count_nonneg f rs : 0 ≤ count f rs.
Proof. unfold count. lia. Qed.

(** X3. While the cache is not full [insert] evicts nothing: the size grows
    by one and every entry that could be reached before is still reached,
    unchanged. *)
Theorem insert_below_capacity_keeps_all c sender content timestamp now :
  reachable c →
  size c < capacity c →
  (insert c sender content timestamp now).1 = true →
  get_size (insert c sender content timestamp now).2 = get_size c + 1 ∧
  (∀ k e, entry_of c k = Some e →
          entry_of (insert c sender content timestamp now).2 k = Some e) ∧
  (∀ k v, (lookup c k).1 = Some v →
          (lookup (insert c sender content timestamp now).2 k).1 = Some v).
Proof.
  intros Hr Hlt Hok. pose proof (reachable_inv c Hr) as Hinv.
  rewrite insert_result in Hok. apply bool_decide_eq_true in Hok.
  destruct (insert_new_spec c sender content timestamp now Hinv Hok)
    as (idx & Hins & Hidx & Hslot & _).
  rewrite !decide_True in Hins by done. rewrite decide_True in Hslot by done.
  assert (cache_inv (insert c sender content timestamp now).2) as Hinv1
    by by apply insert_inv.
  assert (∀ k e, entry_of c k = Some e →
            entry_of (insert c sender content timestamp now).2 k = Some e) as Hkeep.
  { intros k e. rewrite !entry_of_inv by done. rewrite Hins. simpl.
    destruct (index_map c !! k) as [i|] eqn:Hk; [|done]. intros [= <-].
    assert (k ≠ generate_message_id sender timestamp) by congruence.
    rewrite lookup_insert_ne, Hk by done. simpl.
    destruct (index_live_at c k i Hinv Hk) as [[Hi _] _].
    rewrite insert_new_entry_at by (done || lia).
    rewrite decide_False by lia. done. }
  split_and!.
  - rewrite Hins. done.
  - done.
  - intros k v. destruct (lookup_frame c k) as (_ & _ & _ & _ & -> & _).
    destruct (lookup_frame (insert c sender content timestamp now).2 k)
      as (_ & _ & _ & _ & -> & _).
    destruct (entry_of c k) as [e|] eqn:He; [|done].
    by rewrite (Hkeep k e He).
Qed.

(** X4. No two slots in use hold the same fingerprint, and the index has
    one key for every slot in use. *)
Theorem live_fingerprints_distinct c :
  reachable c →
  (∀ i j, live_at c i → live_at c j →
          message_id (entry_at (cache c) i) = message_id (entry_at (cache c) j) →
          i = j) ∧
  Z.of_nat (stdpp.base.size (index_map c)) = get_size c.
Proof.
  intros Hr. pose proof (reachable_inv c Hr) as Hinv. split.
  - intros i j Hi Hj Heq.
    pose proof (live_at_index c i Hinv Hi) as H1.
    pose proof (live_at_index c j Hinv Hj) as H2.
    rewrite Heq in H1. congruence.
  - destruct Hinv as [Hc Hl Hs Hv Hi Hn]. unfold get_size.
    set (f := λ i : Z, (message_id (entry_at (cache c) i), i)).
    assert (index_map c = list_to_map (f <$> seqZ 0 (size c))) as ->.
    { apply map_eq. intros k. apply option_eq. intros i.
      rewrite Hi, <- elem_of_list_to_map.
      - rewrite list_elem_of_fmap. split.
        + intros [Hr' <-]. exists i. split; [done|]. apply elem_of_seqZ. lia.
        + intros (j & [= -> ->] & Hj%elem_of_seqZ). split; [lia|done].
      - rewrite <- list_fmap_compose. apply NoDup_fmap_2_strong; [|apply NoDup_seqZ].
        intros i' j' Hi'%elem_of_seqZ Hj'%elem_of_seqZ Heq. simpl in Heq.
        assert (index_map c !! message_id (entry_at (cache c) i') = Some i')
          as H1 by (apply Hi; split; [lia|done]).
        assert (index_map c !! message_id (entry_at (cache c) j') = Some j')
          as H2 by (apply Hi; split; [lia|done]).
        rewrite Heq in H1. congruence. }
    rewrite map_size_list_to_map.
    + rewrite length_fmap, length_seqZ. lia.
    + rewrite <- list_fmap_compose. apply NoDup_fmap_2_strong; [|apply NoDup_seqZ].
      intros i' j' Hi'%elem_of_seqZ Hj'%elem_of_seqZ Heq. simpl in Heq.
      assert (index_map c !! message_id (entry_at (cache c) i') = Some i')
        as H1 by (apply Hi; split; [lia|done]).
      assert (index_map c !! message_id (entry_at (cache c) j') = Some j')
        as H2 by (apply Hi; split; [lia|done]).
      rewrite Heq in H1. congruence.
Qed.

(** *** Sequences of calls *)

Lemma call_size c op :
  cache_inv c → not_clear op →
  size (call c op).2
    = Z.min (capacity c) (size c + if is_inserted (call c op).1 then 1 else 0).
Proof.
  intros Hinv Hop. pose proof Hinv as [Hc Hl Hs Hv Hi Hn].
  destruct op as [s x t now|k|k now|]; simpl; [| | |done].
  - destruct (index_map c !! generate_message_id s t) as [v|] eqn:Hk.
    + rewrite (insert_dup c s x t now v Hk). simpl. lia.
    + destruct (insert_new_spec c s x t now Hinv Hk) as (idx & -> & _).
      simpl. case_decide; lia.
  - destruct (lookup_frame c k) as (_ & _ & Hsz & _).
    destruct (lookup c k) as [r c1]. simpl in *. lia.
  - unfold update_access. destruct (live_slot c k); simpl; lia.
Qed.

Lemma call_capacity c op : capacity (call c op).2 = capacity c.
Proof. rewrite call_run. apply run_capacity. Qed.

(** X5. Without [clear], the size is the number of accepted inserts, capped
    at the capacity: it never shrinks, and lookups and [update_access] leave
    it alone. *)
Theorem size_counts_accepted_inserts c ops :
  reachable c →
  Forall not_clear ops →
  get_size (calls c ops).2
    = Z.min (get_capacity c)
            (get_size c + count is_inserted (calls c ops).1).
Proof.
  intros Hr%reachable_inv. unfold get_size, get_capacity.
  revert c Hr. induction ops as [|op ops IH]; intros c Hinv Hops.
  - simpl. destruct Hinv. unfold count. simpl. lia.
  - apply Forall_cons in Hops as [Hop Hops].
    rewrite calls_cons. cbn [fst snd].
    rewrite IH by (done || by apply call_inv).
    rewrite call_capacity, call_size, count_cons by done.
    pose proof (count_nonneg is_inserted (calls (call c op).2 ops).1).
    destruct Hinv. destruct (is_inserted _); lia.
Qed.

Lemma call_counters c op :
  not_clear op →
  hits (call c op).2
    = (if is_hit (call c op).1 then uint64_wrap (hits c + 1) else hits c) ∧
  misses (call c op).2
    = (if is_miss (call c op).1 then uint64_wrap (misses c + 1) else misses c).
Proof.
  intros Hop. destruct op as [s x t now|k|k now|]; simpl; [| | |done].
  - unfold insert. destruct (index_map c !! _); [done|].
    by destruct (choose_slot c) as [[??]?].
  - unfold lookup. by destruct (live_slot c k).
  - unfold update_access. by destruct (live_slot c k).
Qed.

Lemma uint64_wrap_add a b : uint64_wrap (uint64_wrap a + b) = uint64_wrap (a + b).
Proof. unfold uint64_wrap. by rewrite Zplus_mod_idemp_l. Qed.

Lemma calls_counters c ops :
  Forall not_clear ops →
  uint64_wrap (hits (calls c ops).2)
    = uint64_wrap (hits c + count is_hit (calls c ops).1) ∧
  uint64_wrap (misses (calls c ops).2)
    = uint64_wrap (misses c + count is_miss (calls c ops).1) ∧
  (ops ≠ [] ∨ hits (calls c ops).2 = hits c ∧ misses (calls c ops).2 = misses c).
Proof.
  revert c. induction ops as [|op ops IH]; intros c Hops.
  - simpl. unfold count. simpl. rewrite !Z.add_0_r. auto.
  - apply Forall_cons in Hops as [Hop Hops].
    rewrite calls_cons. cbn [fst snd].
    destruct (IH (call c op).2 Hops) as (Hh & Hm & _).
    destruct (call_counters c op Hop) as [Hh1 Hm1].
    rewrite Hh, Hm, Hh1, Hm1, !count_cons.
    split_and!; [| |by left].
    + destruct (is_hit _); [|done].
      rewrite uint64_wrap_add. f_equal. lia.
    + destruct (is_miss _); [|done].
      rewrite uint64_wrap_add. f_equal. lia.
Qed.

Lemma uint64_wrap_range z : 0 ≤ uint64_wrap z < 2 ^ 64.
Proof. unfold uint64_wrap. apply Z.mod_pos_bound. lia. Qed.

Lemma uint64_wrap_small z : 0 ≤ z < 2 ^ 64 → uint64_wrap z = z.
Proof. unfold uint64_wrap. apply Z.mod_small. Qed.

Lemma calls_counters_range c ops :
  0 ≤ hits c < 2 ^ 64 → 0 ≤ misses c < 2 ^ 64 →
  0 ≤ hits (calls c ops).2 < 2 ^ 64 ∧ 0 ≤ misses (calls c ops).2 < 2 ^ 64.
Proof.
  revert c. induction ops as [|op ops IH]; intros c Hh Hm; [done|].
  rewrite calls_cons. cbn [snd]. apply IH.
  - destruct op as [s x t now|k|k now|]; simpl.
    + unfold insert. destruct (index_map c !! _); [done|].
      by destruct (choose_slot c) as [[??]?].
    + unfold lookup. destruct (live_slot c k); simpl;
        [apply uint64_wrap_range|done].
    + unfold update_access. by destruct (live_slot c k).
    + lia.
  - destruct op as [s x t now|k|k now|]; simpl.
    + unfold insert. destruct (index_map c !! _); [done|].
      by destruct (choose_slot c) as [[??]?].
    + unfold lookup. destruct (live_slot c k); simpl;
        [done|apply uint64_wrap_range].
    + unfold update_access. by destruct (live_slot c k).
    + lia.
Qed.

(** X6. The two counters count the lookups: starting from counters at zero
    (a new cache, or one just cleared) and without a further [clear],
    [get_hits] is the number of lookups that found their message and
    [get_misses] the number that did not, both modulo 2^64; [insert] and
    [update_access] count as neither. *)
Theorem counters_count_lookups c ops :
  get_hits c = 0 → get_misses c = 0 →
  Forall not_clear ops →
  get_hits (calls c ops).2 = uint64_wrap (count is_hit (calls c ops).1) ∧
  get_misses (calls c ops).2 = uint64_wrap (count is_miss (calls c ops).1).
Proof.
  unfold get_hits, get_misses. intros Hh Hm Hops.
  destruct (calls_counters c ops Hops) as (Hh' & Hm' & _).
  destruct (calls_counters_range c ops) as [Rh Rm]; [lia..|].
  rewrite Hh, Hm, !Z.add_0_l in *.
  rewrite <- Hh', <- Hm', !uint64_wrap_small by done. done.
Qed.

(** *** clear *)

Lemma lru_fold_ext v1 v2 st l :
  (∀ i, i ∈ l → entry_at v1 i = entry_at v2 i) →
  foldl (lru_step v1) st l = foldl (lru_step v2) st l.
Proof.
  revert st. induction l as [|i l IH]; intros st H; [done|].
  simpl. unfold lru_step at 2 4. rewrite (H i) by left.
  apply IH. intros j Hj. apply H. by right.
Qed.

Lemma same_view_lru c1 c2 :
  same_view c1 c2 → find_lru_index c1 = find_lru_index c2.
Proof.
  intros [Hcap Hsz Him Hh Hm He]. unfold find_lru_index. rewrite <- Hsz.
  destruct (Z.eqb_spec (size c1) 0) as [|Hne]; [done|].
  destruct (decide (0 < size c1)) as [Hpos|Hneg].
  - rewrite (He 0) by lia. f_equal. apply lru_fold_ext.
    intros i Hi%elem_of_seqZ. apply He. lia.
  - rewrite seqZ_nil by lia. simpl. done.
Qed.

Lemma same_view_live_slot c1 c2 k :
  same_view c1 c2 → live_slot c1 k = live_slot c2 k.
Proof.
  intros [Hcap Hsz Him Hh Hm He]. unfold live_slot. rewrite <- Him, <- Hsz.
  destruct (index_map c1 !! k) as [i|]; [|done].
  destruct (Z.leb_spec 0 i), (Z.ltb_spec i (size c1)); simpl; try done.
  by rewrite He by lia.
Qed.

Lemma same_view_call c1 c2 op :
  cache_inv c1 → cache_inv c2 → same_view c1 c2 →
  (call c1 op).1 = (call c2 op).1 ∧ same_view (call c1 op).2 (call c2 op).2.
Proof.
  intros Hinv1 Hinv2 Hv. pose proof Hv as [Hcap Hsz Him Hh Hm He].
  destruct op as [s x t now|k|k now|]; simpl.
  - destruct (index_map c1 !! generate_message_id s t) as [v|] eqn:Hk.
    + rewrite (insert_dup c1 s x t now v Hk).
      rewrite Him in Hk. rewrite (insert_dup c2 s x t now v Hk). done.
    + destruct (insert_new_spec c1 s x t now Hinv1 Hk)
        as (i1 & -> & Hr1 & Hi1 & Hc1).
      rewrite Him in Hk.
      destruct (insert_new_spec c2 s x t now Hinv2 Hk)
        as (i2 & -> & Hr2 & Hi2 & Hc2).
      assert (i1 = i2) as <-.
      { rewrite Hi1, Hi2, <- Hsz, <- Hcap, (same_view_lru c1 c2 Hv). done. }
      split; [done|]. split; simpl; try done.
      * by rewrite Hsz, Hcap.
      * rewrite <- Hsz, <- Hcap, <- Him.
        destruct (decide (size c1 < capacity c1)); [done|].
        rewrite He by lia. done.
      * intros j Hj. rewrite !insert_new_entry_at by (done || lia).
        destruct (decide (j = i1)); [done|]. apply He.
        destruct (decide (size c1 < capacity c1)); lia.
  - unfold lookup. rewrite <- (same_view_live_slot c1 c2 k Hv).
    destruct (live_slot c1 k) as [i|] eqn:Hl; simpl.
    + assert (0 ≤ i < size c1) as Hi.
      { unfold live_slot in Hl. destruct (index_map c1 !! k); [|done].
        destruct (Z.leb_spec 0 i), (Z.ltb_spec i (size c1)); simpl in Hl;
          try done; destruct (valid _); simplify_eq; try lia.
        all: destruct (Z.leb_spec 0 z), (Z.ltb_spec z (size c1));
          simpl in *; simplify_eq; lia. }
      rewrite He by done. split; [done|]. split; simpl; try done. by rewrite Hh.
    + split; [done|]. split; simpl; try done. by rewrite Hm.
  - unfold update_access. rewrite <- (same_view_live_slot c1 c2 k Hv).
    split; [done|].
    destruct (live_slot c1 k) as [i|] eqn:Hl; [|done].
    assert (0 ≤ i < size c1) as Hi.
    { unfold live_slot in Hl. destruct (index_map c1 !! k) as [z|]; [|done].
      destruct (Z.leb_spec 0 z), (Z.ltb_spec z (size c1)); simpl in Hl;
        try done. destruct (valid _); simplify_eq. lia. }
    destruct Hinv1 as [? Hl1 Hs1 _ _ _], Hinv2 as [? Hl2 Hs2 _ _ _].
    split; simpl; try done.
    intros j Hj. rewrite He by done.
    destruct (decide (j = i)) as [->|Hne].
    + rewrite !entry_at_insert_eq by lia. done.
    + rewrite !entry_at_insert_ne by lia. by apply He.
  - split; [done|]. split; simpl; try done. lia.
Qed.

Lemma same_view_calls c1 c2 ops :
  cache_inv c1 → cache_inv c2 → same_view c1 c2 →
  (calls c1 ops).1 = (calls c2 ops).1 ∧
  same_view (calls c1 ops).2 (calls c2 ops).2.
Proof.
  revert c1 c2. induction ops as [|op ops IH]; intros c1 c2 H1 H2 Hv; [done|].
  rewrite !calls_cons. cbn [fst snd].
  destruct (same_view_call c1 c2 op H1 H2 Hv) as [-> Hv'].
  destruct (IH _ _ (call_inv c1 op H1) (call_inv c2 op H2) Hv') as [-> ?].
  done.
Qed.

(** X7. [clear] gives back a new cache: after it, every sequence of calls
    returns what it returns on a cache just built with the same capacity,
    and the getters agree at the end.  The numeric members [clear] leaves
    in the emptied slots are never read again. *)
Theorem clear_behaves_as_new c ops :
  reachable c →
  ∃ c0,
    MessageCache_new (get_capacity c) = Some c0 ∧
    (calls (clear c) ops).1 = (calls c0 ops).1 ∧
    getters (calls (clear c) ops).2 = getters (calls c0 ops).2.
Proof.
  intros Hr. pose proof (reachable_inv c Hr) as Hinv.
  pose proof Hinv as [Hc Hl Hs Hv Hi Hn].
  unfold MessageCache_new, get_capacity.
  destruct (Z.leb_spec (capacity c) 0) as [|_]; [lia|].
  eexists. split; [done|].
  set (c0 := mkMessageCache _ _ _ _ _ _ _ _).
  assert (cache_inv c0) as Hinv0.
  { apply (new_inv (capacity c)); [lia|]. unfold MessageCache_new.
    destruct (Z.leb_spec (capacity c) 0); [lia|done]. }
  destruct (same_view_calls (clear c) c0 ops) as [Hrs [Hcap Hsz _ Hh Hm _]].
  - by apply clear_inv.
  - done.
  - split; simpl; try done. lia.
  - split; [done|]. unfold getters, get_size, get_capacity, get_hits, get_misses.
    by rewrite Hcap, Hsz, Hh, Hm.
Qed.

(** *** Who is evicted *)

Lemma full_insert_entry_of c s x t now k i :
  cache_inv c → size c = capacity c →
  index_map c !! generate_message_id s t = None →
  index_map c !! k = Some i → i ≠ find_lru_index c →
  entry_of (insert c s x t now).2 k = Some (entry_at (cache c) i).
Proof.
  intros Hinv Hfull Hnew Hk Hne.
  destruct (insert_new_spec c s x t now Hinv Hnew)
    as (idx & Hins & Hidx & Hslot & _).
  rewrite decide_False in Hslot by lia. subst idx.
  rewrite entry_of_inv by by apply insert_inv.
  rewrite Hins. simpl. rewrite decide_False by lia.
  destruct (index_live_at c k i Hinv Hk) as [[Hi _] Hid].
  assert (k ≠ generate_message_id s t) by congruence.
  rewrite lookup_insert_ne by done.
  rewrite lookup_delete_ne.
  - rewrite Hk. simpl. rewrite insert_new_entry_at by (done || lia).
    by rewrite decide_False.
  - intros Heq.
    assert (index_map c !! k = Some (find_lru_index c)) as Hk'.
    { destruct Hinv as [_ _ _ _ Hi' _]. apply Hi'. split; [lia|done]. }
    congruence.
Qed.

(** X8. [update_access] protects from eviction: in a full cache, an entry
    refreshed at a time later than the last access of some other entry
    survives the next eviction and is still found, with the refreshed
    access time. *)
Theorem update_access_protects c k k0 e e0 now sender content timestamp now' :
  reachable c →
  size c = capacity c →
  entry_of c k = Some e →
  entry_of c k0 = Some e0 →
  k0 ≠ k →
  last_access e0 < now →
  (insert (update_access c k now) sender content timestamp now').1 = true →
  entry_of (insert (update_access c k now) sender content timestamp now').2 k
    = Some (touch now e) ∧
  (lookup (insert (update_access c k now) sender content timestamp now').2 k).1
    = Some (Cache.content e).
Proof.
  intros Hr Hfull He He0 Hkk Hlt Hok. pose proof (reachable_inv c Hr) as Hinv.
  set (c1 := update_access c k now) in *.
  assert (cache_inv c1) as Hinv1 by by apply update_access_inv.
  rewrite insert_result in Hok. apply bool_decide_eq_true in Hok.
  rewrite entry_of_inv in He, He0 by done.
  destruct (index_map c !! k) as [i|] eqn:Hk; [|done].
  destruct (index_map c !! k0) as [i0|] eqn:Hk0; [|done].
  simpl in He, He0. simplify_eq.
  destruct (index_live_at c k i Hinv Hk) as [[Hi Hvi] Hidi].
  destruct (index_live_at c k0 i0 Hinv Hk0) as [[Hi0 Hvi0] Hidi0].
  pose proof Hinv as [Hc Hl Hs Hv _ _].
  assert (c1 = mkMessageCache
            (<[Z.to_nat i := touch now (entry_at (cache c) i)]> (cache c))
            (capacity c) (Cache.head c) (Cache.tail c) (size c) (index_map c)
            (hits c) (misses c)) as Hc1 by by apply update_access_live.
  assert (entry_at (cache c1) i = touch now (entry_at (cache c) i)) as Hei.
  { rewrite Hc1. simpl. by rewrite entry_at_insert_eq by lia. }
  assert (i ≠ find_lru_index c1) as Hne.
  { intros Heq.
    assert (0 < size c1) as Hpos by (rewrite Hc1; simpl; lia).
    destruct (find_lru_index_spec c1 Hpos) as [_ _ _ Hleast _].
    simpl in Hleast. rewrite <- Heq, Hei in Hleast. simpl in Hleast.
    assert (i0 ≠ i) as Hi0i.
    { intros ->. congruence. }
    specialize (Hleast i0). rewrite Hc1 in Hleast. simpl in Hleast.
    rewrite entry_at_insert_ne in Hleast by lia.
    unfold scanned in Hleast. rewrite entry_at_insert_ne in Hleast by lia.
    specialize (Hleast ltac:(lia) ltac:(by right)). lia. }
  assert (entry_of (insert c1 sender content timestamp now').2 k
          = Some (touch now (entry_at (cache c) i))) as Hent.
  { rewrite <- Hei. apply full_insert_entry_of; try done.
    - rewrite Hc1. done.
    - rewrite Hc1. done. }
  split; [done|].
  destruct (lookup_frame (insert c1 sender content timestamp now').2 k)
    as (_ & _ & _ & _ & -> & _).
  by rewrite Hent.
Qed.

Lemma find_lru_index_first c :
  cache_inv c → 0 < size c →
  (∀ j, 0 ≤ j < size c →
        last_access (entry_at (cache c) 0) ≤ last_access (entry_at (cache c) j)) →
  find_lru_index c = 0.
Proof.
  intros Hinv Hpos Hmin.
  destruct (find_lru_index_spec c Hpos) as [Hrange Hcached _ _ Hfirst].
  simpl in *. destruct (decide (find_lru_index c = 0)) as [|Hne]; [done|].
  specialize (Hfirst 0 ltac:(lia) ltac:(by left)).
  specialize (Hmin (find_lru_index c) ltac:(lia)). lia.
Qed.

(** X9. With a clock that does not advance the cache does not evict the
    least recently used entry but the most recent one.  In a full cache
    whose slot 0 is not younger than the others, an insert at a time [now1]
    not later than the last access of the other slots takes slot 0; the next
    insert takes slot 0 again, so the message just inserted is the one
    evicted and is not found any more, while slots 1 and up keep their
    entries.  This is the case of a cache filled and used within one second
    of [time(nullptr)]. *)
Theorem stalled_clock_evicts_newest c now1 now2 s1 x1 t1 s2 x2 t2 :
  reachable c →
  size c = capacity c →
  (∀ j, live_at c j →
        last_access (entry_at (cache c) 0) ≤ last_access (entry_at (cache c) j)) →
  (∀ j, live_at c j → 1 ≤ j → now1 ≤ last_access (entry_at (cache c) j)) →
  (insert c s1 x1 t1 now1).1 = true →
  (insert (insert c s1 x1 t1 now1).2 s2 x2 t2 now2).1 = true →
  find_lru_index c = 0 ∧
  find_lru_index (insert c s1 x1 t1 now1).2 = 0 ∧
  (lookup (insert c s1 x1 t1 now1).2 (generate_message_id s1 t1)).1 = Some x1 ∧
  (lookup (insert (insert c s1 x1 t1 now1).2 s2 x2 t2 now2).2
          (generate_message_id s1 t1)).1 = None ∧
  (lookup (insert (insert c s1 x1 t1 now1).2 s2 x2 t2 now2).2
          (generate_message_id s2 t2)).1 = Some x2 ∧
  (∀ j, 1 ≤ j →
        entry_at (cache (insert (insert c s1 x1 t1 now1).2 s2 x2 t2 now2).2) j
          = entry_at (cache c) j).
Proof.
  intros Hr Hfull Hmin Hnow Hok1 Hok2. pose proof (reachable_inv c Hr) as Hinv.
  pose proof Hinv as [Hc Hl Hs Hv _ _].
  assert (∀ j, 0 ≤ j < size c → live_at c j) as Hlive.
  { intros j Hj. split; [done|]. apply Hv; lia. }
  assert (find_lru_index c = 0) as Hv0.
  { apply find_lru_index_first; [done|lia|]. intros j Hj. by apply Hmin, Hlive. }
  set (c1 := (insert c s1 x1 t1 now1).2) in *.
  assert (cache_inv c1) as Hinv1 by by apply insert_inv.
  rewrite insert_result in Hok1. apply bool_decide_eq_true in Hok1.
  destruct (insert_new_spec c s1 x1 t1 now1 Hinv Hok1)
    as (idx & Hins & Hidx & Hslot & _).
  rewrite decide_False in Hslot by lia. rewrite Hv0 in Hslot. subst idx.
  rewrite !decide_False in Hins by lia.
  assert (size c1 = size c) as Hsz1 by (unfold c1; by rewrite Hins).
  assert (capacity c1 = capacity c) as Hcap1 by (unfold c1; by rewrite Hins).
  assert (∀ j, 0 ≤ j → entry_at (cache c1) j
            = if decide (j = 0)
              then mkCacheEntry (generate_message_id s1 t1) x1 s1 t1 now1 1 true
              else entry_at (cache c) j) as Hent1.
  { intros j Hj. unfold c1. rewrite Hins. simpl.
    by rewrite insert_new_entry_at by (done || lia). }
  assert (find_lru_index c1 = 0) as Hv1.
  { apply find_lru_index_first; [done|lia|]. intros j Hj.
    rewrite !Hent1 by lia. rewrite decide_True by done. simpl.
    case_decide; [simpl; lia|]. apply Hnow; [apply Hlive|]; lia. }
  set (c2 := (insert c1 s2 x2 t2 now2).2) in *.
  assert (cache_inv c2) as Hinv2 by by apply insert_inv.
  rewrite insert_result in Hok2. apply bool_decide_eq_true in Hok2.
  destruct (insert_new_spec c1 s2 x2 t2 now2 Hinv1 Hok2)
    as (idx & Hins2 & Hidx2 & Hslot2 & _).
  rewrite decide_False in Hslot2 by lia. rewrite Hv1 in Hslot2. subst idx.
  rewrite !decide_False in Hins2 by lia.
  assert (index_map c1 !! generate_message_id s1 t1 = Some 0) as Hid1.
  { unfold c1. rewrite Hins. simpl. apply lookup_insert_eq. }
  split_and!; [done|done|..].
  - rewrite lookup_result, Hid1 by done. simpl.
    rewrite Hent1 by lia. by rewrite decide_True.
  - rewrite lookup_result by done. unfold c2. rewrite Hins2. simpl.
    rewrite Hent1 by lia. rewrite decide_True by done. simpl.
    assert (generate_message_id s1 t1 ≠ generate_message_id s2 t2)
      by congruence.
    rewrite lookup_insert_ne by done. by rewrite lookup_delete_eq.
  - rewrite lookup_result by done. unfold c2. rewrite Hins2. simpl.
    rewrite lookup_insert_eq. simpl.
    rewrite insert_new_entry_at by (done || lia). by rewrite decide_True.
  - intros j Hj. unfold c2. rewrite Hins2. simpl.
    rewrite insert_new_entry_at by (done || lia).
    rewrite decide_False by lia. rewrite Hent1 by lia.
    by rewrite decide_False by lia.
Qed.

Lemma demo_empty_reachable : reachable demo_empty.
Proof. by apply (reach_new 2). Qed.

Lemma demo_same_second_reachable : reachable demo_same_second.
Proof. do 2 apply reach_run. apply demo_empty_reachable. Qed.

Lemma insert_lookup_round_trip_witness :
  (lookup (insert demo_full "carol" "hey" 102 110).2 "carol_102").1
    = Some "hey" ∧
  insert (insert demo_full "carol" "hey" 102 110).2 "carol" "again" 102 120
    = (false, (insert demo_full "carol" "hey" 102 110).2).
Proof.
  destruct (insert_lookup_round_trip demo_full "carol" "hey" 102 110
              "again" 120) as (Hfound & _ & _ & Hdup & _).
  - apply demo_full_reachable.
  - reflexivity.
  - split; [exact Hfound|exact Hdup].
Defined.

Lemma insert_below_capacity_keeps_all_witness :
  get_size (insert (run demo_empty (OpInsert "alice" "hi" 100 100))
                   "bob" "yo" 101 105).2 = 2 ∧
  (lookup (insert (run demo_empty (OpInsert "alice" "hi" 100 100))
                  "bob" "yo" 101 105).2 "alice_100").1 = Some "hi".
Proof.
  destruct (insert_below_capacity_keeps_all
              (run demo_empty (OpInsert "alice" "hi" 100 100))
              "bob" "yo" 101 105) as (Hsize & _ & Hkeep).
  - apply reach_run, demo_empty_reachable.
  - reflexivity.
  - reflexivity.
  - split; [exact Hsize|]. apply Hkeep. reflexivity.
Defined.

Lemma live_fingerprints_distinct_witness :
  Z.of_nat (stdpp.base.size (index_map demo_full)) = 2.
Proof.
  destruct (live_fingerprints_distinct demo_full demo_full_reachable)
    as [_ Hsize].
  exact Hsize.
Defined.

Lemma size_counts_accepted_inserts_witness :
  get_size (calls demo_empty
              [OpInsert "alice" "hi" 100 100; OpInsert "alice" "hi" 100 101;
               OpLookup "alice_100"; OpInsert "bob" "yo" 101 105;
               OpInsert "carol" "hey" 102 110]).2 = 2.
Proof.
  rewrite (size_counts_accepted_inserts demo_empty).
  - reflexivity.
  - apply demo_empty_reachable.
  - repeat constructor.
Defined.

Lemma counters_count_lookups_witness :
  get_hits (calls demo_full
              [OpLookup "alice_100"; OpLookup "dave_7"; OpLookup "bob_101";
               OpInsert "carol" "hey" 102 110; OpLookup "alice_100"]).2 = 2 ∧
  get_misses (calls demo_full
              [OpLookup "alice_100"; OpLookup "dave_7"; OpLookup "bob_101";
               OpInsert "carol" "hey" 102 110; OpLookup "alice_100"]).2 = 2.
Proof.
  apply (counters_count_lookups demo_full).
  - reflexivity.
  - reflexivity.
  - repeat constructor.
Defined.

Lemma clear_behaves_as_new_witness :
  (calls (clear demo_full)
         [OpLookup "alice_100"; OpInsert "carol" "hey" 102 110;
          OpLookup "carol_102"]).1
    = [RLookup None; RInsert true; RLookup (Some "hey")].
Proof.
  destruct (clear_behaves_as_new demo_full
              [OpLookup "alice_100"; OpInsert "carol" "hey" 102 110;
               OpLookup "carol_102"] demo_full_reachable)
    as (c0 & Hnew & Hres & _).
  rewrite Hres. injection Hnew as <-. reflexivity.
Defined.

Lemma update_access_protects_witness :
  (lookup (insert (update_access demo_full "alice_100" 200)
                  "carol" "hey" 102 210).2 "alice_100").1 = Some "hi".
Proof.
  destruct (update_access_protects demo_full "alice_100" "bob_101"
              (mkCacheEntry "alice_100" "hi" "alice" 100 100 1 true)
              (mkCacheEntry "bob_101" "yo" "bob" 101 105 1 true)
              200 "carol" "hey" 102 210) as [_ Hfound].
  - apply demo_full_reachable.
  - reflexivity.
  - reflexivity.
  - reflexivity.
  - discriminate.
  - reflexivity.
  - reflexivity.
  - exact Hfound.
Defined.

Lemma stalled_clock_evicts_newest_witness :
  (lookup (insert (insert demo_same_second "carol" "hey" 102 100).2
                  "dave" "ho" 103 100).2 "carol_102").1 = None ∧
  (lookup (insert (insert demo_same_second "carol" "hey" 102 100).2
                  "dave" "ho" 103 100).2 "bob_101").1 = Some "yo".
Proof.
  destruct (stalled_clock_evicts_newest demo_same_second 100 100
              "carol" "hey" 102 "dave" "ho" 103)
    as (_ & _ & _ & Hgone & _ & _).
  - apply demo_same_second_reachable.
  - reflexivity.
  - intros j [Hj _]. change (size demo_same_second) with 2 in Hj.
    assert (j = 0 ∨ j = 1) as [-> | ->] by lia; vm_compute; discriminate.
  - intros j [Hj _] Hj1. change (size demo_same_second) with 2 in Hj.
    assert (j = 1) as -> by lia. vm_compute. discriminate.
  - reflexivity.
  - reflexivity.
  - split; [exact Hgone|reflexivity].
Defined.

(** *** Entries and their fingerprints *)



End CacheFacts.

(** ** RoundRobinScheduler *)

Module SchedulerFacts.
Import Scheduler.

(** *** Linked segments *)

Lemma lseg_app h p l1 l2 q :
  lseg h p (l1 ++ l2) q ↔ ∃ m, lseg h p l1 m ∧ lseg h m l2 q.
Proof.
  revert p. induction l1 as [|[x c] l1 IH]; intros p; simpl.
  - split; [intros H; by exists p|intros (m & -> & H); done].
  - split.
    + intros (-> & node & y & Hx & Hfd & Hid & Hn & Hrest).
      apply IH in Hrest as (m & H1 & H2). exists m. split; [|done].
      split; [done|]. by exists node, y.
    + intros (m & (-> & node & y & Hx & Hfd & Hid & Hn & H1) & H2).
      split; [done|]. exists node, y. split_and!; try done.
      apply IH. by exists m.
Qed.

(** A segment only depends on the descriptor, the user and the link of its
    own nodes. *)
Lemma lseg_frame h h' p l q :
  (∀ x node, x ∈ l.*1 → h !! x = Some node →
     ∃ node', h' !! x = Some node' ∧ socket_fd node' = socket_fd node ∧
              user_id node' = user_id node ∧ next node' = next node) →
  lseg h p l q → lseg h' p l q.
Proof.
  revert p. induction l as [|[x c] l IH]; intros p Hsame; simpl; [done|].
  intros (-> & node & y & Hx & Hfd & Hid & Hn & Hrest).
  split; [done|].
  destruct (Hsame x node) as (node' & Hx' & Hfd' & Hid' & Hn');
    [set_solver|done|].
  exists node', y. split_and!; try congruence.
  apply IH; [|done]. intros x' n' Hin. apply Hsame. set_solver.
Qed.

Lemma lseg_lookup h p l q i x c :
  lseg h p l q → l !! i = Some (x, c) →
  ∃ node, h !! x = Some node ∧ socket_fd node = c.1 ∧ user_id node = c.2 ∧
          next node = (l.*1 ++ [q]) !! S i.
Proof.
  revert p i. induction l as [|[x' c'] l IH]; intros p i; simpl; [done|].
  intros (-> & node & y & Hx & Hfd & Hid & Hn & Hrest) Hi.
  destruct i as [|i]; simpl in *.
  - injection Hi as -> ->. exists node. split_and!; try done.
    rewrite Hn. destruct l as [|[x2 c2] l]; simpl in *; [by subst|].
    by destruct Hrest as [-> _].
  - by apply (IH y).
Qed.

Lemma lseg_start h p x c l q : lseg h p ((x, c) :: l) q → p = x.
Proof. by intros [-> _]. Qed.

(** *** The three walks *)

Lemma find_fd_spec fuel h hd p l fd :
  lseg h p l hd → l ≠ [] → hd ∉ (tail l).*1 → (length l ≤ fuel)%nat →
  find_fd fuel h hd p fd = Some (bool_decide (fd ∈ (l.*2).*1)).
Proof.
  revert fuel p. induction l as [|[x c] l IH]; intros fuel p; [done|].
  simpl. intros (-> & node & y & Hx & Hfd & Hid & Hn & Hrest) _ Hhd Hfuel.
  destruct fuel as [|fuel]; [lia|]. simpl. rewrite Hx, Hfd, Hn.
  destruct (Z.eqb_spec c.1 fd) as [->|Hne].
  { rewrite bool_decide_eq_true_2; [done|set_solver]. }
  destruct l as [|[x2 c2] l].
  - simpl in Hrest. subst y. rewrite decide_True by done.
    rewrite bool_decide_eq_false_2; [done|set_solver].
  - pose proof (lseg_start _ _ _ _ _ _ Hrest) as ->.
    rewrite decide_False by set_solver.
    rewrite (IH fuel x2); [|done|done|set_solver|simpl in *; lia].
    f_equal. apply bool_decide_ext. set_solver.
Qed.

Lemma find_last_spec fuel h hd p l :
  lseg h p l hd → l ≠ [] → hd ∉ (tail l).*1 → (length l ≤ fuel)%nat →
  find_last fuel h hd p = last l.*1.
Proof.
  revert fuel p. induction l as [|[x c] l IH]; intros fuel p; [done|].
  simpl. intros (-> & node & y & Hx & Hfd & Hid & Hn & Hrest) _ Hhd Hfuel.
  destruct fuel as [|fuel]; [lia|]. simpl. rewrite Hx, Hn.
  destruct l as [|[x2 c2] l].
  - simpl in Hrest. subst y. by rewrite decide_True.
  - pose proof (lseg_start _ _ _ _ _ _ Hrest) as ->.
    rewrite decide_False by set_solver.
    rewrite (IH fuel x2); [done|done|done|set_solver|simpl in *; lia].
Qed.

(** *** The ring invariant *)

Lemma ring_size s l k : ring s l k → size (nodes s) = length l.
Proof.
  intros [Hnd _ Hdom _ _ _ _].
  rewrite <- size_dom, Hdom, size_list_to_set, length_fmap; done.
Qed.

Lemma ring_new q s : RoundRobinScheduler_new q = Some s → ring s [] 0.
Proof.
  unfold RoundRobinScheduler_new. destruct (q <=? 0); [done|].
  intros [= <-]. split; simpl.
  - constructor.
  - constructor.
  - apply dom_empty_L.
  - done.
  - done.
  - by right.
  - done.
Qed.

Lemma ring_head_tail s x c l k hd :
  ring s ((x, c) :: l) k → head s = Some hd → hd = x ∧ hd ∉ l.*1.
Proof.
  intros [Hnd _ _ Hhead _ _ _] Hhd. rewrite Hhd in Hhead. simpl in Hhead.
  injection Hhead as ->. split; [done|]. by apply NoDup_cons in Hnd as [? _].
Qed.

(** A descriptor that is already registered: the call changes nothing. *)
Lemma add_client_dup s l k fd uid :
  ring s l k → fd ∈ (l.*2).*1 → add_client s fd uid = Some s.
Proof.
  intros Hring Hin. unfold add_client.
  destruct l as [|[x c] l]; [set_solver|].
  pose proof (ring_head s _ _ Hring) as Hhead. simpl in Hhead. rewrite Hhead.
  destruct (ring_head_tail s x c l k x Hring Hhead) as [_ Hx].
  rewrite (find_fd_spec _ _ _ _ ((x, c) :: l));
    [|by apply (ring_links s _ _ Hring)|done|done
     |by rewrite (ring_size s _ k Hring)].
  simpl. by rewrite bool_decide_eq_true_2.
Qed.

(** A new descriptor: a node is allocated and linked in after the tail; the
    cursor does not move. *)
Lemma add_client_fresh s l k fd uid :
  ring s l k → fd ∉ (l.*2).*1 →
  ∃ p s', add_client s fd uid = Some s' ∧
          ring s' (l ++ [(p, (fd, uid))]) k.
Proof.
  intros Hring Hfd. unfold add_client.
  set (p := fresh (dom (nodes s))).
  assert (p ∉ l.*1) as Hp.
  { pose proof (is_fresh (dom (nodes s))) as Hf. fold p in Hf.
    rewrite (ring_dom s _ _ Hring) in Hf. set_solver. }
  assert (nodes s !! p = None) as Hpnone.
  { apply not_elem_of_dom. apply is_fresh. }
  exists p.
  destruct l as [|[x c] l].
  - pose proof (ring_head s _ _ Hring) as Hhead. simpl in Hhead.
    rewrite Hhead. simpl. eexists. split; [done|].
    destruct (ring_cursor s _ _ Hring) as [Hk|[_ ->]]; [simpl in Hk; lia|].
    split; simpl.
    + apply NoDup_singleton.
    + apply NoDup_singleton.
    + rewrite dom_alter_L, dom_insert_L, (ring_dom s _ _ Hring). set_solver.
    + done.
    + done.
    + left. lia.
    + intros hd [= <-]. split; [done|].
      eexists _, p. rewrite lookup_alter_eq, lookup_insert_eq. simpl.
      split_and!; done.
  - pose proof (ring_head s _ _ Hring) as Hhead. simpl in Hhead. rewrite Hhead.
    destruct (ring_head_tail s x c l k x Hring Hhead) as [_ Hx].
    pose proof (ring_links s _ _ Hring x Hhead) as Hseg.
    rewrite (find_fd_spec _ _ _ _ ((x, c) :: l));
      [|done|done|done|by rewrite (ring_size s _ k Hring)].
    rewrite bool_decide_eq_false_2 by done. simpl.
    set (h := <[p := mkScheduledClient fd uid 0 None]> (nodes s)).
    assert (lseg h x ((x, c) :: l) x) as Hseg'.
    { eapply lseg_frame; [|exact Hseg]. intros y node Hy Hnode.
      exists node. split; [|done]. unfold h.
      rewrite lookup_insert_ne; [done|]. intros <-. done. }
    rewrite (find_last_spec _ _ _ _ ((x, c) :: l)); [|done|done|done|].
    2:{ unfold h. rewrite map_size_insert_None by done.
        rewrite (ring_size s _ k Hring). lia. }
    destruct (last_is_Some ((x, c) :: l).*1) as [_ [xl Hlast]]; [done|].
    rewrite Hlast. simpl. eexists. split; [done|].
    apply last_Some in Hlast as [xs0 Hxs0].
    assert (∃ l0 cl, (x, c) :: l = l0 ++ [(xl, cl)]) as (l0 & cl & Hl0).
    { destruct (last_is_Some ((x, c) :: l)) as [_ [[y cy] Hy]]; [done|].
      apply last_Some in Hy as [l0 Hl0]. exists l0, cy.
      rewrite Hl0 in Hxs0. rewrite fmap_app in Hxs0. simpl in Hxs0.
      apply app_inj_tail in Hxs0 as [_ ->]. done. }
    pose proof (ring_nodup s _ _ Hring) as Hnd.
    destruct (ring_cursor s _ _ Hring) as [Hk|[? _]]; [|done].
    pose proof (ring_fds s _ _ Hring) as Hndf.
    split; simpl.
    + change (NoDup ((((x, c) :: l) ++ [(p, (fd, uid))]).*1)).
      rewrite fmap_app. apply NoDup_app. split; [done|]. split.
      * intros y Hy. simpl. set_solver.
      * apply NoDup_singleton.
    + change (NoDup (((((x, c) :: l) ++ [(p, (fd, uid))]).*2).*1)).
      rewrite !fmap_app. apply NoDup_app. split; [done|]. split.
      * intros y Hy. simpl. set_solver.
      * apply NoDup_singleton.
    + rewrite !dom_alter_L. unfold h.
      rewrite dom_insert_L, (ring_dom s _ _ Hring), fmap_app,
        list_to_set_app_L.
      simpl. set_solver.
    + done.
    + rewrite (ring_current s _ _ Hring).
      change (((x, c) :: l).*1 !! k = (((x, c) :: l) ++ [(p, (fd, uid))]).*1 !! k).
      rewrite fmap_app, lookup_app_l; [done|]. rewrite length_fmap. done.
    + left. rewrite length_app. simpl in *. lia.
    + intros hd [= <-].
      change (lseg (alter (set_next (Some x)) p
                      (alter (set_next (Some p)) xl h)) x
                   (((x, c) :: l) ++ [(p, (fd, uid))]) x).
      rewrite Hl0 in Hseg', Hnd, Hp |- *.
      rewrite fmap_app in Hnd, Hp. simpl in Hnd, Hp.
      apply NoDup_app in Hnd as (Hnd0 & Hnd1 & _).
      apply lseg_app in Hseg' as (m & Hs0 & Hs1).
      simpl in Hs1. destruct Hs1 as (-> & nl & y & Hxl & Hfl & Hul & Hnl & ->).
      rewrite <- app_assoc. apply lseg_app. exists xl. split.
      * eapply lseg_frame; [|exact Hs0]. intros z node Hz Hnode.
        exists node. split; [|done].
        rewrite !lookup_alter_ne; [done| |].
        -- intros <-. apply (Hnd1 xl); [done|set_solver].
        -- intros <-. set_solver.
      * simpl. split; [done|].
        assert (xl ≠ p) as Hne by set_solver.
        exists (set_next (Some p) nl), p.
        rewrite lookup_alter_ne by done.
        rewrite lookup_alter_eq, Hxl. simpl. split_and!; try done.
        exists (set_next (Some x) (mkScheduledClient fd uid 0 None)), x.
        rewrite lookup_alter_eq, lookup_alter_ne by done.
        unfold h. rewrite lookup_insert_eq. simpl. done.
Qed.

Lemma add_clients_ring s l k cs :
  ring s l k → NoDup ((l.*2).*1 ++ cs.*1) →
  ∃ l' s', add_clients s cs = Some s' ∧ ring s' (l ++ l') k ∧ l'.*2 = cs.
Proof.
  revert s l. induction cs as [|[fd uid] cs IH]; intros s l Hring Hnd.
  - exists [], s. rewrite app_nil_r. done.
  - simpl in *. apply NoDup_app in Hnd as (Hl & Hdisj & Hcs).
    apply NoDup_cons in Hcs as [Hfd Hcs].
    destruct (add_client_fresh s l k fd uid Hring) as (p & s1 & Hadd & Hring1).
    { intros Hin. apply (Hdisj fd Hin). set_solver. }
    destruct (IH s1 (l ++ [(p, (fd, uid))]) Hring1) as (l' & s' & Hadds & Hr & Hl').
    { rewrite !fmap_app. simpl. rewrite <- app_assoc. simpl.
      apply NoDup_app. split_and!; [done| |by apply NoDup_cons].
      intros y Hy Hy'. apply (Hdisj y Hy). set_solver. }
    exists ((p, (fd, uid)) :: l'), s'. rewrite Hadd. simpl.
    split_and!; [done| |f_equal; exact Hl'].
    by rewrite <- app_assoc in Hr.
Qed.

(** One call on a ring: the node under the cursor is returned with its
    stamp refreshed, and the cursor moves to the next node, back to the
    first after the last. *)
Lemma get_next_client_ring s l k now p c :
  ring s l k → l !! k = Some (p, c) →
  ∃ s', get_next_client s now = Some (Some p, s') ∧
        deref s' (Some p) = scheduled c now ∧
        ring s' l (if decide (S k = length l) then 0%nat else S k).
Proof.
  intros Hring Hk. unfold get_next_client.
  pose proof (ring_current s _ _ Hring) as Hcur.
  rewrite list_lookup_fmap, Hk in Hcur. simpl in Hcur. rewrite Hcur.
  destruct l as [|[x c0] l]; [done|].
  pose proof (ring_head s _ _ Hring) as Hhead. simpl in Hhead.
  pose proof (ring_links s _ _ Hring x Hhead) as Hseg.
  destruct (lseg_lookup _ _ _ _ _ _ _ Hseg Hk) as (node & Hp & Hfd & Hid & Hn).
  rewrite Hp. simpl. eexists. split; [done|]. split.
  { simpl. rewrite lookup_insert_eq. simpl. unfold scheduled. congruence. }
  apply lookup_lt_Some in Hk as Hlt.
  assert (next node = ((x, c0) :: l).*1 !!
            (if decide (S k = length ((x, c0) :: l)) then 0%nat else S k))
    as Hnext.
  { rewrite Hn. case_decide as Hend.
    - rewrite lookup_app_r by (rewrite length_fmap; lia).
      rewrite length_fmap, Hend, Nat.sub_diag. done.
    - rewrite lookup_app_l; [done|]. rewrite length_fmap. lia. }
  split; cbn [nodes head current].
  - apply (ring_nodup s _ _ Hring).
  - apply (ring_fds s _ _ Hring).
  - rewrite dom_insert_L, <- (ring_dom s _ _ Hring).
    assert (p ∈ dom (nodes s)) by (apply elem_of_dom; eauto). set_solver.
  - done.
  - exact Hnext.
  - left. clear Hnext. case_decide; simpl in *; lia.
  - intros hd Hhd. rewrite Hhead in Hhd. injection Hhd as <-.
    eapply lseg_frame; [|exact Hseg]. intros y ny Hy Hny.
    destruct (decide (y = p)) as [->|Hne].
    + rewrite lookup_insert_eq. eexists. split; [done|].
      rewrite Hp in Hny. injection Hny as <-. done.
    + rewrite lookup_insert_ne by done. by exists ny.
Qed.

#[local] Arguments deref : simpl never.

Lemma get_next_client_empty s k now :
  ring s [] k → get_next_client s now = Some (None, s).
Proof.
  intros Hring. unfold get_next_client.
  by rewrite (ring_current s _ _ Hring).
Qed.

Lemma get_next_clients_app s nows1 nows2 :
  get_next_clients s (nows1 ++ nows2) =
    '(r1, s1) ← get_next_clients s nows1;
    '(r2, s2) ← get_next_clients s1 nows2;
    Some (r1 ++ r2, s2).
Proof.
  revert s. induction nows1 as [|now nows1 IH]; intros s; simpl.
  - destruct (get_next_clients s nows2) as [[r2 s2]|]; done.
  - destruct (get_next_client s now) as [[p s']|]; [|done]. simpl.
    rewrite IH. destruct (get_next_clients s' nows1) as [[r1 s1]|]; [|done].
    simpl. destruct (get_next_clients s1 nows2) as [[r2 s2]|]; done.
Qed.

(** Successive calls that do not run past the last node return the clients
    from the cursor on, in ring order. *)
Lemma get_next_clients_segment s l k nows :
  ring s l k → (k + length nows ≤ length l)%nat →
  ∃ s', get_next_clients s nows =
          Some (zip_with scheduled (take (length nows) (drop k l.*2)) nows, s') ∧
        ring s' l (if decide (k + length nows = length l)%nat then 0%nat
                   else (k + length nows)%nat).
Proof.
  revert s k. induction nows as [|now nows IH]; intros s k Hring Hlen.
  - exists s. split; [done|]. simpl. rewrite Nat.add_0_r.
    case_decide as Hk; [|done].
    destruct (ring_cursor s _ _ Hring) as [?|[_ ->]]; [lia|done].
  - simpl in Hlen.
    destruct (lookup_lt_is_Some_2 l k) as [[p c] Hk]; [lia|].
    destruct (get_next_client_ring s l k now p c Hring Hk)
      as (s1 & Hget & Hderef & Hring1).
    simpl. rewrite Hget. simpl. rewrite Hderef.
    assert (drop k l.*2 = c :: drop (S k) l.*2) as ->.
    { apply drop_S. by rewrite list_lookup_fmap, Hk. }
    simpl.
    destruct (decide (S k = length l)) as [Hend|Hmore].
    + destruct nows as [|? ?]; [|simpl in Hlen; lia].
      simpl. exists s1. split; [done|].
      rewrite decide_True by lia. done.
    + destruct (IH s1 (S k) Hring1) as (s' & Hrest & Hring'); [lia|].
      rewrite Hrest. simpl. exists s'. split; [done|].
      replace (k + S (length nows))%nat with (S k + length nows)%nat by lia.
      done.
Qed.

Lemma add_client_ring s l k fd uid :
  ring s l k → ∃ s' l', add_client s fd uid = Some s' ∧ ring s' l' k.
Proof.
  intros Hring. destruct (decide (fd ∈ (l.*2).*1)) as [Hin|Hnin].
  - exists s, l. split; [by eapply add_client_dup|done].
  - destruct (add_client_fresh s l k fd uid Hring Hnin) as (p & s' & Hadd & Hr).
    by exists s', (l ++ [(p, (fd, uid))]).
Qed.

(** *** Removal *)

Lemma find_victim_none fuel h hd prev temp l fd :
  lseg h temp l hd → hd ∉ l.*1 → fd ∉ (l.*2).*1 → (length l < fuel)%nat →
  find_victim fuel h hd prev temp fd = Some None.
Proof.
  revert fuel prev temp. induction l as [|[x c] l IH]; intros fuel prev temp.
  - simpl. intros -> _ _ Hfuel. destruct fuel; [lia|]. simpl.
    by rewrite decide_True.
  - simpl. intros (-> & node & y & Hx & Hfd & Hid & Hn & Hrest) Hhd Hnin Hfuel.
    destruct fuel as [|fuel]; [lia|]. simpl.
    rewrite decide_False by set_solver. rewrite Hx, Hfd, Hn.
    destruct (Z.eqb_spec c.1 fd) as [Heq|_]; [set_solver|].
    apply IH; [done|set_solver|set_solver|lia].
Qed.

Lemma find_victim_some fuel h hd prev temp la t ct lb fd :
  lseg h temp (la ++ (t, ct) :: lb) hd → hd ∉ (la ++ (t, ct) :: lb).*1 →
  fd ∉ (la.*2).*1 → ct.1 = fd → (length la < fuel)%nat →
  find_victim fuel h hd prev temp fd
    = Some (Some (default prev (last la.*1), t)).
Proof.
  revert fuel prev temp. induction la as [|[x c] la IH]; intros fuel prev temp.
  - simpl. intros (-> & node & y & Hx & Hfd & Hid & Hn & Hrest) Hhd _ Hct Hfuel.
    destruct fuel as [|fuel]; [lia|]. simpl.
    rewrite decide_False by set_solver. rewrite Hx, Hfd, Hct.
    by rewrite Z.eqb_refl.
  - simpl. intros (-> & node & y & Hx & Hfd & Hid & Hn & Hrest) Hhd Hnin Hct Hfuel.
    apply not_elem_of_cons in Hhd as [Hhx Hhd].
    apply not_elem_of_cons in Hnin as [Hc Hnin].
    destruct fuel as [|fuel]; [lia|]. simpl.
    rewrite decide_False by done. rewrite Hx, Hfd, Hn.
    destruct (Z.eqb_spec c.1 fd) as [Heq|_]; [done|].
    rewrite (IH fuel x y); [|done|exact Hhd|exact Hnin|done|lia].
    do 3 f_equal. destruct la as [|[x2 c2] la]; [done|].
    rewrite !fmap_cons, (last_cons x), (last_cons x2).
    by destruct (last la.*1).
Qed.

(** A ring, given the node under the cursor instead of its index. *)
Lemma ring_intro s l z :
  NoDup l.*1 → NoDup (l.*2).*1 → dom (nodes s) = list_to_set l.*1 →
  head s = l.*1 !! 0%nat → current s = Some z → z ∈ l.*1 →
  (∀ hd, head s = Some hd → lseg (nodes s) hd l hd) →
  ∃ k, ring s l k.
Proof.
  intros Hnd Hfds Hdom Hhead Hcur Hz Hlinks.
  apply list_elem_of_lookup in Hz as [k Hk]. exists k.
  split; try done.
  - congruence.
  - left. apply lookup_lt_Some in Hk. by rewrite length_fmap in Hk.
Qed.

Lemma filter_fd_all (l : list (loc * (Z * string))) fd :
  fd ∉ (l.*2).*1 → filter (λ e, e.2.1 ≠ fd) l = l.
Proof.
  induction l as [|[x c] l IH]; [done|]. simpl. intros Hnin.
  rewrite filter_cons_True by set_solver. f_equal. apply IH. set_solver.
Qed.

Lemma ring_head_node s x c l k :
  ring s ((x, c) :: l) k →
  head s = Some x ∧
  ∃ node y, nodes s !! x = Some node ∧ socket_fd node = c.1 ∧
            user_id node = c.2 ∧ next node = Some y ∧
            lseg (nodes s) y l x ∧ x ∉ l.*1.
Proof.
  intros Hring. pose proof (ring_head s _ _ Hring) as Hhead. simpl in Hhead.
  split; [done|].
  destruct (ring_links s _ _ Hring x Hhead)
    as (_ & node & y & Hx & Hfd & Hid & Hn & Hrest).
  exists node, y. split_and!; try done.
  pose proof (ring_nodup s _ _ Hring) as Hnd.
  by apply NoDup_cons in Hnd as [? _].
Qed.

Lemma ring_tail_nodup s x c l k :
  ring s ((x, c) :: l) k →
  NoDup l.*1 ∧ NoDup (l.*2).*1 ∧ c.1 ∉ (l.*2).*1.
Proof.
  intros Hring.
  pose proof (ring_nodup s _ _ Hring) as Hnd.
  pose proof (ring_fds s _ _ Hring) as Hfds.
  rewrite fmap_cons in Hnd. rewrite !fmap_cons in Hfds.
  apply NoDup_cons in Hnd as [_ Hnd]. apply NoDup_cons in Hfds as [Hc Hfds].
  done.
Qed.

(** An unknown descriptor: the walks end and nothing changes. *)
Lemma remove_client_absent s l k fd :
  ring s l k → fd ∉ (l.*2).*1 → remove_client s fd = Some s.
Proof.
  intros Hring Hnin. unfold remove_client.
  destruct l as [|[x c] l].
  { by rewrite (ring_head s _ _ Hring). }
  destruct (ring_head_node s x c l k Hring)
    as (Hhead & node & y & Hx & Hfd & Hid & Hn & Hrest & Hxl).
  rewrite Hhead, Hx. simpl. rewrite Hfd.
  apply not_elem_of_cons in Hnin as [Hc Hnin].
  destruct (Z.eqb_spec c.1 fd) as [|_]; [done|].
  rewrite andb_false_r.
  rewrite (find_last_spec _ _ _ _ ((x, c) :: l));
    [|by apply (ring_links s _ _ Hring)|done|done
     |by rewrite (ring_size s _ k Hring)].
  destruct (last_is_Some ((x, c) :: l).*1) as [_ [xl ->]]; [done|]. simpl.
  rewrite Hn. simpl.
  rewrite (find_victim_none _ _ _ _ _ l); [done|done|done|exact Hnin|].
  rewrite (ring_size s _ k Hring). simpl. lia.
Qed.

(** The only client leaves: the ring becomes empty. *)
Lemma remove_client_only s x c k :
  ring s [(x, c)] k →
  ∃ s', remove_client s c.1 = Some s' ∧ ring s' [] 0.
Proof.
  intros Hring. unfold remove_client.
  destruct (ring_head_node s x c [] k Hring)
    as (Hhead & node & y & Hx & Hfd & Hid & Hn & Hrest & _).
  simpl in Hrest. subst y.
  rewrite Hhead, Hx. simpl. rewrite Hfd, Hn, Z.eqb_refl.
  rewrite bool_decide_eq_true_2 by done. simpl.
  eexists. split; [done|]. split; simpl.
  - constructor.
  - constructor.
  - rewrite dom_delete_L, (ring_dom s _ _ Hring). set_solver.
  - done.
  - done.
  - by right.
  - done.
Qed.

Lemma list_to_set_remove (l1 l2 : list loc) t :
  t ∉ l1 → t ∉ l2 →
  (list_to_set (l1 ++ t :: l2) : gset loc) ∖ {[t]} = list_to_set (l1 ++ l2).
Proof.
  intros H1 H2. rewrite !list_to_set_app_L, list_to_set_cons.
  apply (not_elem_of_list_to_set (C := gset loc)) in H1, H2.
  revert H1 H2. generalize (list_to_set l1 : gset loc).
  generalize (list_to_set l2 : gset loc). intros X2 X1 H1 H2. set_solver.
Qed.

Lemma last_fmap_snoc (l0 : list (loc * (Z * string))) e :
  last (l0 ++ [e]).*1 = Some e.1.
Proof. rewrite fmap_app. simpl. apply last_snoc. Qed.

Lemma split_last (l : list (loc * (Z * string))) :
  l ≠ [] → ∃ l0 e, l = l0 ++ [e].
Proof.
  intros Hne. destruct (last_is_Some l) as [_ [e He]]; [done|].
  apply last_Some in He as [l0 ->]. by exists l0, e.
Qed.

(** The head leaves a ring of several clients: its successor becomes the
    head, the tail is linked to it, and a cursor on the old head moves on. *)
Lemma remove_client_head s x c l k :
  ring s ((x, c) :: l) k → l ≠ [] →
  ∃ s' k', remove_client s c.1 = Some s' ∧ ring s' l k'.
Proof.
  intros Hring Hne. unfold remove_client.
  destruct (ring_head_node s x c l k Hring)
    as (Hhead & node & y & Hx & Hfd & Hid & Hn & Hrest & Hxl).
  destruct (ring_tail_nodup s x c l k Hring) as (Hnd & Hfds & _).
  destruct (split_last l Hne) as (l0 & [xl cl] & ->).
  assert ((l0 ++ [(xl, cl)]).*1 !! 0%nat = Some y) as Hy0.
  { destruct l0 as [|[y0 c0] l0]; simpl in Hrest; by destruct Hrest as [-> _]. }
  assert (y ∈ (l0 ++ [(xl, cl)]).*1) as Hy by by eapply list_elem_of_lookup_2.
  assert (y ≠ x) as Hyx by (intros ->; done).
  rewrite Hhead, Hx. simpl. rewrite Hfd, Hn, Z.eqb_refl.
  rewrite bool_decide_eq_false_2 by congruence. simpl.
  rewrite (find_last_spec _ _ _ _ ((x, c) :: l0 ++ [(xl, cl)]));
    [|by apply (ring_links s _ _ Hring)|done|done
     |by rewrite (ring_size s _ k Hring)].
  rewrite (app_comm_cons l0 _ (x, c)), last_fmap_snoc. simpl.
  apply lseg_app in Hrest as (m & Hs0 & Hs1).
  simpl in Hs1. destruct Hs1 as (-> & nl & x' & Hl & Hfl & Hul & Hnl & Hx').
  subst x'.
  assert (xl ≠ x) as Hlx.
  { intros ->. apply Hxl. rewrite fmap_app. set_solver. }
  assert (xl ∉ l0.*1) as Hl0.
  { rewrite fmap_app in Hnd. apply NoDup_app in Hnd as (_ & Hnd1 & _).
    intros Hin. apply (Hnd1 xl Hin). set_solver. }
  assert (x ∉ l0.*1) as Hx0.
  { intros Hin. apply Hxl. rewrite fmap_app. set_solver. }
  set (h' := delete x (alter (set_next (Some y)) xl (nodes s))).
  assert (lseg h' y (l0 ++ [(xl, cl)]) y) as Hseg'.
  { apply lseg_app. exists xl. split.
    - eapply lseg_frame; [|exact Hs0]. intros z nz Hz Hnz.
      exists nz. split; [|done]. unfold h'.
      rewrite lookup_delete_ne by (intros <-; done).
      rewrite lookup_alter_ne; [done|]. by intros <-.
    - simpl. split; [done|]. exists (set_next (Some y) nl), y. unfold h'.
      rewrite lookup_delete_ne by done.
      rewrite lookup_alter_eq, Hl. done. }
  assert (∃ z, (if bool_decide (current s = Some x) then Some y else current s)
               = Some z ∧ z ∈ (l0 ++ [(xl, cl)]).*1) as (z & Hcur & Hz).
  { case_bool_decide as Hc; [by exists y|].
    pose proof (ring_current s _ _ Hring) as Hk.
    destruct (ring_cursor s _ _ Hring) as [Hlt|[? _]]; [|done].
    destruct k as [|k]; [by rewrite Hk in Hc|].
    rewrite fmap_cons in Hk. simpl in Hk.
    destruct ((l0 ++ [(xl, cl)]).*1 !! k) as [z|] eqn:Hz.
    - exists z. split; [done|]. by eapply list_elem_of_lookup_2.
    - apply lookup_ge_None in Hz. rewrite length_fmap in Hz. simpl in Hlt. lia. }
  assert (dom h' = list_to_set (l0 ++ [(xl, cl)]).*1) as Hdom.
  { unfold h'. rewrite dom_delete_L, dom_alter_L, (ring_dom s _ _ Hring).
    rewrite fmap_cons. apply (list_to_set_remove [] _ x); [|done].
    apply not_elem_of_nil. }
  pose proof (ring_intro
    (mkScheduler h' (Some y)
       (if bool_decide (current s = Some x) then Some y else current s)
       (int_wrap (client_count s - 1)) (time_quantum_ms s))
    (l0 ++ [(xl, cl)]) z Hnd Hfds) as Hintro.
  cbn [nodes head current] in Hintro.
  destruct (Hintro Hdom (eq_sym Hy0) Hcur Hz) as [k' Hring'].
  - intros hd [= <-]. exact Hseg'.
  - eexists _, k'. split; [reflexivity|exact Hring'].
Qed.

Lemma NoDup_remove_mid {A} (l1 l2 : list A) a :
  NoDup (l1 ++ a :: l2) → NoDup (l1 ++ l2) ∧ a ∉ l1 ∧ a ∉ l2.
Proof.
  intros (H1 & Hdisj & [Ha H2]%NoDup_cons)%NoDup_app. split_and!.
  - apply NoDup_app. split_and!; [done| |done].
    intros y Hy Hy'. apply (Hdisj y Hy). by right.
  - intros Hin. apply (Hdisj a Hin). by left.
  - done.
Qed.

Lemma lseg_first h p l q x c :
  lseg h p l q → l !! 0%nat = Some (x, c) → p = x.
Proof. destruct l as [|[x' c'] l]; [done|]. by intros [-> _] [= -> _]. Qed.

(** A client other than the head leaves: its predecessor is linked to its
    successor, and a cursor on the removed node moves on. *)
Lemma remove_client_inner s l1 t ct lb k :
  ring s (l1 ++ (t, ct) :: lb) k → l1 ≠ [] →
  ∃ s' k', remove_client s ct.1 = Some s' ∧ ring s' (l1 ++ lb) k'.
Proof.
  intros Hring Hne.
  pose proof (ring_nodup s _ _ Hring) as Hnd.
  pose proof (ring_fds s _ _ Hring) as Hfds.
  rewrite fmap_app, fmap_cons in Hnd. rewrite !fmap_app, !fmap_cons in Hfds.
  apply NoDup_remove_mid in Hnd as (Hnd & Ht1 & Htb).
  apply NoDup_remove_mid in Hfds as (Hfds & Hf1 & Hfb).
  simpl in Ht1, Htb, Hf1, Hfb.
  destruct (split_last l1 Hne) as (pre & [p cp] & Hpre).
  destruct l1 as [|[x c] la]; [done|].
  pose proof (ring_head s _ _ Hring) as Hhead. simpl in Hhead.
  pose proof (ring_links s _ _ Hring x Hhead) as Hfull.
  (* the nodes around the one that leaves *)
  pose proof Hfull as Hparts. rewrite Hpre in Hparts.
  apply lseg_app in Hparts as (m1 & Hs1 & Hs2).
  apply lseg_app in Hs1 as (m2 & Hs0 & Hsp).
  simpl in Hsp. destruct Hsp as (-> & pnode & tx & Hp & Hpf & Hpu & Hpn & <-).
  simpl in Hs2. destruct Hs2 as (-> & tnode & nt & Ht & Htf & Htu & Htn & Hsb).
  (* the walk of the code *)
  destruct Hfull as (_ & node & y & Hx & Hfd & Hid & Hn & Hrest).
  assert (c.1 ≠ ct.1) as Hcfd.
  { intros Heq. apply Hf1. rewrite !fmap_cons. simpl. rewrite Heq. by left. }
  assert (ct.1 ∉ (la.*2).*1) as Hla.
  { intros Hin. apply Hf1. rewrite !fmap_cons. by right. }
  assert (x ≠ t) as Hxt.
  { intros ->. apply Ht1. rewrite fmap_cons. by left. }
  unfold remove_client. rewrite Hhead, Hx. simpl. rewrite Hfd.
  destruct (Z.eqb_spec c.1 ct.1) as [|_]; [done|]. rewrite andb_false_r.
  pose proof (ring_nodup s _ _ Hring) as Hndfull.
  rewrite <- app_comm_cons, fmap_cons in Hndfull.
  apply NoDup_cons in Hndfull as [Hxrest _].
  rewrite (find_last_spec _ _ _ _ ((x, c) :: la ++ (t, ct) :: lb));
    [|by apply (ring_links s _ _ Hring)|done|done
     |by rewrite (ring_size s _ k Hring)].
  destruct (last_is_Some ((x, c) :: la ++ (t, ct) :: lb).*1) as [_ [xl ->]];
    [done|]. simpl.
  rewrite Hn. simpl.
  rewrite (find_victim_some _ _ _ _ _ la t ct lb);
    [|done|done|done|done|].
  2:{ rewrite (ring_size s _ k Hring). simpl. rewrite length_app. lia. }
  simpl. rewrite Ht. simpl.
  assert (default x (last la.*1) = p) as ->.
  { assert (last ((x, c) :: la).*1 = Some p) as Hlast
      by (rewrite Hpre; apply last_fmap_snoc).
    rewrite fmap_cons, last_cons in Hlast. simpl in Hlast.
    destruct (last la.*1); by injection Hlast as ->. }
  rewrite Htn.
  set (h' := delete t (alter (set_next (Some nt)) p (nodes s))).
  (* the nodes that stay are pairwise different and none of them is [t] *)
  assert (p ∈ ((x, c) :: la).*1) as Hpin.
  { rewrite Hpre, fmap_app. apply elem_of_app. right. by left. }
  assert (p ≠ t) as Hpt by (intros ->; done).
  assert (NoDup (pre.*1 ++ [p]) ∧ ∀ z, z ∈ lb.*1 → z ∉ pre.*1 ∧ z ≠ p)
    as [Hndp Hlb].
  { rewrite Hpre, fmap_app in Hnd. simpl in Hnd.
    apply NoDup_app in Hnd as (Hndp & Hdisj & _). split; [done|].
    intros z Hz. split.
    - intros Hin. apply (Hdisj z); [|done]. apply elem_of_app. by left.
    - intros ->. apply (Hdisj p); [|done]. apply elem_of_app. right. by left. }
  assert (p ∉ pre.*1) as Hppre.
  { apply NoDup_app in Hndp as (_ & Hdisj & _).
    intros Hin. apply (Hdisj p Hin). by left. }
  assert (∀ z, z ∈ pre.*1 → z ≠ t) as Hpret.
  { intros z Hz ->. apply Ht1. rewrite Hpre, fmap_app.
    apply elem_of_app. by left. }
  assert (lseg h' x (((x, c) :: la) ++ lb) x) as Hseg'.
  { rewrite Hpre, <- app_assoc. apply lseg_app. exists p. split.
    - eapply lseg_frame; [|exact Hs0]. intros z nz Hz Hnz.
      exists nz. split; [|done]. unfold h'.
      rewrite lookup_delete_ne by (intros <-; by apply (Hpret t)).
      rewrite lookup_alter_ne; [done|]. by intros <-.
    - simpl. split; [done|]. exists (set_next (Some nt) pnode), nt. unfold h'.
      rewrite lookup_delete_ne by done.
      rewrite lookup_alter_eq, Hp. split_and!; try done.
      eapply lseg_frame; [|exact Hsb]. intros z nz Hz Hnz.
      exists nz. split; [|done].
      rewrite lookup_delete_ne by (intros <-; done).
      rewrite lookup_alter_ne; [done|]. intros <-. by apply (Hlb p). }
  assert (dom h' = list_to_set (((x, c) :: la) ++ lb).*1) as Hdom.
  { unfold h'. rewrite dom_delete_L, dom_alter_L, (ring_dom s _ _ Hring).
    rewrite !fmap_app, fmap_cons. by apply list_to_set_remove. }
  assert (nt ∈ (((x, c) :: la) ++ lb).*1) as Hnt.
  { destruct lb as [|[b cb] lb]; simpl in Hsb.
    - subst nt. rewrite app_nil_r, fmap_cons. by left.
    - destruct Hsb as [-> _]. rewrite fmap_app. apply elem_of_app. right.
      rewrite fmap_cons. by left. }
  assert (∃ z, (if bool_decide (current s = Some t) then Some nt else current s)
               = Some z ∧ z ∈ (((x, c) :: la) ++ lb).*1) as (z & Hcur & Hz).
  { case_bool_decide as Hc; [by exists nt|].
    pose proof (ring_current s _ _ Hring) as Hk.
    destruct (ring_cursor s _ _ Hring) as [Hlt|[? _]]; [|done].
    destruct ((((x, c) :: la) ++ (t, ct) :: lb).*1 !! k) as [z|] eqn:Hzk.
    - exists z. split; [done|].
      apply list_elem_of_lookup_2 in Hzk.
      rewrite fmap_app, fmap_cons in Hzk. rewrite fmap_app.
      apply elem_of_app in Hzk as [?|Hzk]; [apply elem_of_app; by left|].
      apply elem_of_cons in Hzk as [->|?]; [by rewrite Hk in Hc|].
      apply elem_of_app. by right.
    - apply lookup_ge_None in Hzk. rewrite length_fmap in Hzk. lia. }
  pose proof (ring_intro
    (mkScheduler h' (Some x)
       (if bool_decide (current s = Some t) then Some nt else current s)
       (int_wrap (client_count s - 1)) (time_quantum_ms s))
    (((x, c) :: la) ++ lb) z) as Hintro.
  cbn [nodes head current] in Hintro.
  assert (NoDup (((x, c) :: la) ++ lb).*1) as Hnd' by by rewrite fmap_app.
  assert (NoDup ((((x, c) :: la) ++ lb).*2).*1) as Hfds'
    by by rewrite !fmap_app.
  destruct (Hintro Hnd' Hfds' Hdom eq_refl Hcur Hz) as [k' Hring'].
  - intros hd [= <-]. exact Hseg'.
  - eexists _, k'. split; [reflexivity|exact Hring'].
Qed.

(** [remove_client] always returns on a ring, and leaves the ring without
    the client removed. *)
Lemma remove_client_ring s l k fd :
  ring s l k →
  ∃ s' k', remove_client s fd = Some s' ∧
           ring s' (filter (λ e, e.2.1 ≠ fd) l) k'.
Proof.
  intros Hring.
  destruct (decide (fd ∈ (l.*2).*1)) as [Hin|Hnin].
  - apply list_elem_of_fmap in Hin as (cx & -> & Hin).
    apply list_elem_of_fmap in Hin as ([t ct] & -> & Hin).
    apply list_elem_of_split in Hin as (l1 & lb & ->). simpl.
    pose proof (ring_fds s _ _ Hring) as Hfds.
    rewrite !fmap_app, !fmap_cons in Hfds.
    apply NoDup_remove_mid in Hfds as (_ & Hf1 & Hfb). simpl in Hf1, Hfb.
    rewrite filter_app, filter_cons_False by naive_solver.
    rewrite !filter_fd_all by done.
    destruct l1 as [|e l1].
    + destruct lb as [|e lb].
      * destruct (remove_client_only s t ct k Hring) as (s' & Hrm & Hring').
        by exists s', 0%nat.
      * by apply (remove_client_head s t ct (e :: lb) k).
    + by apply (remove_client_inner s (e :: l1) t ct lb k).
  - exists s, k. rewrite filter_fd_all by done.
    split; [by eapply remove_client_absent|done].
Qed.

(** *** Round robin *)

(** C5. On a fresh scheduler, registering clients with pairwise different
    descriptors succeeds.  If none was registered, [get_next_client] returns
    [nullptr] and changes nothing.  Otherwise N + 1 successive calls return
    the N clients in the order they were added, then the first one again,
    and the node read through every returned pointer carries the clock value
    of its call.  In any scheduler a call returns the node under the cursor,
    writes the clock value into it and moves the cursor to that node's
    successor. *)
Theorem get_next_client_round_robin q s0 cs nows :
  RoundRobinScheduler_new q = Some s0 →
  NoDup cs.*1 →
  length nows = S (length cs) →
  ∃ s,
    add_clients s0 cs = Some s ∧
    (cs = [] → ∀ now, get_next_client s now = Some (None, s)) ∧
    (cs ≠ [] → ∃ s',
       get_next_clients s nows =
         Some (zip_with scheduled (cs ++ take 1 cs) nows, s')) ∧
    (∀ t now, current t = None → get_next_client t now = Some (None, t)) ∧
    (∀ t now p node, current t = Some p → nodes t !! p = Some node →
       get_next_client t now =
         Some (Some p,
               mkScheduler (<[p := set_last_scheduled now node]> (nodes t))
                           (head t) (next node)
                           (client_count t) (time_quantum_ms t))).
Proof.
  intros Hnew Hnd Hlen.
  destruct (add_clients_ring s0 [] 0 cs (ring_new q s0 Hnew) Hnd)
    as (l & s & Hadd & Hring & Hl).
  rewrite app_nil_l in Hring.
  exists s. split_and!.
  - done.
  - intros ->. apply fmap_nil_inv in Hl as ->. intros now.
    by apply (get_next_client_empty s 0%nat).
  - intros Hne.
    assert (length l = length cs) as Hll by by rewrite <- Hl, length_fmap.
    rewrite <- (take_drop (length cs) nows).
    assert (length (take (length cs) nows) = length cs) as Hl1
      by (rewrite length_take; lia).
    destruct (drop (length cs) nows) as [|nowN [|? ?]] eqn:Hdrop;
      try (apply (f_equal length) in Hdrop; rewrite length_drop in Hdrop;
           simpl in Hdrop; lia).
    rewrite get_next_clients_app.
    destruct (get_next_clients_segment s l 0 (take (length cs) nows) Hring)
      as (s1 & Hfirst & Hring1); [lia|].
    rewrite Hfirst. cbn [mbind option_bind].
    rewrite decide_True in Hring1 by lia.
    destruct (get_next_clients_segment s1 l 0 [nowN] Hring1)
      as (s2 & Hsecond & _).
    { destruct l; [by destruct cs|simpl; lia]. }
    rewrite Hsecond. simpl. exists s2. do 2 f_equal.
    rewrite Hl1, drop_0, Hl, zip_with_app by done.
    by rewrite take_ge by lia.
  - intros t now Hcur. unfold get_next_client. by rewrite Hcur.
  - intros t now p node Hcur Hnode. unfold get_next_client.
    by rewrite Hcur, Hnode.
Qed.

Lemma get_next_client_round_robin_witness :
  ∃ s s',
    add_clients (mkScheduler ∅ None None 0 100)
                [(4, "alice"); (5, "bob"); (7, "carol")] = Some s ∧
    get_next_clients s [10; 11; 12; 13] =
      Some ([Some (4, "alice", 10); Some (5, "bob", 11);
             Some (7, "carol", 12); Some (4, "alice", 13)], s').
Proof.
  destruct (get_next_client_round_robin 100 (mkScheduler ∅ None None 0 100)
              [(4, "alice"); (5, "bob"); (7, "carol")] [10; 11; 12; 13])
    as (s & Hadd & _ & Hpoll & _).
  - reflexivity.
  - apply (bool_decide_unpack _). vm_compute. exact I.
  - reflexivity.
  - destruct Hpoll as [s' Hpoll]; [discriminate|].
    exists s, s'. split; [exact Hadd|exact Hpoll].
Defined.

(** *** The cursor and the counter *)

Lemma ring_lookup_node s l k i p c :
  ring s l k → l !! i = Some (p, c) →
  ∃ node, nodes s !! p = Some node ∧ socket_fd node = c.1 ∧ user_id node = c.2 ∧
          next node = (l.*1 ++ take 1 l.*1) !! S i.
Proof.
  intros Hring Hi. destruct l as [|[x c0] l]; [done|].
  pose proof (ring_head s _ _ Hring) as Hhead. simpl in Hhead.
  pose proof (ring_links s _ _ Hring x Hhead) as Hseg.
  destruct (lseg_lookup _ _ _ _ _ _ _ Hseg Hi) as (node & Hp & Hfd & Hid & Hn).
  exists node. split_and!; try done.
Qed.

Lemma ring_lookup_unique s l k i j p c c' :
  ring s l k → l !! i = Some (p, c) → l !! j = Some (p, c') → i = j ∧ c = c'.
Proof.
  intros Hring Hi Hj.
  assert (i = j) as ->.
  { apply (NoDup_lookup l.*1 i j p); [apply (ring_nodup s _ _ Hring)|..];
      rewrite list_lookup_fmap; [by rewrite Hi|by rewrite Hj]. }
  split; [done|]. congruence.
Qed.

Lemma ring_fd_unique s l k i j p c p' c' :
  ring s l k → l !! i = Some (p, c) → l !! j = Some (p', c') → c.1 = c'.1 →
  i = j.
Proof.
  intros Hring Hi Hj Heq.
  apply (NoDup_lookup (l.*2).*1 i j c.1); [apply (ring_fds s _ _ Hring)|..];
    rewrite !list_lookup_fmap; [by rewrite Hi|by rewrite Hj, Heq].
Qed.

Lemma ring_cursor_lookup s l k z c :
  ring s l k → current s = Some z → (z, c) ∈ l → l !! k = Some (z, c).
Proof.
  intros Hring Hcur Hin.
  pose proof (ring_current s _ _ Hring) as Hk. rewrite Hcur in Hk.
  symmetry in Hk. rewrite list_lookup_fmap in Hk.
  destruct (l !! k) as [[z' c']|] eqn:Hlk; [|done]. simpl in Hk.
  injection Hk as ->.
  apply list_elem_of_lookup in Hin as [j Hj].
  by destruct (ring_lookup_unique s l k k j z c' c Hring Hlk Hj) as [_ ->].
Qed.

Lemma ring_node_lookup s l k t tnode :
  ring s l k → nodes s !! t = Some tnode →
  ∃ i, l !! i = Some (t, (socket_fd tnode, user_id tnode)).
Proof.
  intros Hring Ht.
  assert (t ∈ l.*1) as Hin.
  { assert (t ∈ dom (nodes s)) as Hd by (apply elem_of_dom; eauto).
    rewrite (ring_dom s _ _ Hring) in Hd. by apply elem_of_list_to_set in Hd. }
  apply list_elem_of_fmap in Hin as ([t' [fd uid]] & -> & Hin).
  apply list_elem_of_lookup in Hin as [i Hi]. exists i.
  destruct (ring_lookup_node s l k i _ _ Hring Hi) as (node & Hn & Hfd & Hid & _).
  simpl in *. rewrite Ht in Hn. injection Hn as <-. by rewrite Hfd, Hid.
Qed.

Lemma find_victim_found fuel h hd prev temp fd p t :
  find_victim fuel h hd prev temp fd = Some (Some (p, t)) →
  ∃ node, h !! t = Some node ∧ socket_fd node = fd.
Proof.
  revert prev temp. induction fuel as [|fuel IH]; intros prev temp; [done|].
  simpl. case_decide; [done|].
  destruct (h !! temp) as [node|] eqn:Hnode; [|done].
  destruct (Z.eqb_spec (socket_fd node) fd) as [Hfd|_].
  - intros [= <- <-]. eauto.
  - destruct (next node); [|done]. apply IH.
Qed.

(** The three ways [remove_client] returns. *)
Lemma remove_client_cases s fd s' :
  remove_client s fd = Some s' →
  s' = s ∨
  (∃ hd hnode, head s = Some hd ∧ nodes s !! hd = Some hnode ∧
     next hnode = Some hd ∧ socket_fd hnode = fd ∧
     s' = mkScheduler (delete hd (nodes s)) None None 0 (time_quantum_ms s)) ∨
  (∃ t tnode, nodes s !! t = Some tnode ∧ socket_fd tnode = fd ∧
     current s' = (if bool_decide (current s = Some t) then next tnode
                   else current s) ∧
     client_count s' = int_wrap (client_count s - 1)).
Proof.
  unfold remove_client. destruct (head s) as [hd|] eqn:Hhead.
  2:{ intros [= <-]. by left. }
  destruct (nodes s !! hd) as [hnode|] eqn:Hnode; [|done]. simpl.
  case_bool_decide as Hself; simpl.
  - destruct (Z.eqb_spec (socket_fd hnode) fd) as [Hfd|Hfd].
    + intros [= <-]. right. left. eauto 10.
    + destruct (find_last _ _ _ _) as [last|]; [|done]. simpl.
      rewrite Hself. simpl.
      destruct (find_victim _ _ _ _ _ _) as [[[prev temp]|]|] eqn:Hv;
        simpl; [| |done].
      * destruct (find_victim_found _ _ _ _ _ _ _ _ Hv) as (tnode & Ht & Htfd).
        rewrite Ht. simpl. intros [= <-]. right. right.
        exists temp, tnode. done.
      * intros [= <-]. by left.
  - destruct (find_last _ _ _ _) as [last|]; [|done]. simpl.
    destruct (Z.eqb_spec (socket_fd hnode) fd) as [Hfd|Hfd].
    + intros [= <-]. right. right. exists hd, hnode. done.
    + destruct (next hnode) as [first|]; [|done]. simpl.
      destruct (find_victim _ _ _ _ _ _) as [[[prev temp]|]|] eqn:Hv;
        simpl; [| |done].
      * destruct (find_victim_found _ _ _ _ _ _ _ _ Hv) as (tnode & Ht & Htfd).
        rewrite Ht. simpl. intros [= <-]. right. right.
        exists temp, tnode. done.
      * intros [= <-]. by left.
Qed.

Lemma add_client_count s fd uid s' :
  add_client s fd uid = Some s' →
  s' = s ∨ client_count s' = int_wrap (client_count s + 1).
Proof.
  unfold add_client. destruct (head s) as [hd|].
  - destruct (find_fd _ _ _ _ _) as [[]|]; simpl; [| |done].
    + intros [= <-]. by left.
    + destruct (find_last _ _ _ _); [|done]. simpl. intros [= <-]. by right.
  - simpl. intros [= <-]. by right.
Qed.

Lemma get_next_client_count s now p s' :
  get_next_client s now = Some (p, s') →
  client_count s' = client_count s ∧ time_quantum_ms s' = time_quantum_ms s.
Proof.
  unfold get_next_client. destruct (current s); [|by intros [= _ <-]].
  destruct (nodes s !! _); [|done]. simpl. by intros [= _ <-].
Qed.

Lemma filter_fd_length (l : list (loc * (Z * string))) fd :
  NoDup (l.*2).*1 → fd ∈ (l.*2).*1 →
  S (length (filter (λ e, e.2.1 ≠ fd) l)) = length l.
Proof.
  intros Hnd Hin.
  apply list_elem_of_fmap in Hin as (cx & -> & Hin).
  apply list_elem_of_fmap in Hin as ([t ct] & -> & Hin).
  apply list_elem_of_split in Hin as (l1 & lb & ->). simpl.
  rewrite !fmap_app, !fmap_cons in Hnd.
  apply NoDup_remove_mid in Hnd as (_ & Hf1 & Hfb). simpl in Hf1, Hfb.
  rewrite filter_app, filter_cons_False by naive_solver.
  rewrite !filter_fd_all by done.
  rewrite !length_app. simpl. lia.
Qed.

Lemma ring_current_None s l k : ring s l k → current s = None → l = [].
Proof.
  intros Hring Hcur. pose proof (ring_current s _ _ Hring) as Hk.
  destruct (ring_cursor s _ _ Hring) as [Hlt|[? _]]; [|done].
  rewrite Hcur in Hk. symmetry in Hk. apply lookup_ge_None in Hk.
  rewrite length_fmap in Hk. lia.
Qed.

(** Where [remove_client] leaves the cursor and the counter. *)
Lemma remove_client_cursor s l k fd :
  ring s l k →
  ∃ s' k',
    remove_client s fd = Some s' ∧
    ring s' (filter (λ e, e.2.1 ≠ fd) l) k' ∧
    (∀ p c, l !! k = Some (p, c) → c.1 ≠ fd →
       filter (λ e, e.2.1 ≠ fd) l !! k' = Some (p, c)) ∧
    (∀ p c, l !! k = Some (p, c) → c.1 = fd →
       filter (λ e, e.2.1 ≠ fd) l !! k' = (drop (S k) l ++ take k l) !! 0%nat) ∧
    (client_count s = Z.of_nat (length l) → Z.of_nat (length l) ≤ INT_MAX →
       client_count s'
         = Z.of_nat (length (filter (λ e, e.2.1 ≠ fd) l))).
Proof.
  intros Hring.
  destruct (remove_client_ring s l k fd Hring) as (s' & k' & Hrm & Hring').
  exists s', k'. split; [done|]. split; [done|].
  set (l' := filter (λ e, e.2.1 ≠ fd) l) in *.
  assert (∀ p c, (p, c) ∈ l → c.1 = fd → (length l' < length l)%nat) as Hshort.
  { intros p c Hin Hfd. apply (length_filter_lt _ _ (p, c)); [done|].
    simpl. intros Hne. by apply Hne. }
  assert (∀ p c, (p, c) ∈ l → c.1 = fd → s' ≠ s) as Hchanged.
  { intros p c Hin Hfd ->. specialize (Hshort p c Hin Hfd).
    pose proof (ring_size s _ _ Hring) as H1.
    pose proof (ring_size s _ _ Hring') as H2. lia. }
  split_and!.
  - (* the cursor was on a client that stays *)
    intros p c Hk Hne.
    assert ((p, c) ∈ l') as Hin'.
    { apply list_elem_of_filter. split; [done|]. by eapply list_elem_of_lookup_2. }
    apply (ring_cursor_lookup s' l' k' p c Hring'); [|done].
    pose proof (ring_current s _ _ Hring) as Hcur.
    rewrite list_lookup_fmap, Hk in Hcur. simpl in Hcur.
    destruct (remove_client_cases s fd s' Hrm)
      as [->|[(hd & hnode & _ & _ & _ & _ & ->)
             |(t & tnode & Ht & Htfd & Hcur' & _)]].
    + done.
    + exfalso. assert (l' = []) as Hnil by by eapply ring_current_None.
      rewrite Hnil in Hin'. by apply elem_of_nil in Hin'.
    + rewrite Hcur', Hcur. rewrite bool_decide_eq_false_2; [done|].
      intros [= ->].
      destruct (ring_lookup_node s l k k t c Hring Hk) as (node & Hn & Hfd & _).
      congruence.
  - (* the cursor was on the client that leaves *)
    intros p c Hk Hfd.
    assert ((p, c) ∈ l) as Hin by by eapply list_elem_of_lookup_2.
    pose proof (ring_current s _ _ Hring) as Hcur.
    rewrite list_lookup_fmap, Hk in Hcur. simpl in Hcur.
    pose proof (lookup_lt_Some _ _ _ Hk) as Hlt.
    destruct (remove_client_cases s fd s' Hrm)
      as [->|[(hd & hnode & _ & Hhd & _ & _ & ->)
             |(t & tnode & Ht & Htfd & Hcur' & _)]].
    + by destruct (Hchanged p c Hin Hfd).
    + assert (l' = []) as Hnil by by eapply ring_current_None.
      rewrite Hnil. simpl.
      pose proof (ring_size s _ _ Hring) as H1.
      pose proof (ring_size _ _ _ Hring') as H2. cbn [nodes] in H2.
      rewrite map_size_delete_Some in H2 by eauto.
      rewrite Hnil in H2. simpl in H2.
      assert (length l = 1%nat) as Hone by lia.
      assert (k = 0%nat) as -> by lia.
      destruct l as [|? [|??]]; simpl in Hone; try lia. done.
    + destruct (ring_node_lookup s l k t tnode Hring Ht) as (i & Hi).
      assert (i = k) as ->.
      { eapply (ring_fd_unique s l k i k); eauto. simpl. congruence. }
      rewrite Hk in Hi. injection Hi as -> Hc.
      destruct (ring_lookup_node s l k k t c Hring Hk)
        as (node & Hn & _ & _ & Hnext).
      rewrite Ht in Hn. injection Hn as <-.
      rewrite Hcur, bool_decide_eq_true_2, Hnext in Hcur' by done.
      pose proof (ring_current _ _ _ Hring') as Hk'. rewrite Hcur' in Hk'.
      assert (∀ j z cz, l !! j = Some (z, cz) → j ≠ k →
                l'.*1 !! k' = Some z → l' !! k' = Some (z, cz)) as Hsucc.
      { intros j z cz Hj Hjk Hz.
        apply (ring_cursor_lookup s' l' k' z cz Hring').
        - by rewrite (ring_current _ _ _ Hring').
        - apply list_elem_of_filter. split; [|by eapply list_elem_of_lookup_2].
          simpl. intros Hcz. apply Hjk.
          eapply (ring_fd_unique s l k j k); eauto. congruence. }
      destruct (decide (S k < length l)%nat) as [Hin2|Hend].
      * rewrite lookup_app_l by (rewrite length_drop; lia).
        rewrite lookup_drop, Nat.add_0_r.
        rewrite lookup_app_l in Hk' by (rewrite length_fmap; lia).
        rewrite list_lookup_fmap in Hk'.
        destruct (lookup_lt_is_Some_2 l (S k) Hin2) as [[z cz] Hz].
        rewrite Hz in Hk' |- *. simpl in Hk'.
        apply (Hsucc (S k)); [done|lia|done].
      * rewrite drop_ge by lia. simpl.
        rewrite lookup_app_r in Hk' by (rewrite length_fmap; lia).
        rewrite length_fmap in Hk'.
        replace (S k - length l)%nat with 0%nat in Hk' by lia.
        destruct l as [|[x cx] l]; [done|]. rewrite fmap_cons in Hk'.
        simpl in Hk'. destruct k as [|k].
        -- simpl. simpl in Hlt. assert (l = []) as -> by (destruct l; simpl in *; [done|lia]).
           assert (l' = []) as Hnil.
           { unfold l'. rewrite filter_cons_False; [done|].
             simpl. intros Hne. apply Hne. simpl in Hk. congruence. }
           rewrite Hnil in Hk'. done.
        -- simpl. apply (Hsucc 0%nat); [done|lia|done].
  - (* the counter *)
    intros Hcount Hmax.
    destruct (decide (fd ∈ (l.*2).*1)) as [Hin|Hnin].
    + pose proof (filter_fd_length l fd (ring_fds s _ _ Hring) Hin) as Hlen.
      fold l' in Hlen.
      apply list_elem_of_fmap in Hin as (cx & Hcx & Hin).
      apply list_elem_of_fmap in Hin as ([t ct] & -> & Hin). simpl in Hcx.
      destruct (remove_client_cases s fd s' Hrm)
        as [->|[(hd & hnode & _ & Hhd & _ & _ & ->)
               |(t' & tnode & Ht & Htfd & _ & Hcnt)]].
      * by destruct (Hchanged t ct Hin).
      * assert (l' = []) as -> by by eapply ring_current_None. done.
      * rewrite Hcnt, Hcount, int_wrap_small by (unfold INT_MAX in *; lia). lia.
    + rewrite (remove_client_absent s l k fd Hring Hnin) in Hrm.
      injection Hrm as <-. unfold l'. by rewrite filter_fd_all.
Qed.

Lemma add_client_fresh_count s l k fd uid :
  ring s l k → fd ∉ (l.*2).*1 →
  ∃ p s', add_client s fd uid = Some s' ∧
          ring s' (l ++ [(p, (fd, uid))]) k ∧
          client_count s' = int_wrap (client_count s + 1).
Proof.
  intros Hring Hfd.
  destruct (add_client_fresh s l k fd uid Hring Hfd) as (p & s' & Hadd & Hring').
  exists p, s'. split_and!; [done..|].
  destruct (add_client_count s fd uid s' Hadd) as [->|?]; [|done].
  pose proof (ring_size s _ _ Hring) as H1.
  pose proof (ring_size s _ _ Hring') as H2.
  rewrite length_app in H2. simpl in H2. lia.
Qed.

(** X10. [add_client] in any scheduler.  A descriptor that is already
    scheduled is ignored, whatever the user name: the scheduler is left as
    it is.  A new descriptor gets a node of its own at the end of the ring,
    the clients before it and the cursor stay as they are, and the counter
    goes up by one. *)
Theorem add_client_appends_once s l k fd uid :
  ring s l k →
  (fd ∈ (l.*2).*1 → add_client s fd uid = Some s) ∧
  (fd ∉ (l.*2).*1 →
     ∃ p s', add_client s fd uid = Some s' ∧
             (p ∉ l.*1) ∧
             ring s' (l ++ [(p, (fd, uid))]) k ∧
             get_client_count s' = int_wrap (get_client_count s + 1)).
Proof.
  intros Hring. split.
  - by apply (add_client_dup s l k).
  - intros Hfd.
    destruct (add_client_fresh_count s l k fd uid Hring Hfd)
      as (p & s' & Hadd & Hring' & Hcount).
    exists p, s'. split_and!; try done.
    pose proof (ring_nodup _ _ _ Hring') as Hnd.
    rewrite fmap_app in Hnd. apply NoDup_app in Hnd as (_ & Hdisj & _).
    intros Hin. apply (Hdisj p Hin). simpl. by left.
Qed.

(** X11. [remove_client] in any scheduler.  The call returns; a descriptor
    that is not scheduled changes nothing; otherwise its client leaves the
    ring and the others keep their order.  A cursor on a client that stays
    is still on that client; a cursor on the client removed moves to the
    client that followed it in the ring, the first one after the last, so
    that removal neither skips a client nor schedules one twice. *)
Theorem remove_client_unlinks s l k fd :
  ring s l k →
  ∃ s' k',
    remove_client s fd = Some s' ∧
    ring s' (filter (λ e, e.2.1 ≠ fd) l) k' ∧
    (fd ∉ (l.*2).*1 → s' = s) ∧
    (∀ p c, l !! k = Some (p, c) → c.1 ≠ fd →
       filter (λ e, e.2.1 ≠ fd) l !! k' = Some (p, c)) ∧
    (∀ p c, l !! k = Some (p, c) → c.1 = fd →
       filter (λ e, e.2.1 ≠ fd) l !! k' = (drop (S k) l ++ take k l) !! 0%nat).
Proof.
  intros Hring.
  destruct (remove_client_cursor s l k fd Hring)
    as (s' & k' & Hrm & Hring' & Hstay & Hmove & _).
  exists s', k'. split_and!; try done.
  intros Hnin. rewrite (remove_client_absent s l k fd Hring Hnin) in Hrm.
  by injection Hrm.
Qed.

(** *** Histories *)

Lemma add_client_quantum s fd uid s' :
  add_client s fd uid = Some s' → time_quantum_ms s' = time_quantum_ms s.
Proof.
  unfold add_client. destruct (head s) as [hd|].
  - destruct (find_fd _ _ _ _ _) as [[]|]; simpl; [| |done].
    + by intros [= <-].
    + destruct (find_last _ _ _ _); [|done]. simpl. by intros [= <-].
  - simpl. by intros [= <-].
Qed.

Lemma remove_client_quantum s fd s' :
  remove_client s fd = Some s' → time_quantum_ms s' = time_quantum_ms s.
Proof.
  unfold remove_client. destruct (head s) as [hd|]; [|by intros [= <-]].
  destruct (nodes s !! hd) as [hnode|]; [|done]. simpl.
  destruct (_ && _); [by intros [= <-]|].
  destruct (find_last _ _ _ _); [|done]. simpl.
  destruct (_ =? _); [by intros [= <-]|].
  destruct (next hnode); [|done]. simpl.
  destruct (find_victim _ _ _ _ _ _) as [[[prev temp]|]|]; simpl; [| |done].
  - destruct (nodes s !! temp); [|done]. simpl. by intros [= <-].
  - by intros [= <-].
Qed.

Lemma run_ring s l k op :
  ring s l k → client_count s = Z.of_nat (length l) →
  Z.of_nat (length l) < INT_MAX →
  ∃ s' l' k', run s op = Some s' ∧ ring s' l' k' ∧
              client_count s' = Z.of_nat (length l') ∧
              time_quantum_ms s' = time_quantum_ms s ∧
              (length l' ≤ S (length l))%nat.
Proof.
  intros Hring Hcount Hmax. destruct op as [fd uid|fd|now]; simpl.
  - destruct (decide (fd ∈ (l.*2).*1)) as [Hin|Hnin].
    + exists s, l, k. rewrite (add_client_dup s l k fd uid Hring Hin).
      split_and!; try done. lia.
    + destruct (add_client_fresh_count s l k fd uid Hring Hnin)
        as (p & s' & Hadd & Hring' & Hcnt).
      exists s', (l ++ [(p, (fd, uid))]), k. split_and!; try done.
      * rewrite Hcnt, Hcount, int_wrap_small by (unfold INT_MAX in *; lia).
        rewrite length_app. simpl. lia.
      * by eapply add_client_quantum.
      * rewrite length_app. simpl. lia.
  - destruct (remove_client_cursor s l k fd Hring)
      as (s' & k' & Hrm & Hring' & _ & _ & Hcnt).
    exists s', (filter (λ e, e.2.1 ≠ fd) l), k'. split_and!; try done.
    + apply Hcnt; [done|lia].
    + by eapply remove_client_quantum.
    + pose proof (length_filter (λ e : loc * (Z * string), e.2.1 ≠ fd) l). lia.
  - destruct (l !! k) as [[p c]|] eqn:Hk.
    + destruct (get_next_client_ring s l k now p c Hring Hk)
        as (s' & Hnext & _ & Hring').
      rewrite Hnext. simpl.
      destruct (get_next_client_count s now _ s' Hnext) as [Hc Hq].
      eexists s', l, _. split_and!; try done; [congruence|lia].
    + destruct (ring_cursor s _ _ Hring) as [Hlt|[-> ->]].
      { apply lookup_ge_None in Hk. lia. }
      rewrite (get_next_client_empty s 0 now Hring). simpl.
      exists s, [], 0%nat. split_and!; try done. simpl. lia.
Qed.

Lemma runs_ring ops s l k :
  ring s l k → client_count s = Z.of_nat (length l) →
  Z.of_nat (length l + length ops) ≤ INT_MAX →
  ∃ s' l' k', runs s ops = Some s' ∧ ring s' l' k' ∧
              client_count s' = Z.of_nat (length l') ∧
              time_quantum_ms s' = time_quantum_ms s.
Proof.
  revert s l k. induction ops as [|op ops IH]; intros s l k Hring Hcount Hmax.
  - exists s, l, k. done.
  - simpl in Hmax.
    destruct (run_ring s l k op Hring Hcount ltac:(lia))
      as (s1 & l1 & k1 & Hrun & Hring1 & Hcount1 & Hq1 & Hlen1).
    destruct (IH s1 l1 k1 Hring1 Hcount1 ltac:(lia))
      as (s' & l' & k' & Hruns & Hring' & Hcount' & Hq').
    exists s', l', k'. simpl. rewrite Hrun. simpl.
    split_and!; try done. congruence.
Qed.

(** X12. Every sequence of at most [INT_MAX] calls of [add_client],
    [remove_client] and [get_next_client] on a scheduler made by the
    constructor runs to its end: no walk leaves the ring or fails to come
    back to [head], no node is read after it was deleted.  The nodes
    allocated are then exactly the nodes of the ring, [get_client_count] is
    the number of clients in it and the time quantum is the one given to the
    constructor. *)
Theorem scheduler_calls_safe q s0 ops :
  RoundRobinScheduler_new q = Some s0 →
  Z.of_nat (length ops) ≤ INT_MAX →
  ∃ s l k,
    runs s0 ops = Some s ∧
    ring s l k ∧
    get_client_count s = Z.of_nat (length l) ∧
    get_time_quantum s = q.
Proof.
  intros Hnew Hmax.
  destruct (runs_ring ops s0 [] 0 (ring_new q s0 Hnew)) as (s & l & k & H).
  - unfold RoundRobinScheduler_new in Hnew.
    destruct (q <=? 0); [done|]. by injection Hnew as <-.
  - simpl. lia.
  - exists s, l, k. destruct H as (Hruns & Hring & Hcount & Hq).
    split_and!; try done. unfold get_time_quantum. rewrite Hq.
    unfold RoundRobinScheduler_new in Hnew.
    destruct (q <=? 0); [done|]. by injection Hnew as <-.
Qed.

(** X13. Round trip: scheduling a new descriptor and removing it again
    gives back the ring as it was, cursor and counter included. *)
Theorem add_remove_round_trip s l k fd uid :
  ring s l k →
  fd ∉ (l.*2).*1 →
  get_client_count s = Z.of_nat (length l) →
  Z.of_nat (length l) < INT_MAX →
  ∃ s1 s2,
    add_client s fd uid = Some s1 ∧
    remove_client s1 fd = Some s2 ∧
    ring s2 l k ∧
    get_client_count s2 = get_client_count s.
Proof.
  intros Hring Hfd Hcount Hmax. unfold get_client_count in *.
  destruct (add_client_fresh_count s l k fd uid Hring Hfd)
    as (p & s1 & Hadd & Hring1 & Hcnt1).
  destruct (remove_client_cursor s1 _ k fd Hring1)
    as (s2 & k' & Hrm & Hring2 & Hstay & _ & Hcnt2).
  assert (filter (λ e : loc * (Z * string), e.2.1 ≠ fd) (l ++ [(p, (fd, uid))])
          = l) as Hfilter.
  { rewrite filter_app, filter_cons_False by naive_solver.
    rewrite filter_nil, app_nil_r. by apply filter_fd_all. }
  rewrite Hfilter in *.
  exists s1, s2. split_and!; [done|done| |].
  - destruct (l !! k) as [[q c]|] eqn:Hk.
    + assert (c.1 ≠ fd) as Hne.
      { intros <-. apply Hfd. apply list_elem_of_fmap. exists c. split; [done|].
        apply list_elem_of_fmap. exists (q, c). split; [done|].
        by eapply list_elem_of_lookup_2. }
      assert (l !! k' = Some (q, c)) as Hk'.
      { apply (Hstay q c); [|done]. rewrite lookup_app_l; [done|].
        by eapply lookup_lt_Some. }
      assert (k' = k) as ->; [|done].
      apply (NoDup_lookup l.*1 k' k q); [apply (ring_nodup _ _ _ Hring)|..];
        rewrite list_lookup_fmap; [by rewrite Hk'|by rewrite Hk].
    + destruct (ring_cursor s _ _ Hring) as [Hlt|[-> ->]].
      { apply lookup_ge_None in Hk. lia. }
      destruct (ring_cursor _ _ _ Hring2) as [Hlt|[_ ->]]; [simpl in Hlt; lia|].
      done.
  - rewrite Hcnt2.
    + lia.
    + rewrite Hcnt1, Hcount, int_wrap_small by (unfold INT_MAX in *; lia).
      rewrite length_app. simpl. lia.
    + rewrite length_app. simpl. lia.
Qed.

(** X14. A full turn: from any cursor position, as many calls of
    [get_next_client] as there are clients return every client exactly
    once, in ring order starting with the client under the cursor, each with
    the clock value of its call, and leave the cursor where it was. *)
Theorem get_next_client_full_turn s l k nows :
  ring s l k →
  length nows = length l →
  ∃ s',
    get_next_clients s nows
      = Some (zip_with scheduled (drop k l.*2 ++ take k l.*2) nows, s') ∧
    ring s' l k.
Proof.
  intros Hring Hlen.
  destruct (ring_cursor s _ _ Hring) as [Hlt|[-> ->]].
  2:{ destruct nows; [|done]. exists s. done. }
  rewrite <- (take_drop (length l - k) nows).
  set (n1 := take (length l - k) nows). set (n2 := drop (length l - k) nows).
  assert (length n1 = (length l - k)%nat) as Hn1
    by (unfold n1; rewrite length_take; lia).
  assert (length n2 = k) as Hn2 by (unfold n2; rewrite length_drop; lia).
  rewrite get_next_clients_app.
  destruct (get_next_clients_segment s l k n1 Hring ltac:(lia))
    as (s1 & -> & Hring1).
  rewrite decide_True in Hring1 by lia. cbn [mbind option_bind].
  destruct (get_next_clients_segment s1 l 0 n2 Hring1 ltac:(lia))
    as (s2 & -> & Hring2).
  rewrite decide_False in Hring2 by lia. cbn [mbind option_bind].
  exists s2. split; [|by rewrite Nat.add_0_l, Hn2 in Hring2].
  f_equal. f_equal.
  rewrite zip_with_app by (rewrite length_drop, length_fmap; lia).
  rewrite Hn1, Hn2. f_equal.
  rewrite take_ge; [done|]. rewrite length_drop, length_fmap. lia.
Qed.

(** *** The destructor *)

Lemma delete_all_spec fuel h hd p l :
  lseg h p l hd → l ≠ [] → NoDup l.*1 → hd ∉ (tail l).*1 →
  (length l ≤ fuel)%nat →
  ∃ h', delete_all fuel h hd p = Some h' ∧
        dom h' = dom h ∖ list_to_set l.*1.
Proof.
  revert fuel h p. induction l as [|[x c] l IH]; intros fuel h p Hseg Hne Hnd Hhd Hlen;
    [done|].
  destruct fuel as [|fuel]; [simpl in Hlen; lia|].
  simpl in Hseg. destruct Hseg as (-> & node & y & Hx & _ & _ & Hn & Hrest).
  simpl. rewrite Hx, Hn.
  rewrite fmap_cons in Hnd. apply NoDup_cons in Hnd as [Hxl Hnd].
  destruct l as [|[z cz] l].
  - simpl in Hrest. subst y. rewrite decide_True by done.
    eexists. split; [done|]. rewrite dom_delete_L. simpl. set_solver.
  - pose proof Hrest as Hy. simpl in Hy. destruct Hy as [-> _].
    rewrite decide_False by (intros ->; apply Hhd; simpl; by left).
    destruct (IH fuel (delete x h) z) as (h' & -> & Hdom).
    + eapply lseg_frame; [|exact Hrest]. intros w nw Hw Hnw.
      exists nw. split; [|done]. rewrite lookup_delete_ne; [done|].
      by intros ->.
    + done.
    + done.
    + intros Hin. apply Hhd. simpl. by right.
    + simpl in *. lia.
    + exists h'. split; [done|]. rewrite Hdom, dom_delete_L.
      simpl. set_solver.
Qed.

(** X15. The destructor frees every node: whatever was scheduled, it
    returns, no node stays allocated, and none is deleted twice or read
    after it was deleted.  When a client was scheduled, [head] and
    [current] are reset to [nullptr] and the counter to 0.  On an empty
    scheduler the destructor returns at its first test and touches no
    member: the counter keeps the value it had.  The time quantum is kept
    in both cases. *)
Theorem destroy_frees_all s l k :
  ring s l k →
  ∃ s',
    destroy s = Some s' ∧ nodes s' = ∅ ∧ ring s' [] 0 ∧
    Scheduler.head s' = None ∧ current s' = None ∧
    get_time_quantum s' = get_time_quantum s ∧
    (l ≠ [] → get_client_count s' = 0) ∧
    (l = [] → s' = s).
Proof.
  intros Hring. unfold destroy.
  destruct l as [|[x c] l].
  - pose proof (ring_head s _ _ Hring) as Hhead. simpl in Hhead. rewrite Hhead.
    exists s. split; [done|].
    assert (nodes s = ∅) as Hempty.
    { apply dom_empty_inv_L. by rewrite (ring_dom s _ _ Hring). }
    split; [done|].
    destruct (ring_cursor s _ _ Hring) as [Hlt|[_ ->]]; [simpl in Hlt; lia|].
    split_and!; try done.
    by rewrite (ring_current s _ _ Hring).
  - pose proof (ring_head s _ _ Hring) as Hhead. simpl in Hhead. rewrite Hhead.
    destruct (ring_head_tail s x c l k x Hring Hhead) as [_ Hx].
    destruct (delete_all_spec (stdpp.base.size (nodes s)) (nodes s) x x
                ((x, c) :: l)) as (h' & -> & Hdom).
    + by apply (ring_links s _ _ Hring).
    + done.
    + apply (ring_nodup s _ _ Hring).
    + done.
    + by rewrite (ring_size s _ k Hring).
    + simpl. eexists. split; [done|].
      assert (h' = ∅) as ->.
      { apply dom_empty_inv_L. rewrite Hdom, (ring_dom s _ _ Hring). set_solver. }
      split_and!; try done.
      split; simpl; try done.
      all: first [apply NoDup_nil_2 | by rewrite dom_empty_L | by right].
Qed.

(** *** print_schedule *)

Lemma schedule_lines_spec fuel h hd cur p l position :
  lseg h p l hd → l ≠ [] → hd ∉ (tail l).*1 → (length l ≤ fuel)%nat →
  0 ≤ position → position + Z.of_nat (length l) ≤ INT_MAX + 1 →
  schedule_lines fuel h hd cur p position =
    Some (imap (λ i e, schedule_line (position + Z.of_nat i) e.2.2 e.2.1
                         (bool_decide (Some e.1 = cur))) l).
Proof.
  revert fuel p position.
  induction l as [|[x c] l IH]; intros fuel p position Hseg Hne Hhd Hlen Hpos Hmax;
    [done|].
  destruct fuel as [|fuel]; [simpl in Hlen; lia|].
  simpl in Hseg. destruct Hseg as (-> & node & y & Hx & Hfd & Hid & Hn & Hrest).
  simpl. rewrite Hx, Hn, Hfd, Hid, Z.add_0_r.
  destruct l as [|[z cz] l].
  - simpl in Hrest. subst y. by rewrite decide_True.
  - pose proof Hrest as Hy. simpl in Hy. destruct Hy as [-> _].
    rewrite decide_False by (intros ->; apply Hhd; simpl; by left).
    assert (int_wrap (position + 1) = position + 1) as Hw.
    { apply int_wrap_small. cbn [length] in Hmax. unfold INT_MAX in *. lia. }
    rewrite (IH fuel z (int_wrap (position + 1))).
    + rewrite Hw. cbn [fmap option_fmap option_map]. do 2 f_equal.
      apply imap_ext. intros i e _. unfold compose.
      replace (position + 1 + Z.of_nat i) with (position + Z.of_nat (S i)) by lia.
      done.
    + done.
    + done.
    + intros Hin. apply Hhd. simpl. by right.
    + cbn [length] in *. lia.
    + lia.
    + rewrite Hw. cbn [length] in *. lia.
Qed.

(** X16. [print_schedule] writes one line for an empty scheduler.
    Otherwise it writes a heading and then one line for every client, in
    ring order from [head], numbered from 0, with the client's name and
    descriptor; the line of the client under the cursor, and no other, ends
    in the mark [<- CURRENT]. *)
Theorem print_schedule_lists_ring s l k :
  ring s l k →
  Z.of_nat (length l) ≤ INT_MAX →
  print_schedule s =
    Some (if decide (l = []) then ["[Scheduler] No clients scheduled"]
          else "[Scheduler] Current schedule (Round-Robin):"
               :: imap (λ i e, schedule_line (Z.of_nat i) e.2.2 e.2.1
                                 (bool_decide (i = k))) l).
Proof.
  intros Hring Hmax. unfold print_schedule.
  pose proof (ring_head s _ _ Hring) as Hhead.
  destruct l as [|[x c] l]; simpl in Hhead; rewrite Hhead; [done|].
  rewrite decide_False by done.
  destruct (ring_head_tail s x c l k x Hring Hhead) as [_ Hx].
  rewrite (schedule_lines_spec _ _ _ _ _ ((x, c) :: l));
    [|by apply (ring_links s _ _ Hring)|done|done
     |by rewrite (ring_size s _ k Hring)|done|unfold INT_MAX in *; lia].
  cbn [fmap option_fmap option_map]. do 2 f_equal.
  apply imap_ext. intros i [p e] Hi. cbn [fst snd]. rewrite Z.add_0_l. f_equal.
  apply bool_decide_ext.
  rewrite (ring_current s _ _ Hring). split.
  - intros Hp. symmetry in Hp.
    apply (NoDup_lookup ((x, c) :: l).*1 i k p);
      [apply (ring_nodup s _ _ Hring)| |done].
    rewrite list_lookup_fmap, Hi. done.
  - intros <-. rewrite list_lookup_fmap, Hi. done.
Qed.

(** *** Examples *)

Lemma demo_scheduler_ring :
  ∃ p1 p2 p3,
    ring demo_scheduler [(p1, (4, "alice")); (p2, (5, "bob")); (p3, (7, "carol"))] 1.
Proof.
  destruct (add_clients_ring (mkScheduler ∅ None None 0 100) [] 0
              [(4, "alice"); (5, "bob"); (7, "carol")])
    as (l & s & Hadd & Hring & Hl).
  - by apply (ring_new 100).
  - apply (bool_decide_unpack _). vm_compute. exact I.
  - simpl in Hring.
    destruct l as [|[p1 c1] [|[p2 c2] [|[p3 c3] [|??]]]]; try done.
    simpl in Hl. injection Hl as -> -> ->.
    destruct (get_next_client_ring s _ 0 10 p1 (4, "alice") Hring eq_refl)
      as (s' & Hnext & _ & Hring').
    exists p1, p2, p3. unfold demo_scheduler. rewrite Hadd. simpl.
    rewrite Hnext. simpl. exact Hring'.
Qed.

Lemma add_client_appends_once_witness :
  add_client demo_scheduler 5 "eve" = Some demo_scheduler.
Proof.
  destruct demo_scheduler_ring as (p1 & p2 & p3 & Hring).
  destruct (add_client_appends_once demo_scheduler _ 1 5 "eve" Hring)
    as [Hdup _].
  apply Hdup. simpl. right. left.
Defined.

Lemma remove_client_unlinks_witness :
  ∃ l s' k',
    l.*2 = [(4, "alice"); (5, "bob"); (7, "carol")] ∧
    remove_client demo_scheduler 5 = Some s' ∧
    ring s' (filter (λ e, e.2.1 ≠ 5) l) k' ∧
    (filter (λ e, e.2.1 ≠ 5) l).*2 = [(4, "alice"); (7, "carol")] ∧
    (filter (λ e, e.2.1 ≠ 5) l).*2 !! k' = Some (7, "carol").
Proof.
  destruct demo_scheduler_ring as (p1 & p2 & p3 & Hring).
  destruct (remove_client_unlinks demo_scheduler _ 1 5 Hring)
    as (s' & k' & Hrm & Hring' & _ & _ & Hmove).
  eexists _, s', k'. split_and!; [|exact Hrm|exact Hring'| |].
  - reflexivity.
  - reflexivity.
  - rewrite list_lookup_fmap, (Hmove p2 (5, "bob")); reflexivity.
Defined.

Lemma scheduler_calls_safe_witness :
  ∃ s, runs (mkScheduler ∅ None None 0 100)
            [OpAdd 4 "alice"; OpNext 10; OpAdd 5 "bob"; OpRemove 4; OpNext 11]
         = Some s ∧
       get_client_count s = 1.
Proof.
  destruct (scheduler_calls_safe 100 (mkScheduler ∅ None None 0 100)
              [OpAdd 4 "alice"; OpNext 10; OpAdd 5 "bob"; OpRemove 4; OpNext 11])
    as (s & l & k & Hruns & _ & _ & _).
  - reflexivity.
  - vm_compute. discriminate.
  - exists s. split; [exact Hruns|].
    revert Hruns. vm_compute. intros [= <-]. reflexivity.
Defined.

Lemma add_remove_round_trip_witness :
  ∃ l s1 s2,
    l.*2 = [(4, "alice"); (5, "bob"); (7, "carol")] ∧
    add_client demo_scheduler 9 "dave" = Some s1 ∧
    remove_client s1 9 = Some s2 ∧
    ring s2 l 1.
Proof.
  destruct demo_scheduler_ring as (p1 & p2 & p3 & Hring).
  destruct (add_remove_round_trip demo_scheduler _ 1 9 "dave" Hring)
    as (s1 & s2 & Hadd & Hrm & Hring2 & _).
  - simpl. intros Hin. repeat (apply elem_of_cons in Hin as [?|Hin]; [done|]).
    by apply elem_of_nil in Hin.
  - reflexivity.
  - vm_compute. reflexivity.
  - eexists _, s1, s2. split_and!; [|exact Hadd|exact Hrm|exact Hring2].
    reflexivity.
Defined.

Lemma get_next_client_full_turn_witness :
  ∃ s', get_next_clients demo_scheduler [20; 21; 22]
        = Some ([Some (5, "bob", 20); Some (7, "carol", 21);
                 Some (4, "alice", 22)], s').
Proof.
  destruct demo_scheduler_ring as (p1 & p2 & p3 & Hring).
  destruct (get_next_client_full_turn demo_scheduler _ 1 [20; 21; 22] Hring)
    as (s' & Hturn & _).
  - reflexivity.
  - exists s'. exact Hturn.
Defined.

Lemma destroy_frees_all_witness :
  ∃ s', destroy demo_scheduler = Some s' ∧ nodes s' = ∅ ∧
        get_client_count s' = 0.
Proof.
  destruct demo_scheduler_ring as (p1 & p2 & p3 & Hring).
  destruct (destroy_frees_all demo_scheduler _ 1 Hring)
    as (s' & Hd & He & _ & _ & _ & _ & Hcount & _).
  exists s'. split_and!; [exact Hd|exact He|].
  apply Hcount. discriminate.
Defined.

Lemma print_schedule_lists_ring_witness :
  print_schedule demo_scheduler
    = Some ["[Scheduler] Current schedule (Round-Robin):";
            "  [0] alice (fd: 4)";
            "  [1] bob (fd: 5) <- CURRENT";
            "  [2] carol (fd: 7)"].
Proof.
  destruct demo_scheduler_ring as (p1 & p2 & p3 & Hring).
  rewrite (print_schedule_lists_ring demo_scheduler _ 1 Hring).
  - reflexivity.
  - vm_compute. discriminate.
Defined.

End SchedulerFacts.

(** ** ThreadPool *)

Module PoolFacts.
Import Pool.

Section ThreadPool.

Context {Task : Type}.
Implicit Types (p : ThreadPool Task) (w : Worker Task) (t : Task).

Lemma critical_section_cases (st : bool) (ts : list Task) :
  critical_section st ts =
    match ts with
    | t :: rest => Some (Take t rest)
    | [] => if st then Some Return else None
    end.
Proof. unfold critical_section. by destruct st, ts. Qed.

Lemma in_flight_insert (ws : list (Worker Task)) i w w' :
  ws !! i = Some w →
  in_flight (<[i := w']> ws) ++ held w ≡ₚ in_flight ws ++ held w'.
Proof.
  intros Hi. pose proof (lookup_lt_Some _ _ _ Hi) as Hlt.
  rewrite insert_take_drop by done.
  rewrite <- (take_drop_middle ws i w Hi) at 3.
  unfold in_flight. rewrite !bind_app, !bind_cons. solve_Permutation.
Qed.

Lemma in_flight_insert_same (ws : list (Worker Task)) i w w' :
  ws !! i = Some w → held w = held w' →
  in_flight (<[i := w']> ws) ≡ₚ in_flight ws.
Proof.
  intros Hi Hheld. pose proof (in_flight_insert ws i w w' Hi) as H.
  rewrite Hheld in H. by apply (inj (.++ held w')) in H.
Qed.

Lemma elem_of_insert_other (ws : list (Worker Task)) i w w' :
  w ∈ <[i := w']> ws → w ≠ w' → w ∈ ws.
Proof.
  intros Hin Hne. apply list_elem_of_lookup in Hin as [j Hj].
  destruct (decide (i = j)) as [->|Hij].
  - destruct (decide (j < length ws)%nat).
    + rewrite list_lookup_insert_eq in Hj by done. congruence.
    + rewrite list_insert_ge in Hj by lia. by eapply list_elem_of_lookup_2.
  - rewrite list_lookup_insert_ne in Hj by done.
    by eapply list_elem_of_lookup_2.
Qed.

(** *** The invariant *)

Lemma pool_new_inv size p : ThreadPool_new size = Some p → pool_inv p.
Proof.
  unfold ThreadPool_new. destruct (size <=? 0); [done|]. intros [= <-].
  split; simpl.
  - unfold in_flight. induction (Z.to_nat size); simpl; [done|]. done.
  - intros Hin. apply elem_of_replicate in Hin as [? _]. done.
Qed.

Lemma worker_step_inv p i p' :
  pool_inv p → worker_step p i = Some p' → pool_inv p'.
Proof.
  intros [Hperm Hex]. unfold worker_step.
  destruct (workers p !! i) as [[|t|t|]|] eqn:Hi; try done.
  - rewrite critical_section_cases.
    destruct (tasks p) as [|t rest] eqn:Hts.
    + destruct (stop p) eqn:Hstop; [|done]. intros [= <-].
      split; simpl.
      * by rewrite (in_flight_insert_same _ i Waiting), Hts.
      * by rewrite Hts.
    + intros [= <-]. split; simpl.
      * rewrite Hperm.
        pose proof (in_flight_insert (workers p) i Waiting (Holding t) Hi) as H.
        simpl in H. rewrite app_nil_r in H. rewrite H. solve_Permutation.
      * intros Hin. apply elem_of_insert_other in Hin; [|done].
        by destruct (Hex Hin).
  - intros [= <-]. split; simpl.
    + by rewrite (in_flight_insert_same _ i (Holding t)).
    + intros Hin. apply elem_of_insert_other in Hin; [|done]. by apply Hex.
  - intros [= <-]. split; simpl.
    + rewrite Hperm.
      pose proof (in_flight_insert (workers p) i (Running t) Waiting Hi) as H.
      simpl in H. rewrite app_nil_r in H. rewrite <- H. solve_Permutation.
    + intros Hin. apply elem_of_insert_other in Hin; [|done]. by apply Hex.
Qed.

Lemma exec_inv p ev p' : pool_inv p → exec p ev = Some p' → pool_inv p'.
Proof.
  intros Hinv. destruct ev as [[t|]| |i]; simpl.
  - destruct (stop p) eqn:Hstop; intros [= <-]; [done|].
    destruct Hinv as [Hperm Hex]. split; simpl.
    + rewrite Hperm. solve_Permutation.
    + intros Hin. destruct (Hex Hin). congruence.
  - by intros [= <-].
  - intros [= <-]. destruct Hinv as [Hperm Hex]. split; simpl; [done|].
    intros Hin. by destruct (Hex Hin).
  - by apply worker_step_inv.
Qed.

Lemma pool_run_inv p evs p' : pool_inv p → run p evs = Some p' → pool_inv p'.
Proof.
  revert p. induction evs as [|ev evs IH]; intros p Hinv; simpl.
  - by intros [= <-].
  - destruct (exec p ev) as [p1|] eqn:Hexec; [|done].
    eauto using exec_inv.
Qed.

(** *** After the stop flag is set *)

Lemma exec_stopped p ev p' :
  stop p = true → exec p ev = Some p' →
  stop p' = true ∧ accepted p' = accepted p.
Proof.
  intros Hstop. destruct ev as [[t|]| |i]; simpl.
  - rewrite Hstop. by intros [= <-].
  - by intros [= <-].
  - by intros [= <-].
  - unfold worker_step.
    destruct (workers p !! i) as [[|t|t|]|]; try done;
      try (by intros [= <-]).
    destruct (critical_section (stop p) (tasks p)) as [[|t rest|]|];
      try done; by intros [= <-].
Qed.

Lemma run_stopped p evs p' :
  stop p = true → run p evs = Some p' →
  stop p' = true ∧ accepted p' = accepted p.
Proof.
  revert p. induction evs as [|ev evs IH]; intros p Hstop; simpl.
  - by intros [= <-].
  - destruct (exec p ev) as [p1|] eqn:Hexec; [|done]. intros Hrun.
    destruct (exec_stopped p ev p1 Hstop Hexec) as [Hstop1 Hacc1].
    destruct (IH p1 Hstop1 Hrun) as [? ?]. split; congruence.
Qed.

(** A worker returns only from the critical section that finds the pool
    stopped and the queue empty. *)
Lemma worker_exit_guard p i p' :
  worker_step p i = Some p' →
  workers p !! i ≠ Some Exited → workers p' !! i = Some Exited →
  stop p = true ∧ tasks p = [].
Proof.
  unfold worker_step.
  destruct (workers p !! i) as [[|t|t|]|] eqn:Hi; try done.
  - rewrite critical_section_cases.
    destruct (tasks p) as [|t rest]; [by destruct (stop p)|].
    intros [= <-] _. simpl.
    rewrite list_lookup_insert_eq by by eapply lookup_lt_Some. done.
  - intros [= <-] _. simpl.
    rewrite list_lookup_insert_eq by by eapply lookup_lt_Some. done.
  - intros [= <-] _. simpl.
    rewrite list_lookup_insert_eq by by eapply lookup_lt_Some. done.
Qed.

(** While a worker is still there, a stopped pool can take a step. *)
Lemma stopped_progress p :
  stop p = true → ¬ joined p → ∃ i p', worker_step p i = Some p'.
Proof.
  intros Hstop Hnj. unfold joined in Hnj.
  apply not_Forall_Exists in Hnj;
    [|intros w; destruct w; (by left) || (by right)].
  apply Exists_exists in Hnj as (w & Hin & Hw).
  apply list_elem_of_lookup in Hin as [i Hi]. exists i.
  unfold worker_step. rewrite Hi, critical_section_cases, Hstop.
  destruct w as [|t|t|].
  - destruct (tasks p); by eexists.
  - by eexists.
  - by eexists.
  - by destruct Hw.
Qed.

Lemma weight_insert (ws : list (Worker Task)) i w w' :
  ws !! i = Some w →
  (sum_list (worker_weight <$> <[i := w']> ws) + worker_weight w =
   sum_list (worker_weight <$> ws) + worker_weight w')%nat.
Proof.
  revert i. induction ws as [|w0 ws IH]; intros [|i] Hi; simplify_eq/=.
  - lia.
  - specialize (IH i Hi). simpl in IH. lia.
Qed.

(** Every step of a worker of a stopped pool uses up [remaining]. *)
Lemma worker_step_decreases p i p' :
  stop p = true → worker_step p i = Some p' →
  (remaining p' < remaining p)%nat.
Proof.
  intros Hstop. unfold worker_step, remaining.
  destruct (workers p !! i) as [[|t|t|]|] eqn:Hi; try done.
  - rewrite critical_section_cases, Hstop.
    destruct (tasks p) as [|t rest] eqn:Hts; intros [= <-]; simpl;
      rewrite ?Hts; simpl.
    + pose proof (weight_insert (workers p) i Waiting Exited Hi) as H.
      simpl in H. lia.
    + pose proof (weight_insert (workers p) i Waiting (Holding t) Hi) as H.
      simpl in H. lia.
  - intros [= <-]; simpl.
    pose proof (weight_insert (workers p) i (Holding t) (Running t) Hi) as H.
    simpl in H. lia.
  - intros [= <-]; simpl.
    pose proof (weight_insert (workers p) i (Running t) Waiting Hi) as H.
    simpl in H. lia.
Qed.

Lemma run_workers_bounded p evs p' :
  stop p = true → Forall is_worker_event evs → run p evs = Some p' →
  (length evs + remaining p' ≤ remaining p)%nat.
Proof.
  revert p. induction evs as [|ev evs IH]; intros p Hstop Hev; simpl.
  - intros [= <-]. lia.
  - apply Forall_cons in Hev as [Hw Hev].
    destruct ev as [?| |i]; try done. simpl.
    destruct (worker_step p i) as [p1|] eqn:Hstep; [|done]. intros Hrun.
    pose proof (worker_step_decreases p i p1 Hstop Hstep).
    destruct (exec_stopped p (EvWorker i) p1 Hstop Hstep) as [Hstop1 _].
    specialize (IH p1 Hstop1 Hev Hrun). lia.
Qed.

Lemma joined_in_flight p : joined p → in_flight (workers p) = [].
Proof.
  unfold joined, in_flight. induction 1 as [|w ws -> _ IH]; [done|].
  by rewrite bind_cons, IH.
Qed.

Lemma joined_tasks p : pool_inv p → joined p → workers p ≠ [] → tasks p = [].
Proof.
  intros [_ Hex] Hj Hne. apply Hex. unfold joined in Hj.
  destruct (workers p) as [|w ws]; [done|].
  apply Forall_cons in Hj as [-> _]. set_solver.
Qed.

Lemma exec_workers_length p ev p' :
  exec p ev = Some p' → length (workers p') = length (workers p).
Proof.
  destruct ev as [[t|]| |i]; simpl.
  - destruct (stop p); by intros [= <-].
  - by intros [= <-].
  - by intros [= <-].
  - unfold worker_step.
    destruct (workers p !! i) as [[|t|t|]|]; try done;
      try (intros [= <-]; simpl; by rewrite length_insert).
    destruct (critical_section (stop p) (tasks p)) as [[|t rest|]|];
      try done; intros [= <-]; simpl; by rewrite ?length_insert.
Qed.

Lemma run_workers_length p evs p' :
  run p evs = Some p' → length (workers p') = length (workers p).
Proof.
  revert p. induction evs as [|ev evs IH]; intros p; simpl.
  - by intros [= <-].
  - destruct (exec p ev) as [p1|] eqn:Hexec; [|done]. intros Hrun.
    rewrite (IH p1 Hrun). by eapply exec_workers_length.
Qed.

(** *** Shutdown *)

(** C9. Take a pool at any point [p1] of a run, start its shutdown there and
    let the run go on to any later point [p2].  A worker that returns in the
    next step does so from a pool that is stopped and has an empty queue,
    and as long as a worker has returned the queue is empty.  No task is
    lost: the finished tasks, those held by workers and the queue of [p2]
    together are those of [p1]; so when all workers have returned, every
    task that was queued (or held by a worker) when shutdown began has
    finished.  Shutdown does not get stuck: until all workers have
    returned some worker can take a step, and at most [remaining p2] worker
    steps are left. *)
Theorem shutdown_drains_queue size p0 evs1 p1 evs2 p2 :
  ThreadPool_new size = Some p0 →
  run p0 evs1 = Some p1 →
  run (begin_shutdown p1) evs2 = Some p2 →
  (∀ i p', exec p2 (EvWorker i) = Some p' →
           workers p2 !! i ≠ Some Exited → workers p' !! i = Some Exited →
           stop p2 = true ∧ tasks p2 = []) ∧
  (Exited ∈ workers p2 → tasks p2 = []) ∧
  stop p2 = true ∧
  accepted p2 = accepted p1 ∧
  finished p2 ++ in_flight (workers p2) ++ tasks p2
    ≡ₚ finished p1 ++ in_flight (workers p1) ++ tasks p1 ∧
  (joined p2 →
     finished p2 ≡ₚ finished p1 ++ in_flight (workers p1) ++ tasks p1 ∧
     tasks p1 ⊆+ finished p2) ∧
  (¬ joined p2 → ∃ i p', exec p2 (EvWorker i) = Some p') ∧
  (∀ evs p3, Forall is_worker_event evs → run p2 evs = Some p3 →
             (length evs ≤ remaining p2)%nat).
Proof.
  intros Hnew Hrun1 Hrun2.
  pose proof (pool_run_inv p0 evs1 p1 (pool_new_inv size p0 Hnew) Hrun1) as Hinv1.
  assert (pool_inv (begin_shutdown p1)) as Hinv1'
    by by apply (exec_inv p1 EvShutdown).
  pose proof (pool_run_inv _ evs2 p2 Hinv1' Hrun2) as Hinv2.
  destruct (run_stopped (begin_shutdown p1) evs2 p2 eq_refl Hrun2)
    as [Hstop2 Hacc2].
  simpl in Hacc2.
  assert (finished p2 ++ in_flight (workers p2) ++ tasks p2
            ≡ₚ finished p1 ++ in_flight (workers p1) ++ tasks p1) as Hperm.
  { rewrite <- (inv_tasks p2 Hinv2), <- (inv_tasks p1 Hinv1). by rewrite Hacc2. }
  split_and!; try done.
  - intros i p'. apply worker_exit_guard.
  - intros Hin. by destruct (inv_exited p2 Hinv2 Hin).
  - intros Hj.
    assert (tasks p2 = []) as Hts2.
    { apply joined_tasks; [done|done|].
      intros Hnil. apply (f_equal length) in Hnil.
      rewrite (run_workers_length _ _ _ Hrun2) in Hnil. simpl in Hnil.
      rewrite (run_workers_length _ _ _ Hrun1) in Hnil.
      revert Hnew Hnil. unfold ThreadPool_new.
      destruct (Z.leb_spec size 0); [done|]. intros [= <-]. simpl.
      rewrite length_replicate. lia. }
    rewrite (joined_in_flight p2 Hj), Hts2, !app_nil_r in Hperm.
    split; [done|]. rewrite Hperm. solve_submseteq.
  - intros Hnj. destruct (stopped_progress p2 Hstop2 Hnj) as (i & p' & Hstep).
    by exists i, p'.
  - intros evs p3 Hev Hrun3.
    pose proof (run_workers_bounded p2 evs p3 Hstop2 Hev Hrun3). lia.
Qed.

End ThreadPool.

Lemma shutdown_drains_queue_witness :
  let p0 := mkThreadPool [Waiting; Waiting] [] false 0 2 [] [] in
  let p1 := mkThreadPool [Holding 1%nat; Waiting] [2; 3]%nat false 0 2
                         [1; 2; 3]%nat [] in
  let p2 := mkThreadPool [Exited; Exited] [] true 0 2
                         [1; 2; 3]%nat [2; 3; 1]%nat in
  run p0 demo_before = Some p1 ∧
  run (begin_shutdown p1) demo_after = Some p2 ∧
  [2; 3]%nat ⊆+ finished p2.
Proof.
  intros p0 p1 p2.
  assert (run p0 demo_before = Some p1) as H1 by (vm_compute; reflexivity).
  assert (run (begin_shutdown p1) demo_after = Some p2) as H2
    by (vm_compute; reflexivity).
  split; [exact H1|]. split; [exact H2|].
  destruct (shutdown_drains_queue 2 p0 demo_before p1 demo_after p2)
    as (_ & _ & _ & _ & _ & Hdone & _).
  - reflexivity.
  - exact H1.
  - exact H2.
  - apply Hdone. unfold joined, p2. simpl. repeat constructor.
Defined.

Section Observers.

Context {Task : Type}.
Implicit Types (p : ThreadPool Task) (w : Worker Task) (t : Task).

(** *** The counter of active workers *)

Lemma running_insert (ws : list (Worker Task)) i w w' :
  ws !! i = Some w →
  (length (filter (λ w, is_running w = true) (<[i := w']> ws))
     + (if is_running w then 1 else 0)
   = length (filter (λ w, is_running w = true) ws)
     + (if is_running w' then 1 else 0))%nat.
Proof.
  revert i. induction ws as [|w0 ws IH]; intros [|i] Hi; try done.
  - simpl in Hi. injection Hi as ->. simpl. rewrite !filter_cons.
    destruct (is_running w), (is_running w'); simpl;
      repeat case_decide; try done; simpl; lia.
  - simpl in Hi. simpl. rewrite !filter_cons. specialize (IH i Hi).
    case_decide; simpl; lia.
Qed.

Lemma running_replicate n :
  filter (λ w, is_running w = true) (replicate n (Waiting : Worker Task)) = [].
Proof.
  induction n as [|n IH]; [done|].
  cbn [replicate]. rewrite filter_cons_False; [exact IH|]. simpl. discriminate.
Qed.

Lemma running_le p : (length (running p) ≤ length (workers p))%nat.
Proof. apply length_filter. Qed.

Lemma worker_step_count p i p' :
  count_inv p → worker_step p i = Some p' → count_inv p'.
Proof.
  intros [Hc Hw Hm]. pose proof (running_le p) as Hle. unfold worker_step.
  destruct (workers p !! i) as [[|t|t|]|] eqn:Hi; try done.
  - rewrite critical_section_cases.
    destruct (tasks p) as [|t rest] eqn:Hts.
    + destruct (stop p); [|done]. intros [= <-]. split; simpl; [|by rewrite length_insert|done].
      unfold running. simpl.
      pose proof (running_insert (workers p) i Waiting Exited Hi) as H.
      simpl in H. rewrite Hc. unfold running. lia.
    + intros [= <-]. split; simpl; [|by rewrite length_insert|done].
      unfold running. simpl.
      pose proof (running_insert (workers p) i Waiting (Holding t) Hi) as H.
      simpl in H. rewrite Hc. unfold running. lia.
  - intros [= <-]. split; simpl; [|by rewrite length_insert|done].
    unfold running in *. simpl.
    pose proof (running_insert (workers p) i (Holding t) (Running t) Hi) as H.
    simpl in H.
    pose proof (length_filter (λ w, is_running w = true)
                  (<[i := Running t]> (workers p))) as Hle'.
    rewrite length_insert in Hle'.
    rewrite int_wrap_small by (unfold INT_MAX in *; lia). lia.
  - intros [= <-]. split; simpl; [|by rewrite length_insert|done].
    unfold running in *. simpl.
    pose proof (running_insert (workers p) i (Running t) Waiting Hi) as H.
    simpl in H.
    rewrite int_wrap_small by (unfold INT_MAX in *; lia). lia.
Qed.

Lemma exec_count p ev p' : count_inv p → exec p ev = Some p' → count_inv p'.
Proof.
  intros Hinv. destruct ev as [[t|]| |i]; simpl.
  - destruct (stop p); intros [= <-]; [done|]. by destruct Hinv.
  - by intros [= <-].
  - intros [= <-]. by destruct Hinv.
  - by apply worker_step_count.
Qed.

Lemma run_count p evs p' : count_inv p → run p evs = Some p' → count_inv p'.
Proof.
  revert p. induction evs as [|ev evs IH]; intros p Hinv; simpl.
  - by intros [= <-].
  - destruct (exec p ev) as [p1|] eqn:Hex; [|done].
    apply IH. by eapply exec_count.
Qed.

Lemma exec_pool_size p ev p' : exec p ev = Some p' → pool_size p' = pool_size p.
Proof.
  destruct ev as [[t|]| |i]; simpl.
  - destruct (stop p); by intros [= <-].
  - by intros [= <-].
  - by intros [= <-].
  - unfold worker_step.
    destruct (workers p !! i) as [[|t|t|]|]; try done;
      try (by intros [= <-]).
    destruct (critical_section (stop p) (tasks p)) as [[|t rest|]|];
      try done; by intros [= <-].
Qed.

Lemma run_pool_size p evs p' : run p evs = Some p' → pool_size p' = pool_size p.
Proof.
  revert p. induction evs as [|ev evs IH]; intros p; simpl.
  - by intros [= <-].
  - destruct (exec p ev) as [p1|] eqn:Hex; [|done].
    intros Hrun. rewrite (IH p1 Hrun). by eapply exec_pool_size.
Qed.

(** X17. At every point of every run of a pool of at most [INT_MAX]
    workers, [get_active_count] is the number of workers that are inside a
    task: it is never negative and never more than [get_pool_size], which
    is the size given to the constructor and the number of worker
    threads. *)
Theorem active_count_counts_running size p0 evs p :
  ThreadPool_new size = Some p0 →
  size ≤ INT_MAX →
  run p0 evs = Some p →
  get_active_count p = Z.of_nat (length (running p)) ∧
  0 ≤ get_active_count p ≤ get_pool_size p ∧
  get_pool_size p = size ∧
  Z.of_nat (length (workers p)) = size.
Proof.
  intros Hnew Hmax Hrun.
  assert (count_inv p0 ∧ pool_size p0 = size) as [Hinv0 Hsize].
  { unfold ThreadPool_new in Hnew. destruct (Z.leb_spec size 0); [done|].
    injection Hnew as <-. split; [|done]. split; simpl; [|rewrite length_replicate; lia|done].
    unfold running. simpl. by rewrite running_replicate. }
  destruct (run_count p0 evs p Hinv0 Hrun) as [Hc Hw Hm].
  pose proof (run_pool_size p0 evs p Hrun) as Hps.
  pose proof (running_le p). unfold get_active_count, get_pool_size.
  rewrite Hc. split_and!; try lia.
Qed.

(** *** The queue *)

Lemma worker_step_order p i p' taken :
  accepted p = taken ++ tasks p →
  taken ≡ₚ finished p ++ in_flight (workers p) →
  worker_step p i = Some p' →
  ∃ taken', accepted p' = taken' ++ tasks p' ∧
            taken' ≡ₚ finished p' ++ in_flight (workers p').
Proof.
  intros Hacc Hperm. unfold worker_step.
  destruct (workers p !! i) as [[|t|t|]|] eqn:Hi; try done.
  - rewrite critical_section_cases.
    destruct (tasks p) as [|t rest] eqn:Hts.
    + destruct (stop p); [|done]. intros [= <-]. exists taken. simpl.
      split; [by rewrite Hts|].
      by rewrite (in_flight_insert_same _ i Waiting).
    + intros [= <-]. exists (taken ++ [t]). simpl. split.
      * rewrite Hacc, <- app_assoc. done.
      * pose proof (in_flight_insert (workers p) i Waiting (Holding t) Hi) as H.
        simpl in H. rewrite app_nil_r in H. rewrite H, Hperm. solve_Permutation.
  - intros [= <-]. exists taken. simpl. split; [done|].
    by rewrite (in_flight_insert_same _ i (Holding t)).
  - intros [= <-]. exists taken. simpl. split; [done|].
    pose proof (in_flight_insert (workers p) i (Running t) Waiting Hi) as H.
    simpl in H. rewrite app_nil_r in H. rewrite Hperm, <- H. solve_Permutation.
Qed.

Lemma run_order p evs p' taken :
  accepted p = taken ++ tasks p →
  taken ≡ₚ finished p ++ in_flight (workers p) →
  run p evs = Some p' →
  ∃ taken', accepted p' = taken' ++ tasks p' ∧
            taken' ≡ₚ finished p' ++ in_flight (workers p').
Proof.
  revert p taken. induction evs as [|ev evs IH]; intros p taken Hacc Hperm; simpl.
  - intros [= <-]. eauto.
  - destruct (exec p ev) as [p1|] eqn:Hex; [|done].
    assert (∃ taken1, accepted p1 = taken1 ++ tasks p1 ∧
              taken1 ≡ₚ finished p1 ++ in_flight (workers p1))
      as (taken1 & Hacc1 & Hperm1).
    { destruct ev as [[t|]| |i]; simpl in Hex.
      - destruct (stop p); injection Hex as <-; [eauto|].
        exists taken. simpl. split; [|done]. by rewrite Hacc, app_assoc.
      - injection Hex as <-. eauto.
      - injection Hex as <-. eauto.
      - by eapply worker_step_order. }
    by apply (IH p1 taken1).
Qed.

(** X18. The queue is first in, first out, and no task is lost or taken
    twice: at every point of every run, the tasks still queued are the last
    ones accepted, in the order they were accepted, and the tasks accepted
    before them are exactly the tasks finished or held by a worker. *)
Theorem tasks_taken_in_order size p0 evs p :
  ThreadPool_new size = Some p0 →
  run p0 evs = Some p →
  ∃ taken,
    accepted p = taken ++ tasks p ∧
    taken ≡ₚ finished p ++ in_flight (workers p) ∧
    get_queue_size p = (Z.of_nat (length (accepted p) - length taken)) mod 2 ^ 64.
Proof.
  intros Hnew Hrun.
  destruct (run_order p0 evs p []) as (taken & Hacc & Hperm); [..|done|].
  - unfold ThreadPool_new in Hnew. destruct (size <=? 0); [done|].
    by injection Hnew as <-.
  - destruct (pool_new_inv size p0 Hnew) as [H _].
    unfold ThreadPool_new in Hnew. destruct (size <=? 0); [done|].
    injection Hnew as <-. simpl in *. by rewrite app_nil_r in H.
  - exists taken. split_and!; [done..|].
    unfold get_queue_size. rewrite Hacc, length_app. do 2 f_equal. lia.
Qed.

(** *** Before shutdown *)

Lemma exec_running p ev p' :
  ¬ is_shutdown ev → stop p = false → exec p ev = Some p' →
  stop p' = false ∧ accepted p' = accepted p ++ enqueued [ev].
Proof.
  intros Hev Hstop. destruct ev as [[t|]| |i]; simpl.
  - rewrite Hstop. by intros [= <-].
  - intros [= <-]. by rewrite app_nil_r.
  - by destruct Hev.
  - rewrite app_nil_r. unfold worker_step.
    destruct (workers p !! i) as [[|t|t|]|]; try done;
      try (by intros [= <-]).
    destruct (critical_section (stop p) (tasks p)) as [[|t rest|]|];
      try done; by intros [= <-].
Qed.

Lemma run_running p evs p' :
  Forall (λ ev, ¬ is_shutdown ev) evs → stop p = false → run p evs = Some p' →
  stop p' = false ∧ accepted p' = accepted p ++ enqueued evs.
Proof.
  revert p. induction evs as [|ev evs IH]; intros p Hevs Hstop; simpl.
  - intros [= <-]. by rewrite app_nil_r.
  - apply Forall_cons in Hevs as [Hev Hevs].
    destruct (exec p ev) as [p1|] eqn:Hex; [|done].
    destruct (exec_running p ev p1 Hev Hstop Hex) as [Hstop1 Hacc1].
    intros Hrun. destruct (IH p1 Hevs Hstop1 Hrun) as [Hstop' Hacc'].
    split; [done|]. rewrite Hacc', Hacc1, <- app_assoc. f_equal.
    unfold enqueued. simpl. by destruct ev as [[t|]| |i].
Qed.

(** X19. Before the destructor runs, no worker returns and no task is
    refused: in a run without shutdown the pool is not stopped, every
    worker thread is still in its loop, and the tasks accepted are all the
    non-null tasks [enqueue] was called with, in call order. *)
Theorem no_return_before_shutdown size p0 evs p :
  ThreadPool_new size = Some p0 →
  Forall (λ ev, ¬ is_shutdown ev) evs →
  run p0 evs = Some p →
  stop p = false ∧
  Forall (λ w, w ≠ Exited) (workers p) ∧
  accepted p = enqueued evs.
Proof.
  intros Hnew Hevs Hrun.
  pose proof (pool_run_inv p0 evs p (pool_new_inv size p0 Hnew) Hrun) as [_ Hex].
  destruct (run_running p0 evs p Hevs) as [Hstop Hacc]; [|done|].
  { unfold ThreadPool_new in Hnew. destruct (size <=? 0); [done|].
    by injection Hnew as <-. }
  split_and!; [done| |].
  - apply Forall_forall. intros w Hw ->. destruct (Hex Hw). congruence.
  - rewrite Hacc. unfold ThreadPool_new in Hnew. destruct (size <=? 0); [done|].
    by injection Hnew as <-.
Qed.

End Observers.

Lemma active_count_counts_running_witness :
  get_active_count
    (mkThreadPool [Running 1%nat; Waiting] [2; 3]%nat false 1 2
                  [1; 2; 3]%nat []) = 1.
Proof.
  destruct (active_count_counts_running 2
              (mkThreadPool [Waiting; Waiting] [] false 0 2 [] [])
              (demo_before ++ [EvWorker 0%nat])
              (mkThreadPool [Running 1%nat; Waiting] [2; 3]%nat false 1 2
                            [1; 2; 3]%nat [])) as (Hc & _).
  - reflexivity.
  - vm_compute. discriminate.
  - vm_compute. reflexivity.
  - rewrite Hc. reflexivity.
Defined.

Lemma tasks_taken_in_order_witness :
  ∃ taken, [1; 2; 3]%nat = taken ++ [2; 3]%nat ∧ taken ≡ₚ [] ++ [1%nat].
Proof.
  destruct (tasks_taken_in_order 2
              (mkThreadPool [Waiting; Waiting] [] false 0 2 [] [])
              demo_before
              (mkThreadPool [Holding 1%nat; Waiting] [2; 3]%nat false 0 2
                            [1; 2; 3]%nat [])) as (taken & Hacc & Hperm & _).
  - reflexivity.
  - vm_compute. reflexivity.
  - exists taken. split; [exact Hacc|exact Hperm].
Defined.

Lemma no_return_before_shutdown_witness :
  accepted (mkThreadPool [Holding 1%nat; Waiting] [2; 3]%nat false 0 2
                         [1; 2; 3]%nat []) = enqueued demo_before.
Proof.
  destruct (no_return_before_shutdown 2
              (mkThreadPool [Waiting; Waiting] [] false 0 2 [] [])
              demo_before
              (mkThreadPool [Holding 1%nat; Waiting] [2; 3]%nat false 0 2
                            [1; 2; 3]%nat [])) as (_ & _ & Hacc).
  - reflexivity.
  - repeat constructor; simpl; tauto.
  - vm_compute. reflexivity.
  - exact Hacc.
Defined.

End PoolFacts.

(** ** The server *)

Module ServerFacts.
Import Server.

(** *** C strings *)

Lemma c_str_no_nul s : no_nul (c_str s).
Proof.
  induction s as [|a s IH]; simpl; [done|]. by case_decide.
Qed.

Lemma c_str_id s : no_nul s → c_str s = s.
Proof.
  induction s as [|a s IH]; simpl; [done|]. intros [Ha Hs].
  rewrite decide_False by done. by rewrite IH.
Qed.

Lemma take_str_no_nul n s : no_nul s → no_nul (take_str n s).
Proof.
  revert n. induction s as [|a s IH]; intros [|n]; simpl; try done.
  intros [Ha Hs]. split; [done|]. by apply IH.
Qed.

Lemma take_str_length n s : (String.length (take_str n s) ≤ n)%nat.
Proof.
  revert n. induction s as [|a s IH]; intros [|n]; simpl; try lia.
  specialize (IH n). lia.
Qed.

Lemma take_str_all n s : (String.length s ≤ n)%nat → take_str n s = s.
Proof.
  revert n. induction s as [|a s IH]; intros [|n]; simpl; try done; try lia.
  intros Hlen. rewrite IH; [done|lia].
Qed.

Lemma c_str_app_nuls s n : no_nul s → c_str (s +:+ nuls n) = s.
Proof.
  induction s as [|a s IH]; simpl.
  - intros _. by destruct n.
  - intros [Ha Hs]. rewrite decide_False by done. by rewrite IH.
Qed.

Lemma c_str_char_array n s :
  no_nul s → c_str (char_array n s) = take_str n s.
Proof.
  intros Hs. unfold char_array. apply c_str_app_nuls. by apply take_str_no_nul.
Qed.

(** The C string of an array written by [strncpy] or [snprintf]. *)
Lemma c_str_strncpy_nul n src :
  c_str (strncpy_nul n src) = take_str (n - 1) (c_str src).
Proof.
  unfold strncpy_nul. rewrite c_str_char_array.
  - apply take_str_all. pose proof (take_str_length (n - 1) (c_str src)). lia.
  - apply take_str_no_nul, c_str_no_nul.
Qed.

(** *** Reading traces *)

Lemma sent_to_app evs1 evs2 : sent_to (evs1 ++ evs2) = sent_to evs1 ++ sent_to evs2.
Proof. apply omap_app. Qed.

Lemma failed_sends_app evs1 evs2 :
  failed_sends (evs1 ++ evs2) = failed_sends evs1 ++ failed_sends evs2.
Proof. unfold failed_sends. by rewrite sent_to_app, filter_app, !fmap_app. Qed.

Lemma delivered_sends_app evs1 evs2 :
  delivered_sends (evs1 ++ evs2) = delivered_sends evs1 ++ delivered_sends evs2.
Proof. unfold delivered_sends. by rewrite sent_to_app, filter_app, !fmap_app. Qed.

Lemma new_events_app s s' evs :
  trace s' = trace s ++ evs → new_events s s' = evs.
Proof. intros H. unfold new_events. by rewrite H, drop_app_length. Qed.

(** *** The first loop of broadcast_message *)

Lemma send_to_spec env msg sender_socket st e :
  ∃ evs, sends msg (filter (is_peer sender_socket) [e]).*1 st
               (send_to env msg sender_socket st e) evs.
Proof.
  destruct st as [s failed], e as [fd info]. unfold send_to.
  rewrite filter_cons, filter_nil. unfold is_peer at 1. simpl.
  destruct (decide (fd ≠ sender_socket ∧ active info = true)) as [[Hfd Hact]|Hno].
  - rewrite bool_decide_eq_true_2, Hact by done. simpl.
    set (r := env_send env (trace s) fd msg).
    destruct (Z.ltb_spec 0 r) as [Hpos|Hneg].
    + exists [EvSend fd msg r; EvLock metrics_mutex; EvUnlock metrics_mutex].
      split; simpl; try done.
      * by rewrite <- !app_assoc.
      * by repeat constructor.
      * unfold failed_sends. simpl. rewrite filter_cons_False, app_nil_r; [done|].
        unfold send_failed. simpl. lia.
      * repeat constructor; unfold locks_clients; naive_solver.
      * unfold delivered_sends. simpl. rewrite filter_cons_True; [done|].
        unfold send_failed. simpl. lia.
    + exists [EvSend fd msg r]. split; simpl; try done.
      * by repeat constructor.
      * unfold failed_sends. simpl. rewrite filter_cons_True; [done|].
        unfold send_failed. simpl. lia.
      * repeat constructor; unfold locks_clients; naive_solver.
      * unfold delivered_sends. simpl. rewrite filter_cons_False; [done|].
        unfold send_failed. simpl. lia.
  - assert (bool_decide (fd ≠ sender_socket) && active info = false) as ->.
    { destruct (decide (fd = sender_socket)) as [->|Hne].
      - by rewrite bool_decide_eq_false_2 by naive_solver.
      - rewrite bool_decide_eq_true_2 by done. simpl.
        destruct (active info); [naive_solver|done]. }
    exists []. split; simpl; try done.
    + by rewrite app_nil_r.
    + by rewrite app_nil_r.
Qed.

Lemma sends_compose msg l1 l2 st1 st2 st3 evs1 evs2 :
  sends msg l1 st1 st2 evs1 → sends msg l2 st2 st3 evs2 →
  sends msg (l1 ++ l2) st1 st3 (evs1 ++ evs2).
Proof.
  intros [Ht1 Hc1 Hm1 Hs1 Hf1 Hg1 Hx1 Hu1 Hn1] [Ht2 Hc2 Hm2 Hs2 Hf2 Hg2 Hx2 Hu2 Hn2].
  split.
  - by rewrite Ht2, Ht1, app_assoc.
  - congruence.
  - congruence.
  - congruence.
  - by rewrite sent_to_app, !fmap_app, Hf1, Hf2.
  - rewrite sent_to_app. by apply Forall_app.
  - by rewrite Hx2, Hx1, failed_sends_app, app_assoc.
  - by apply Forall_app.
  - rewrite Hn2, Hn1, delivered_sends_app, length_app.
    rewrite (Nat.add_comm (length _)). by rewrite Nat.iter_add.
Qed.

Lemma send_fold_spec env msg sender_socket l st :
  ∃ evs, sends msg (filter (is_peer sender_socket) l).*1 st
               (foldl (send_to env msg sender_socket) st l) evs.
Proof.
  revert st. induction l as [|e l IH]; intros st.
  - exists []. split; simpl; try done; by rewrite app_nil_r.
  - simpl foldl.
    destruct (send_to_spec env msg sender_socket st e) as [evs1 H1].
    destruct (IH (send_to env msg sender_socket st e)) as [evs2 H2].
    exists (evs1 ++ evs2).
    replace (filter (is_peer sender_socket) (e :: l)).*1
      with ((filter (is_peer sender_socket) [e]).*1
              ++ (filter (is_peer sender_socket) l).*1).
    + by eapply sends_compose.
    + rewrite <- fmap_app, <- filter_app. done.
Qed.

Lemma send_pass_spec env msg sender_socket s :
  ∃ evs st,
    sends msg (peers (clients s) sender_socket)
          (emit (EvLock clients_mutex) s, []) st evs ∧
    send_pass env msg sender_socket s
      = (emit (EvUnlock clients_mutex) st.1, st.2).
Proof.
  unfold send_pass.
  destruct (send_fold_spec env msg sender_socket
              (entries (clients (emit (EvLock clients_mutex) s)))
              (emit (EvLock clients_mutex) s, [])) as [evs Hs].
  exists evs, (foldl (send_to env msg sender_socket)
                 (emit (EvLock clients_mutex) s, [])
                 (entries (clients (emit (EvLock clients_mutex) s)))).
  split; [exact Hs|]. by destruct (foldl _ _ _).
Qed.

(** *** The second loop *)

Lemma mark_events_alter m fd fd' :
  mark_events (alter deactivate fd' m) fd = mark_events m fd.
Proof.
  unfold mark_events. rewrite lookup_alter. case_decide as Heq; [|done].
  subst fd'. by destruct (m !! fd).
Qed.

Lemma mark_failed_spec s fd :
  trace (mark_failed s fd) = trace s ++ mark_events (clients s) fd ∧
  clients (mark_failed s fd) = alter deactivate fd (clients s) ∧
  message_cache (mark_failed s fd) = message_cache s ∧
  scheduler (mark_failed s fd) = scheduler s ∧
  metrics (mark_failed s fd) = metrics s.
Proof.
  unfold mark_failed, mark_events. simpl.
  destruct (clients s !! fd) as [info|] eqn:Hfd; simpl.
  - split_and!; try done.
    + by rewrite <- !app_assoc.
    + apply map_eq. intros k. rewrite lookup_alter, lookup_insert.
      case_decide; [by rewrite Hfd|done].
  - split_and!; try done; try (by rewrite <- !app_assoc).
    apply map_eq. intros k. rewrite lookup_alter.
    case_decide; [subst; by rewrite Hfd|done].
Qed.

Lemma mark_all_spec s fds :
  trace (foldl mark_failed s fds)
    = trace s ++ flat_map (mark_events (clients s)) fds ∧
  clients (foldl mark_failed s fds) = flag_all (clients s) fds ∧
  message_cache (foldl mark_failed s fds) = message_cache s ∧
  scheduler (foldl mark_failed s fds) = scheduler s ∧
  metrics (foldl mark_failed s fds) = metrics s.
Proof.
  revert s. induction fds as [|fd fds IH]; intros s; simpl.
  - by rewrite app_nil_r.
  - destruct (mark_failed_spec s fd) as (Ht & Hc & Hm & Hs & Hn).
    destruct (IH (mark_failed s fd)) as (Ht' & Hc' & Hm' & Hs' & Hn').
    split_and!; try congruence.
    rewrite Ht', Ht, Hc, <- app_assoc. do 2 f_equal.
    clear. induction fds as [|fd' fds IH]; simpl; [done|].
    by rewrite mark_events_alter, IH.
Qed.

Lemma lookup_flag_all m fds fd :
  flag_all m fds !! fd =
    if decide (fd ∈ fds) then deactivate <$> m !! fd else m !! fd.
Proof.
  unfold flag_all. revert m.
  induction fds as [|fd' fds IH]; intros m; cbn [foldl].
  - by rewrite decide_False by set_solver.
  - rewrite IH, lookup_alter.
    destruct (decide (fd' = fd)) as [->|Hne];
      destruct (decide (fd ∈ fds)) as [Hin|Hnin];
      [rewrite decide_True by set_solver; by destruct (m !! fd)
      |rewrite decide_True by set_solver; done
      |rewrite decide_True by set_solver; done
      |rewrite decide_False by set_solver; done].
Qed.

Lemma dom_flag_all m fds : dom (flag_all m fds) = dom m.
Proof.
  unfold flag_all. revert m. induction fds as [|fd fds IH]; intros m; simpl;
    [done|]. by rewrite IH, dom_alter_L.
Qed.

Lemma sent_to_mark_events m fds : sent_to (flat_map (mark_events m) fds) = [].
Proof.
  induction fds as [|fd fds IH]; simpl; [done|].
  rewrite sent_to_app, IH, app_nil_r. unfold mark_events.
  by destruct (m !! fd).
Qed.

(** *** The whole call *)

Lemma cache_insert_spec env k v t s :
  let now := env_time env (trace s) in
  trace (cache_insert env k v t s).2
    = trace s ++ insert_events (message_cache s) k v t now ∧
  clients (cache_insert env k v t s).2 = clients s ∧
  message_cache (cache_insert env k v t s).2
    = (Cache.insert (message_cache s) k v t now).2 ∧
  scheduler (cache_insert env k v t s).2 = scheduler s ∧
  metrics (cache_insert env k v t s).2 = metrics s.
Proof.
  unfold cache_insert, insert_events. simpl.
  destruct (Cache.insert _ _ _ _ _) as [[] c]; simpl; by rewrite ?app_nil_r.
Qed.

Lemma sent_to_insert_events c k v t now :
  sent_to (insert_events c k v t now) = [].
Proof. unfold insert_events. by destruct (Cache.insert _ _ _ _ _).1. Qed.

Lemma broadcast_message_spec env msg sender_socket s :
  ∃ evs now,
    trace (broadcast_message env msg sender_socket s)
      = trace s ++ [EvLock clients_mutex] ++ evs ++ [EvUnlock clients_mutex]
          ++ flat_map (mark_events (clients s)) (failed_sends evs)
          ++ insert_events (message_cache s) (c_str (sender msg))
               (c_str (payload msg)) (timestamp msg) now ∧
    (sent_to evs).*1.*1 = peers (clients s) sender_socket ∧
    Forall (λ x, x.1.2 = msg) (sent_to evs) ∧
    Forall (λ ev, ¬ locks_clients ev) evs ∧
    clients (broadcast_message env msg sender_socket s)
      = flag_all (clients s) (failed_sends evs) ∧
    message_cache (broadcast_message env msg sender_socket s)
      = (Cache.insert (message_cache s) (c_str (sender msg))
                      (c_str (payload msg)) (timestamp msg) now).2 ∧
    scheduler (broadcast_message env msg sender_socket s) = scheduler s ∧
    metrics (broadcast_message env msg sender_socket s)
      = Nat.iter (length (delivered_sends evs)) incr_messages_sent (metrics s).
Proof.
  unfold broadcast_message.
  destruct (send_pass_spec env msg sender_socket s) as (evs & st & Hs & ->).
  destruct Hs as [Ht Hc Hm Hsch Hf Hg Hx Hu Hn]. simpl in *.
  set (s1 := emit (EvUnlock clients_mutex) st.1).
  destruct (mark_all_spec s1 st.2) as (Ht2 & Hc2 & Hm2 & Hs2 & Hn2).
  set (s2 := foldl mark_failed s1 st.2) in *.
  destruct (cache_insert_spec env (c_str (sender msg)) (c_str (payload msg))
              (timestamp msg) s2) as (Ht3 & Hc3 & Hm3 & Hs3 & Hn3).
  exists evs, (env_time env (trace s2)).
  split_and!; try done.
  - rewrite Ht3, Ht2, Hm2. unfold s1. simpl. rewrite Ht, Hc, Hx, Hm.
    by rewrite <- !app_assoc.
  - rewrite Hc3, Hc2. unfold s1. simpl. by rewrite Hc, Hx.
  - rewrite Hm3, Hm2. unfold s1. simpl. by rewrite Hm.
  - rewrite Hs3, Hs2. unfold s1. simpl. done.
  - rewrite Hn3, Hn2. unfold s1. simpl. done.
Qed.

(** *** The peers of a broadcast *)

Lemma entries_perm m : entries m ≡ₚ map_to_list m.
Proof. apply merge_sort_Permutation. Qed.

Lemma NoDup_peers m sender_socket : NoDup (peers m sender_socket).
Proof.
  unfold peers.
  apply (sublist_NoDup _ (entries m).*1).
  - rewrite entries_perm. apply NoDup_fst_map_to_list.
  - apply fmap_sublist, sublist_filter.
Qed.

Lemma elem_of_peers m sender_socket fd :
  fd ∈ peers m sender_socket ↔
  fd ≠ sender_socket ∧ ∃ info, m !! fd = Some info ∧ active info = true.
Proof.
  unfold peers. rewrite list_elem_of_fmap. split.
  - intros ([fd' info] & -> & Hin).
    apply list_elem_of_filter in Hin as [[Hne Hact] Hin].
    rewrite entries_perm in Hin. apply elem_of_map_to_list in Hin.
    simpl in *. eauto.
  - intros (Hne & info & Hfd & Hact). exists (fd, info). split; [done|].
    apply list_elem_of_filter. split; [done|].
    rewrite entries_perm. by apply elem_of_map_to_list.
Qed.

Lemma broadcast_message_sends env msg sender_socket s :
  let s' := broadcast_message env msg sender_socket s in
  (sent_to (new_events s s')).*1.*1 = peers (clients s) sender_socket ∧
  Forall (λ x, x.1.2 = msg) (sent_to (new_events s s')) ∧
  clients s' = flag_all (clients s) (failed_sends (new_events s s')) ∧
  metrics s' = Nat.iter (length (delivered_sends (new_events s s')))
                        incr_messages_sent (metrics s).
Proof.
  simpl.
  destruct (broadcast_message_spec env msg sender_socket s)
    as (evs & now & Ht & Hf & Hg & Hu & Hc & Hm & Hs & Hn).
  rewrite (new_events_app _ _ _ Ht).
  assert (sent_to ([EvLock clients_mutex] ++ evs ++ [EvUnlock clients_mutex]
                   ++ flat_map (mark_events (clients s)) (failed_sends evs)
                   ++ insert_events (message_cache s) (c_str (sender msg))
                        (c_str (payload msg)) (timestamp msg) now)
          = sent_to evs) as Hsent.
  { rewrite !sent_to_app, sent_to_mark_events, sent_to_insert_events. simpl.
    by rewrite app_nil_r. }
  unfold failed_sends, delivered_sends in *. rewrite Hsent. done.
Qed.

Lemma filter_key_absent {A B} `{EqDecision B} (g : A → B) (l : list A) k :
  k ∉ g <$> l → filter (λ y, g y = k) l = [].
Proof.
  induction l as [|a l IH]; [done|]. rewrite fmap_cons, not_elem_of_cons.
  intros [Hne Hnin]. rewrite filter_cons_False by done. by apply IH.
Qed.

Lemma filter_key_singleton {A B} `{EqDecision B} (g : A → B) (l : list A) x :
  NoDup (g <$> l) → x ∈ l → filter (λ y, g y = g x) l = [x].
Proof.
  induction l as [|a l IH]; [by intros _ ?%elem_of_nil|].
  rewrite fmap_cons. intros [Ha Hnd]%NoDup_cons Hin.
  apply elem_of_cons in Hin as [->|Hin].
  - rewrite filter_cons_True by done. f_equal. by apply filter_key_absent.
  - rewrite filter_cons_False; [by apply IH|].
    intros Heq. apply Ha. rewrite Heq. apply list_elem_of_fmap. by exists x.
Qed.

Lemma filter_length_split {A} (P : A → Prop) `{∀ x, Decision (P x)} (l : list A) :
  (length (filter P l) + length (filter (λ x, ¬ P x) l) = length l)%nat.
Proof.
  induction l as [|a l IH]; [done|].
  destruct (decide (P a)).
  - rewrite filter_cons_True, (filter_cons_False (λ x, ¬ P x)) by naive_solver.
    simpl. lia.
  - rewrite filter_cons_False, (filter_cons_True (λ x, ¬ P x)) by naive_solver.
    simpl. lia.
Qed.

Lemma messages_sent_iter n m :
  messages_sent (Nat.iter n incr_messages_sent m)
    = Nat.iter n (λ z, uint64_wrap (z + 1)) (messages_sent m).
Proof. induction n as [|n IH]; simpl; [done|]. by rewrite IH. Qed.

(** *** One failed send *)

(** C6. Take a broadcast during which the sends that failed (those whose
    result was not positive) are the single send to [f].  Then [f] was one
    of the K active connections other than the sender; in the registry after
    the call [f] is flagged inactive and every other connection is as it
    was; the call made exactly one send to each of the K peers, of the
    message it was given, and none to any other descriptor; the send to
    each peer other than [f] succeeded; and [messages_sent] was incremented
    K - 1 times. *)
Theorem broadcast_one_failed_send env msg sender_socket s f :
  failed_sends (new_events s (broadcast_message env msg sender_socket s))
    = [f] →
  f ∈ peers (clients s) sender_socket ∧
  (∀ fd, clients (broadcast_message env msg sender_socket s) !! fd =
         if decide (fd = f) then deactivate <$> clients s !! fd
         else clients s !! fd) ∧
  (∀ fd, fd ∈ peers (clients s) sender_socket → fd ≠ f →
     ∃ ret, 0 < ret ∧
       sends_to fd (new_events s (broadcast_message env msg sender_socket s))
         = [(fd, msg, ret)]) ∧
  (∃ ret, ret ≤ 0 ∧
     sends_to f (new_events s (broadcast_message env msg sender_socket s))
       = [(f, msg, ret)]) ∧
  (∀ fd, fd ∉ peers (clients s) sender_socket →
     sends_to fd (new_events s (broadcast_message env msg sender_socket s))
       = []) ∧
  messages_sent (metrics (broadcast_message env msg sender_socket s))
    = Nat.iter (length (peers (clients s) sender_socket) - 1)
               (λ z, uint64_wrap (z + 1)) (messages_sent (metrics s)).
Proof.
  destruct (broadcast_message_sends env msg sender_socket s)
    as (Hfds & Hmsg & Hclients & Hmetrics).
  set (s' := broadcast_message env msg sender_socket s) in *.
  set (evs := new_events s s') in *.
  intros Hfailed.
  pose proof (NoDup_peers (clients s) sender_socket) as Hnd.
  rewrite <- Hfds in Hnd |- *.
  assert (∀ x, x ∈ sent_to evs → sends_to x.1.1 evs = [x]) as Hone.
  { intros x Hx. unfold sends_to.
    apply (filter_key_singleton (λ y : Z * Message * Z, y.1.1)); [|done].
    rewrite <- list_fmap_compose in Hnd. exact Hnd. }
  assert (∀ x, x ∈ sent_to evs → send_failed x ↔ x.1.1 = f) as Hfail.
  { intros x Hx. split.
    - intros Hf. assert (x.1.1 ∈ failed_sends evs) as Hin.
      { unfold failed_sends. do 2 (apply list_elem_of_fmap_2).
        by apply list_elem_of_filter. }
      rewrite Hfailed in Hin. by apply list_elem_of_singleton in Hin.
    - intros Hxf.
      assert (f ∈ failed_sends evs) as Hin by (rewrite Hfailed; constructor).
      unfold failed_sends in Hin.
      apply list_elem_of_fmap in Hin as (p & -> & Hin).
      apply list_elem_of_fmap in Hin as (y & -> & Hin).
      apply list_elem_of_filter in Hin as [Hyf Hy].
      pose proof (Hone x Hx) as H1. pose proof (Hone y Hy) as H2.
      rewrite Hxf in H1. rewrite H1 in H2. by injection H2 as ->. }
  assert (∀ fd, fd ∈ (sent_to evs).*1.*1 →
            ∃ ret, (fd, msg, ret) ∈ sent_to evs) as Hsent.
  { intros fd Hin.
    apply list_elem_of_fmap in Hin as (p & -> & Hin).
    apply list_elem_of_fmap in Hin as ([[fd m] ret] & -> & Hin).
    exists ret. rewrite Forall_forall in Hmsg.
    pose proof (Hmsg _ Hin) as Hm. simpl in Hm. by subst m. }
  split_and!.
  - assert (f ∈ failed_sends evs) as Hin by (rewrite Hfailed; constructor).
    unfold failed_sends in Hin.
    apply list_elem_of_fmap in Hin as (p & -> & Hin).
    apply list_elem_of_fmap in Hin as (y & -> & Hin).
    apply list_elem_of_filter in Hin as [_ Hy].
    do 2 (apply list_elem_of_fmap_2). done.
  - intros fd. rewrite Hclients, lookup_flag_all, Hfailed.
    destruct (decide (fd = f)) as [->|Hne].
    + by rewrite decide_True by set_solver.
    + by rewrite decide_False by set_solver.
  - intros fd Hin Hne. destruct (Hsent fd Hin) as [ret Hx].
    exists ret. split; [|by apply (Hone _ Hx)].
    destruct (Z.lt_ge_cases 0 ret) as [|Hle]; [done|].
    destruct (Hfail _ Hx) as [Hf _]. destruct Hne. apply Hf.
    unfold send_failed. simpl. lia.
  - assert (f ∈ (sent_to evs).*1.*1) as Hin.
    { assert (f ∈ failed_sends evs) as Hin by (rewrite Hfailed; constructor).
      unfold failed_sends in Hin.
      apply list_elem_of_fmap in Hin as (p & -> & Hin).
      apply list_elem_of_fmap in Hin as (y & -> & Hin).
      apply list_elem_of_filter in Hin as [_ Hy].
      do 2 (apply list_elem_of_fmap_2). done. }
    destruct (Hsent f Hin) as [ret Hx]. exists ret.
    split; [|by apply (Hone _ Hx)].
    destruct (Hfail _ Hx) as [_ Hf]. by apply Hf.
  - intros fd Hnin. unfold sends_to.
    apply (filter_key_absent (λ y : Z * Message * Z, y.1.1)).
    rewrite <- list_fmap_compose in Hnin. exact Hnin.
  - rewrite Hmetrics, messages_sent_iter. f_equal.
    unfold delivered_sends. rewrite !length_fmap.
    pose proof (filter_length_split send_failed (sent_to evs)) as Hsplit.
    assert (length (filter send_failed (sent_to evs)) = 1%nat) as Hlen.
    { apply (f_equal length) in Hfailed. unfold failed_sends in Hfailed.
      by rewrite !length_fmap in Hfailed. }
    lia.
Qed.

Lemma broadcast_one_failed_send_witness :
  clients (broadcast_message demo_env demo_msg 4 demo_state) !! 5
    = Some (mkClientInfo 5 "bob" 0 0 false) ∧
  ∃ ret, 0 < ret ∧
    sends_to 6 (new_events demo_state
                  (broadcast_message demo_env demo_msg 4 demo_state))
      = [(6, demo_msg, ret)].
Proof.
  destruct (broadcast_one_failed_send demo_env demo_msg 4 demo_state 5)
    as (_ & Hflag & Hsent & _).
  - vm_compute. reflexivity.
  - split.
    + rewrite Hflag. reflexivity.
    + apply Hsent; [|discriminate].
      apply (bool_decide_unpack _). vm_compute. exact I.
Defined.

(** *** Failed connections stay registered *)




(** *** Frames of the wrong size *)

(** The claim that a frame of the wrong size is discarded and the loop goes
    on does not hold: here [recv] returns 10 bytes, and the turn of the loop
    ends in [break], so the loop is over. *)
Lemma short_frame_continues_counterexample :
  env_recv_msg demo_env (trace (emit (EvRunning true) demo_state)) 5
    = (10, false, Message_zero) ∧
  10 ≠ sizeof_Message ∧
  loop_body demo_env 5 "bob" (emit (EvRunning true) demo_state)
    = Some (Break, emit (EvRecv 5 10) (emit (EvRunning true) demo_state)) ∧
  message_loop 3 demo_env 5 "bob" demo_state
    = Some (emit (EvRecv 5 10) (emit (EvRunning true) demo_state)).
Proof. vm_compute. split_and!; (reflexivity || discriminate). Qed.

Lemma loop_body_wrong_size env client_socket user_id s bytes timed_out msg :
  env_recv_msg env (trace s) client_socket = (bytes, timed_out, msg) →
  0 ≤ bytes → bytes ≠ sizeof_Message →
  loop_body env client_socket user_id s
    = Some (Break, emit (EvRecv client_socket bytes) s).
Proof.
  intros Hrecv Hpos Hsize. unfold loop_body. rewrite Hrecv.
  destruct (Z.ltb_spec bytes 0) as [|_]; [lia|].
  destruct (Z.eqb_spec bytes 0) as [|Hnz]; [done|].
  destruct (Z.eqb_spec bytes sizeof_Message) as [|_]; [lia|]. done.
Qed.

Lemma message_loop_wrong_size fuel env client_socket user_id s
    bytes timed_out msg :
  env_running env (trace s) = true →
  env_recv_msg env (trace (emit (EvRunning true) s)) client_socket
    = (bytes, timed_out, msg) →
  0 ≤ bytes → bytes ≠ sizeof_Message →
  message_loop (S fuel) env client_socket user_id s
    = Some (emit (EvRecv client_socket bytes) (emit (EvRunning true) s)).
Proof.
  intros Hrun Hrecv Hpos Hsize. cbn [message_loop]. rewrite Hrun. cbv zeta.
  by rewrite (loop_body_wrong_size _ _ _ _ bytes timed_out msg).
Qed.

(** C8, as the code has it.  When the server is running and [recv] returns
    a byte count that is not negative and is not [sizeof(Message)], the turn
    of the message loop ends in [break] and the loop is over.  The frame is
    not processed: nothing is counted, sent, cached or logged, and the only
    new events are the test of [server_running] and the [recv]. *)
Theorem wrong_size_frame_ends_loop fuel env client_socket user_id s
    bytes timed_out msg :
  env_running env (trace s) = true →
  env_recv_msg env (trace (emit (EvRunning true) s)) client_socket
    = (bytes, timed_out, msg) →
  0 ≤ bytes → bytes ≠ sizeof_Message →
  let s' := emit (EvRecv client_socket bytes) (emit (EvRunning true) s) in
  loop_body env client_socket user_id (emit (EvRunning true) s)
    = Some (Break, s') ∧
  message_loop (S fuel) env client_socket user_id s = Some s' ∧
  trace s' = trace s ++ [EvRunning true; EvRecv client_socket bytes] ∧
  clients s' = clients s ∧ message_cache s' = message_cache s ∧
  scheduler s' = scheduler s ∧ metrics s' = metrics s.
Proof.
  intros Hrun Hrecv Hpos Hsize. simpl. split_and!; try done.
  - by apply (loop_body_wrong_size _ _ _ _ bytes timed_out msg).
  - by apply (message_loop_wrong_size _ _ _ _ _ bytes timed_out msg).
  - by rewrite <- app_assoc.
Qed.

Lemma wrong_size_frame_ends_loop_witness :
  message_loop 1 demo_env 5 "bob" demo_state
    = Some (emit (EvRecv 5 10) (emit (EvRunning true) demo_state)).
Proof.
  apply (wrong_size_frame_ends_loop 0 demo_env 5 "bob" demo_state
           10 false Message_zero).
  - reflexivity.
  - reflexivity.
  - lia.
  - discriminate.
Defined.

(** *** The end of a connection *)

Lemma broadcast_message_frame env msg sender_socket s fd :
  scheduler (broadcast_message env msg sender_socket s) = scheduler s ∧
  (clients s !! fd = None →
   clients (broadcast_message env msg sender_socket s) !! fd = None) ∧
  dom (clients (broadcast_message env msg sender_socket s)) = dom (clients s).
Proof.
  destruct (broadcast_message_spec env msg sender_socket s)
    as (evs & now & Ht & _ & _ & _ & Hc & _ & Hs & _).
  split_and!; [done| |].
  - intros Hfd. rewrite Hc, lookup_flag_all, Hfd. by case_decide.
  - by rewrite Hc, dom_flag_all.
Qed.


(** *** The two setters of Message *)

Lemma length_app_str (a b : string) :
  String.length (a +:+ b) = (String.length a + String.length b)%nat.
Proof. induction a as [|c a IH]; simpl; [done|]. by rewrite IH. Qed.

Lemma length_nuls n : String.length (nuls n) = n.
Proof. induction n as [|n IH]; simpl; [done|]. by rewrite IH. Qed.

Lemma length_char_array n s : String.length (char_array n s) = n.
Proof.
  unfold char_array. rewrite length_app_str, length_nuls.
  pose proof (take_str_length n s). lia.
Qed.

Lemma strncpy_nul_spec n src :
  String.length (strncpy_nul n src) = n ∧
  c_str (strncpy_nul n src) = take_str (n - 1) (c_str src) ∧
  (String.length (c_str (strncpy_nul n src)) ≤ n - 1)%nat ∧
  (no_nul src → (String.length src ≤ n - 1)%nat →
   c_str (strncpy_nul n src) = src).
Proof.
  split_and!.
  - apply length_char_array.
  - apply c_str_strncpy_nul.
  - rewrite c_str_strncpy_nul. apply take_str_length.
  - intros Hs Hlen. rewrite c_str_strncpy_nul, c_str_id by done.
    by apply take_str_all.
Qed.

(** X20. The setters of [Message] keep the arrays terminated and their
    sizes fixed.  After [set_payload] the payload array still has its 4096
    bytes, the C string in it is the text up to its first NUL cut to 4095
    characters, and [payload_size] is the length of that string; a text
    without NUL of at most 4095 characters is read back unchanged.  The same
    holds for [set_sender] with 64 and 63.  Neither touches another
    member, except that [set_payload] sets [payload_size]. *)
Theorem setters_keep_strings_terminated m text :
  (String.length (payload (set_payload m text)) = 4096%nat ∧
   c_str (payload (set_payload m text)) = take_str 4095 (c_str text) ∧
   payload_size (set_payload m text)
     = Z.of_nat (String.length (c_str (payload (set_payload m text)))) ∧
   0 ≤ payload_size (set_payload m text) ≤ 4095 ∧
   (no_nul text → (String.length text ≤ 4095)%nat →
    c_str (payload (set_payload m text)) = text ∧
    payload_size (set_payload m text) = Z.of_nat (String.length text)) ∧
   type (set_payload m text) = type m ∧ uid (set_payload m text) = uid m ∧
   sender (set_payload m text) = sender m ∧
   timestamp (set_payload m text) = timestamp m) ∧
  (String.length (sender (set_sender m text)) = 64%nat ∧
   c_str (sender (set_sender m text)) = take_str 63 (c_str text) ∧
   (no_nul text → (String.length text ≤ 63)%nat →
    c_str (sender (set_sender m text)) = text) ∧
   type (set_sender m text) = type m ∧ uid (set_sender m text) = uid m ∧
   payload_size (set_sender m text) = payload_size m ∧
   payload (set_sender m text) = payload m ∧
   timestamp (set_sender m text) = timestamp m).
Proof.
  destruct (strncpy_nul_spec 4096 text) as (Hlen & Hstr & Hle & Hid).
  destruct (strncpy_nul_spec 64 text) as (Hlen' & Hstr' & _ & Hid').
  assert (payload_size (set_payload m text)
          = Z.of_nat (String.length (c_str (strncpy_nul 4096 text)))) as Hsize.
  { unfold set_payload, strlen, uint32_wrap. simpl.
    apply Z.mod_small. lia. }
  split.
  - split_and!; try done.
    + rewrite Hsize. lia.
    + rewrite Hsize. lia.
    + intros Hs Hl. rewrite Hsize. simpl. rewrite Hid by (done || lia). done.
  - split_and!; try done.
Qed.

(** *** What a call adds to the trace *)

Lemma emits_refl P s : emits P s s.
Proof. exists []. by rewrite app_nil_r. Qed.

Lemma emits_same P s s' : trace s' = trace s → emits P s s'.
Proof. intros H. exists []. by rewrite app_nil_r. Qed.

Lemma emits_trans P s1 s2 s3 : emits P s1 s2 → emits P s2 s3 → emits P s1 s3.
Proof.
  intros (e1 & H1 & F1) (e2 & H2 & F2). exists (e1 ++ e2).
  split; [by rewrite H2, H1, app_assoc|by apply Forall_app].
Qed.

Lemma emits_emit (P : Event → Prop) ev s : P ev → emits P s (emit ev s).
Proof. intros H. exists [ev]. split; [done|]. by apply Forall_singleton. Qed.

Lemma emits_impl (P Q : Event → Prop) s s' :
  (∀ ev, P ev → Q ev) → emits P s s' → emits Q s s'.
Proof.
  intros H (evs & Ht & F). exists evs. split; [done|].
  eapply Forall_impl; [exact F|done].
Qed.

Lemma emits_new_events P s s' : emits P s s' → Forall P (new_events s s').
Proof. intros (evs & Ht & F). by rewrite (new_events_app s s' evs). Qed.

Lemma emits_new_events_app P s1 s2 s3 :
  emits P s1 s2 → emits P s2 s3 →
  new_events s1 s3 = new_events s1 s2 ++ new_events s2 s3.
Proof.
  intros (e1 & H1 & _) (e2 & H2 & _).
  rewrite (new_events_app s1 s2 e1), (new_events_app s2 s3 e2) by done.
  apply new_events_app. by rewrite H2, H1, app_assoc.
Qed.

Lemma clock_quiet ev : clock_event ev → quiet_event ev.
Proof. by destruct ev. Qed.

Lemma clock_not_logged evs : Forall clock_event evs → logged evs = [].
Proof.
  induction 1 as [|ev evs Hev _ IH]; [done|].
  unfold logged in *. simpl. by destruct ev.
Qed.

Lemma quiet_loop ev : quiet_event ev → loop_event ev.
Proof. by intros [? _]. Qed.

Lemma quiet_not_send evs : Forall quiet_event evs → sent_to evs = [].
Proof.
  induction 1 as [|ev evs [_ Hev] _ IH]; [done|].
  unfold sent_to in *. simpl. by destruct ev.
Qed.

Lemma loop_not_closed evs : Forall loop_event evs → closed evs = [].
Proof.
  induction 1 as [|ev evs Hev _ IH]; [done|].
  unfold closed in *. simpl. by destruct ev.
Qed.

Lemma closed_app evs1 evs2 : closed (evs1 ++ evs2) = closed evs1 ++ closed evs2.
Proof. apply omap_app. Qed.

Ltac quiet := first [done | by split].

Lemma time_nullptr_emits env s : emits quiet_event s (time_nullptr env s).2.
Proof. apply emits_emit. quiet. Qed.

Lemma insert_events_clock c k v t now :
  Forall clock_event (insert_events c k v t now).
Proof.
  unfold insert_events. destruct (Cache.insert _ _ _ _ _).1; [|done].
  by apply Forall_singleton.
Qed.

Lemma cache_insert_emits env k v t s :
  emits quiet_event s (cache_insert env k v t s).2.
Proof.
  destruct (cache_insert_spec env k v t s) as (Ht & _).
  eexists. split; [exact Ht|].
  eapply Forall_impl; [apply insert_events_clock|apply clock_quiet].
Qed.

Lemma cache_lookup_frame k s :
  trace (cache_lookup k s).2 = trace s ∧
  clients (cache_lookup k s).2 = clients s ∧
  scheduler (cache_lookup k s).2 = scheduler s ∧
  metrics (cache_lookup k s).2 = metrics s ∧
  message_cache (cache_lookup k s).2 = (Cache.lookup (message_cache s) k).2 ∧
  (cache_lookup k s).1 = (Cache.lookup (message_cache s) k).1.
Proof. unfold cache_lookup. by destruct (Cache.lookup _ _). Qed.

Lemma cache_update_access_frame env k s :
  emits clock_event s (cache_update_access env k s) ∧
  clients (cache_update_access env k s) = clients s ∧
  scheduler (cache_update_access env k s) = scheduler s ∧
  metrics (cache_update_access env k s) = metrics s ∧
  message_cache (cache_update_access env k s)
    = Cache.update_access (message_cache s) k (env_time env (trace s)).
Proof.
  unfold cache_update_access, Cache.update_access.
  destruct (Cache.live_slot (message_cache s) k) eqn:Hslot; simpl;
    rewrite ?Hslot.
  - split_and!; try done. by apply emits_emit.
  - split_and!; try done. apply emits_refl.
Qed.

Lemma touch_previous_spec env user_id timestamp s i :
  emits clock_event s (touch_previous env user_id timestamp s i) ∧
  clients (touch_previous env user_id timestamp s i) = clients s ∧
  scheduler (touch_previous env user_id timestamp s i) = scheduler s ∧
  metrics (touch_previous env user_id timestamp s i) = metrics s ∧
  ∃ ops, message_cache (touch_previous env user_id timestamp s i)
           = foldl Cache.run (message_cache s) ops.
Proof.
  unfold touch_previous.
  set (k := user_id +:+ "_" +:+ pretty (time_wrap (timestamp - i))).
  destruct (cache_lookup_frame k s) as (Ht & Hc & Hs & Hm & Hmc & Hr).
  destruct (cache_lookup k s) as [found s1]. cbn [fst snd] in *.
  destruct found as [v|].
  - destruct (cache_update_access_frame env k s1) as (Ht' & Hc' & Hs' & Hm' & Hmc').
    split_and!; try congruence.
    + destruct Ht' as (evs & Ht' & Hev). exists evs. by rewrite Ht', Ht.
    + exists [Cache.OpLookup k;
              Cache.OpUpdateAccess k (env_time env (trace s1))].
      rewrite Hmc', Hmc. done.
  - split_and!; try done.
    + by apply emits_same.
    + exists [Cache.OpLookup k]. done.
Qed.

Lemma touch_all_spec env user_id timestamp l s :
  emits clock_event s (foldl (touch_previous env user_id timestamp) s l) ∧
  clients (foldl (touch_previous env user_id timestamp) s l) = clients s ∧
  scheduler (foldl (touch_previous env user_id timestamp) s l) = scheduler s ∧
  metrics (foldl (touch_previous env user_id timestamp) s l) = metrics s ∧
  ∃ ops, message_cache (foldl (touch_previous env user_id timestamp) s l)
           = foldl Cache.run (message_cache s) ops.
Proof.
  revert s. induction l as [|i l IH]; intros s; simpl.
  - split_and!; try done; [apply emits_refl|by exists []].
  - destruct (touch_previous_spec env user_id timestamp s i)
      as (He & Hc & Hs & Hm & ops1 & Hmc).
    destruct (IH (touch_previous env user_id timestamp s i))
      as (He' & Hc' & Hs' & Hm' & ops2 & Hmc').
    split_and!; try congruence.
    + by eapply emits_trans.
    + exists (ops1 ++ ops2). by rewrite foldl_app, <- Hmc.
Qed.

(** The sends of a broadcast emit loop events only. *)
Lemma send_to_emits env msg sender_socket st e :
  emits loop_event st.1 (send_to env msg sender_socket st e).1.
Proof.
  destruct st as [s failed], e as [fd info]. simpl.
  destruct (bool_decide (fd ≠ sender_socket) && active info); [|apply emits_refl].
  destruct (0 <? env_send env (trace s) fd msg); simpl.
  - eexists [_; _; _]. split; [simpl; by rewrite <- !app_assoc|].
    repeat constructor.
  - by apply emits_emit.
Qed.

Lemma send_fold_emits env msg sender_socket l st :
  emits loop_event st.1 (foldl (send_to env msg sender_socket) st l).1.
Proof.
  revert st. induction l as [|e l IH]; intros st; simpl; [apply emits_refl|].
  eapply emits_trans; [apply send_to_emits|apply IH].
Qed.

Lemma mark_failed_emits s fd : emits quiet_event s (mark_failed s fd).
Proof.
  destruct (mark_failed_spec s fd) as (Ht & _). eexists. split; [exact Ht|].
  unfold mark_events. destruct (clients s !! fd); repeat constructor.
Qed.

Lemma mark_all_emits s fds : emits quiet_event s (foldl mark_failed s fds).
Proof.
  revert s. induction fds as [|fd fds IH]; intros s; simpl; [apply emits_refl|].
  eapply emits_trans; [apply mark_failed_emits|apply IH].
Qed.

Lemma broadcast_message_emits env msg sender_socket s :
  emits loop_event s (broadcast_message env msg sender_socket s).
Proof.
  unfold broadcast_message, send_pass.
  pose proof (send_fold_emits env msg sender_socket
                (entries (clients (emit (EvLock clients_mutex) s)))
                (emit (EvLock clients_mutex) s, [])) as Hfold.
  destruct (foldl _ _ _) as [s1 failed]. simpl in Hfold.
  eapply emits_trans; [apply (emits_emit _ (EvLock clients_mutex)); done|].
  eapply emits_trans; [exact Hfold|].
  eapply emits_trans; [apply (emits_emit _ (EvUnlock clients_mutex)); done|].
  eapply emits_trans.
  - eapply emits_impl; [apply quiet_loop|apply mark_all_emits].
  - eapply emits_impl; [apply quiet_loop|apply cache_insert_emits].
Qed.

(** *** A text message *)

Lemma logged_app evs1 evs2 : logged (evs1 ++ evs2) = logged evs1 ++ logged evs2.
Proof. apply omap_app. Qed.

Lemma touch_previous_cache env user_id timestamp s i :
  Cache.reachable (message_cache s) →
  Cache.reachable (message_cache (touch_previous env user_id timestamp s i)) ∧
  ∀ k e, Cache.entry_of (message_cache s) k = Some e →
    ∃ e', Cache.entry_of
            (message_cache (touch_previous env user_id timestamp s i)) k
            = Some e' ∧
          Cache.content e' = Cache.content e.
Proof.
  intros Hr. unfold touch_previous.
  set (id := user_id +:+ "_" +:+ pretty (time_wrap (timestamp - i))).
  destruct (cache_lookup_frame id s) as (Ht & Hc & Hs & Hm & Hmc & Hres).
  destruct (CacheFacts.lookup_frame (message_cache s) id)
    as (_ & _ & _ & _ & _ & Hsame & _).
  assert (Cache.reachable (Cache.lookup (message_cache s) id).2) as Hr1
    by apply (Cache.reach_run _ (Cache.OpLookup id) Hr).
  destruct (cache_lookup id s) as [found s1]. cbn [fst snd] in *.
  destruct found as [v|].
  - destruct (cache_update_access_frame env id s1) as (_ & _ & _ & _ & ->).
    rewrite Hmc. split.
    + apply (Cache.reach_run _ (Cache.OpUpdateAccess id _) Hr1).
    + intros k e He. rewrite <- Hsame in He.
      rewrite CacheFacts.update_access_entry_of
        by by apply CacheFacts.reachable_inv.
      rewrite He. case_decide; simpl; eauto.
  - rewrite Hmc. split; [done|]. intros k e He. rewrite Hsame. eauto.
Qed.

Lemma touch_all_cache env user_id timestamp l s :
  Cache.reachable (message_cache s) →
  Cache.reachable
    (message_cache (foldl (touch_previous env user_id timestamp) s l)) ∧
  ∀ k e, Cache.entry_of (message_cache s) k = Some e →
    ∃ e', Cache.entry_of
            (message_cache (foldl (touch_previous env user_id timestamp) s l)) k
            = Some e' ∧
          Cache.content e' = Cache.content e.
Proof.
  revert s. induction l as [|i l IH]; intros s Hr; simpl; [eauto|].
  destruct (touch_previous_cache env user_id timestamp s i Hr) as [Hr1 H1].
  destruct (IH _ Hr1) as [Hr2 H2]. split; [done|].
  intros k e He. destruct (H1 k e He) as (e1 & He1 & Hc1).
  destruct (H2 k e1 He1) as (e2 & He2 & Hc2). exists e2. split; [done|].
  congruence.
Qed.

Lemma insert_entry_of_new c sender content timestamp now :
  Cache.cache_inv c →
  ∃ e, Cache.entry_of (Cache.insert c sender content timestamp now).2
         (Cache.generate_message_id sender timestamp) = Some e ∧
       (Cache.entry_of c (Cache.generate_message_id sender timestamp) = None →
        Cache.content e = content).
Proof.
  intros Hinv.
  rewrite CacheFacts.entry_of_inv by by apply CacheFacts.insert_inv.
  rewrite CacheFacts.entry_of_inv by done.
  destruct (Cache.index_map c !! Cache.generate_message_id sender timestamp)
    as [i|] eqn:Hk.
  - rewrite (CacheFacts.insert_dup c sender content timestamp now i Hk).
    simpl. rewrite Hk. simpl. eexists. split; [done|]. done.
  - destruct (CacheFacts.insert_new_spec c sender content timestamp now Hinv Hk)
      as (idx & -> & Hidx & _).
    simpl. rewrite lookup_insert_eq. simpl.
    rewrite CacheFacts.insert_new_entry_at by (done || lia).
    rewrite decide_True by done. eauto.
Qed.

Lemma sent_to_peers_not_sender (sent : list (Z * Message * Z)) m sender_socket :
  sent.*1.*1 = peers m sender_socket →
  filter (λ x, x.1.1 = sender_socket) sent = [].
Proof.
  intros Hfds. apply (filter_key_absent (λ x : Z * Message * Z, x.1.1)).
  intros Hin.
  assert (sender_socket ∈ peers m sender_socket) as Hp.
  { rewrite <- Hfds, <- list_fmap_compose. exact Hin. }
  apply elem_of_peers in Hp as [Hne _]. done.
Qed.

Lemma handle_text_unfold env client_socket user_id msg s :
  handle_text env client_socket user_id msg s =
    let msg1 := mkMessage (type msg) (uid msg) (payload_size msg)
                          (terminate 64 (sender msg))
                          (terminate 4096 (payload msg)) (timestamp msg) in
    let recent_msg_id :=
      c_str (sender msg1) +:+ "_" +:+ pretty (time_wrap (timestamp msg1 - 5)) in
    let s0 := (cache_lookup recent_msg_id s).2 in
    let now := env_time env (trace s) in
    let msg2 := set_timestamp msg1 now in
    let s2 := broadcast_message env msg2 client_socket (emit (EvTime now) s0) in
    let s3 := log_message
                ("Message from " +:+ user_id +:+ ": " +:+ c_str (payload msg2))
                s2 in
    foldl (touch_previous env user_id (timestamp msg2)) s3 [1; 2; 3].
Proof.
  unfold handle_text. cbv zeta.
  destruct (cache_lookup_frame
              (c_str (sender (mkMessage (type msg) (uid msg) (payload_size msg)
                                (terminate 64 (sender msg))
                                (terminate 4096 (payload msg)) (timestamp msg)))
                 +:+ "_" +:+
               pretty (time_wrap
                 (timestamp (mkMessage (type msg) (uid msg) (payload_size msg)
                               (terminate 64 (sender msg))
                               (terminate 4096 (payload msg)) (timestamp msg))
                  - 5))) s) as (Ht & _).
  destruct (cache_lookup _ s) as [r s0]. cbn [snd] in *.
  unfold time_nullptr. cbv zeta. by rewrite Ht.
Qed.

(** X22. A text frame is relayed with the server's clock.  The message
    sent on is the frame with both strings terminated and the timestamp
    replaced by the value of [time(nullptr)]; it is sent once to every
    active client other than the one it came from, in descriptor order, and
    never back to that client.  The line logged last is the message line.
    The scheduler is left alone and no client is added to or taken from the
    registry.  Afterwards the cache holds an entry under the fingerprint of
    the frame's sender name and the new timestamp, and its content is the
    payload unless an entry with that fingerprint was there already. *)
Theorem handle_text_relays env client_socket user_id msg s :
  let now := env_time env (trace s) in
  let relayed := mkMessage (type msg) (uid msg) (payload_size msg)
                           (terminate 64 (sender msg))
                           (terminate 4096 (payload msg)) now in
  let id := Cache.generate_message_id (c_str (sender relayed)) now in
  let s' := handle_text env client_socket user_id msg s in
  (sent_to (new_events s s')).*1.*1 = peers (clients s) client_socket ∧
  Forall (λ x, x.1.2 = relayed) (sent_to (new_events s s')) ∧
  sends_to client_socket (new_events s s') = [] ∧
  last (logged (new_events s s'))
    = Some ("Message from " +:+ user_id +:+ ": " +:+ c_str (payload relayed)) ∧
  scheduler s' = scheduler s ∧
  dom (clients s') = dom (clients s) ∧
  (Cache.reachable (message_cache s) →
   ∃ e, Cache.entry_of (message_cache s') id = Some e ∧
        (Cache.entry_of (message_cache s) id = None →
         Cache.content e = c_str (payload relayed))).
Proof.
  intros now relayed id s'.
  (* the steps of the handler *)
  set (recent := c_str (sender relayed) +:+ "_"
                   +:+ pretty (time_wrap (timestamp msg - 5))).
  set (s0 := (cache_lookup recent s).2).
  destruct (cache_lookup_frame recent s) as (Ht0 & Hc0 & Hs0 & Hm0 & Hmc0 & _).
  fold s0 in Ht0, Hc0, Hs0, Hm0, Hmc0.
  set (s1 := emit (EvTime now) s0).
  set (s2 := broadcast_message env relayed client_socket s1).
  set (line := "Message from " +:+ user_id +:+ ": " +:+ c_str (payload relayed)).
  set (s3 := log_message line s2).
  assert (s' = foldl (touch_previous env user_id now) s3 [1; 2; 3]) as Hs'.
  { unfold s'. rewrite handle_text_unfold. done. }
  destruct (touch_all_spec env user_id now [1; 2; 3] s3)
    as (Hq & Hc3 & Hsch3 & _ & _).
  rewrite <- Hs' in Hq, Hc3, Hsch3.
  destruct Hq as (tail & Htail & Hquiet).
  destruct (broadcast_message_emits env relayed client_socket s1)
    as (evs & Hevs & _).
  fold s2 in Hevs.
  assert (new_events s s' = EvTime now :: evs ++ EvLog line :: tail) as Hnew.
  { apply new_events_app. rewrite Htail. unfold s3. simpl. rewrite Hevs.
    unfold s1. simpl. rewrite Ht0, <- !app_assoc. done. }
  destruct (broadcast_message_sends env relayed client_socket s1)
    as (Hfds & Hmsg & Hcl & _).
  fold s2 in Hfds, Hmsg, Hcl.
  rewrite (new_events_app s1 s2 evs Hevs) in Hfds, Hmsg, Hcl.
  assert (sent_to (new_events s s') = sent_to evs) as Hsent.
  { rewrite Hnew. change (EvTime now :: evs ++ EvLog line :: tail)
      with ([EvTime now] ++ evs ++ [EvLog line] ++ tail).
    rewrite !sent_to_app, (quiet_not_send tail); simpl.
    2:{ eapply Forall_impl; [exact Hquiet|apply clock_quiet]. }
    by rewrite app_nil_r. }
  assert (clients s1 = clients s) as Hc1 by (unfold s1; simpl; done).
  split_and!.
  - by rewrite Hsent, Hfds, Hc1.
  - by rewrite Hsent.
  - unfold sends_to. rewrite Hsent.
    by apply (sent_to_peers_not_sender _ (clients s1)).
  - rewrite Hnew. change (EvTime now :: evs ++ EvLog line :: tail)
      with ([EvTime now] ++ evs ++ [EvLog line] ++ tail).
    rewrite !logged_app.
    rewrite (clock_not_logged tail Hquiet), app_nil_r, app_assoc.
    apply last_snoc.
  - rewrite Hsch3.
    destruct (broadcast_message_frame env relayed client_socket s1 0) as (Hb & _).
    change (scheduler s3) with (scheduler s2). unfold s2. rewrite Hb. done.
  - rewrite Hc3. change (clients s3) with (clients s2).
    rewrite Hcl, dom_flag_all. by rewrite Hc1.
  - intros Hr.
    destruct (CacheFacts.lookup_frame (message_cache s) recent)
      as (_ & _ & _ & _ & _ & Hsame & _).
    assert (Cache.reachable (message_cache s1)) as Hr1.
    { change (message_cache s1) with (message_cache s0). rewrite Hmc0.
      apply (Cache.reach_run _ (Cache.OpLookup recent) Hr). }
    destruct (broadcast_message_spec env relayed client_socket s1)
      as (evs' & now2 & _ & _ & _ & _ & _ & Hmc2 & _).
    fold s2 in Hmc2. cbn [timestamp relayed] in Hmc2.
    destruct (insert_entry_of_new (message_cache s1) (c_str (sender relayed))
                (c_str (payload relayed)) now now2)
      as (e2 & He2 & Hcontent); [by apply CacheFacts.reachable_inv|].
    rewrite <- Hmc2 in He2.
    assert (Cache.reachable (message_cache s3)) as Hr3.
    { change (message_cache s3) with (message_cache s2). rewrite Hmc2.
      apply (Cache.reach_run _ (Cache.OpInsert _ _ _ _) Hr1). }
    destruct (touch_all_cache env user_id now [1; 2; 3] s3 Hr3) as [_ Hkeep].
    destruct (Hkeep id e2 He2) as (e & He & Hc).
    exists e. rewrite Hs'. split; [done|].
    intros Hnone. rewrite Hc. apply Hcontent.
    change (message_cache s1) with (message_cache s0). rewrite Hmc0, Hsame.
    exact Hnone.
Qed.

(** *** The handshake *)



(** *** Frames of other types *)



(** *** A status request *)

Lemma update_metrics_spec env s :
  let evs := [EvLock metrics_mutex; EvLock clients_mutex;
              EvUnlock clients_mutex] in
  update_metrics env s =
    match env_proc env (trace s ++ evs) with
    | O =>
      Some (mkState (clients s) (message_cache s) (scheduler s)
              (set_cache_counters (Cache.get_hits (message_cache s))
                 (Cache.get_misses (message_cache s))
                 (set_active_clients
                    (int_wrap (Z.of_nat (size (clients s)))) (metrics s)))
              (trace s ++ evs ++ [EvProc 0; EvUnlock metrics_mutex]))
    | S _ => None
    end.
Proof.
  unfold update_metrics. simpl. rewrite <- !app_assoc. simpl.
  destruct (env_proc env _); [|done].
  unfold emit. simpl. by rewrite <- !app_assoc.
Qed.

Lemma print_statistics_spec env s :
  clients (print_statistics env s) = clients s ∧
  message_cache (print_statistics env s) = message_cache s ∧
  scheduler (print_statistics env s) = scheduler s ∧
  metrics (print_statistics env s) = metrics s ∧
  ∃ text, trace (print_statistics env s)
            = trace s ++ [EvLock metrics_mutex; EvPrint text;
                          EvUnlock metrics_mutex].
Proof.
  unfold print_statistics. split_and!; try done.
  eexists. simpl. by rewrite <- !app_assoc.
Qed.

(** X24. A status request.  When [/proc/self/status] has no line that
    starts with [VmHWM:] or [VmRSS:], the request is answered: the metrics
    take the number of registered clients and the counters of the cache,
    one message is sent, to the requesting client only, of type [MSG_TEXT],
    from [SERVER], stamped with the server's clock, whose payload is the
    statistics text cut to 4095 characters; one line is logged, telling
    whether the send succeeded; registry, cache and scheduler are not
    changed.  When the file has such a line, [read_page_faults] locks
    [metrics_mutex] while [update_metrics] holds it, and the call does not
    return. *)
Theorem handle_status_replies env client_socket user_id s :
  ((∀ tr, env_proc env tr = O) →
   ∃ s' stats_msg ret,
     handle_status env client_socket user_id s = Some s' ∧
     sent_to (new_events s s') = [(client_socket, stats_msg, ret)] ∧
     type stats_msg = MSG_TEXT ∧
     c_str (sender stats_msg) = "SERVER" ∧
     c_str (payload stats_msg)
       = take_str 4095
           (c_str (nl +:+ "=== SERVER STATISTICS ===" +:+ nl
                      +:+ join_lines (statistics_lines env s')
                      +:+ "=========================")) ∧
     logged (new_events s s')
       = [if 0 <? ret
          then "Statistics sent to " +:+ user_id +:+ " (" +:+ pretty ret
                 +:+ " bytes)"
          else "ERROR: Failed to send statistics to " +:+ user_id] ∧
     clients s' = clients s ∧
     message_cache s' = message_cache s ∧
     scheduler s' = scheduler s ∧
     active_clients (metrics s') = int_wrap (Z.of_nat (size (clients s))) ∧
     cache_hits (metrics s') = Cache.get_hits (message_cache s) ∧
     cache_misses (metrics s') = Cache.get_misses (message_cache s) ∧
     messages_sent (metrics s') = messages_sent (metrics s) ∧
     messages_received (metrics s') = messages_received (metrics s)) ∧
  ((∀ tr, env_proc env tr ≠ O) →
   handle_status env client_socket user_id s = None ∧
   update_metrics env s = None).
Proof.
  split.
  - intros Hproc. unfold handle_status.
    rewrite update_metrics_spec. cbv zeta. rewrite Hproc.
    cbn [mbind option_bind]. unfold time_nullptr. cbv zeta.
    set (s1 := mkState _ _ _ _ _).
    set (now := env_time env (trace s1)).
    set (s2 := emit (EvLock metrics_mutex) (emit (EvTime now) s1)).
    set (text := nl +:+ "=== SERVER STATISTICS ===" +:+ nl
                    +:+ join_lines (statistics_lines env s2)
                    +:+ "=========================").
    set (stats_msg := set_payload _ text).
    set (s3 := emit (EvUnlock metrics_mutex) s2).
    set (ret := env_send env (trace s3) client_socket stats_msg).
    set (s4 := emit (EvSend client_socket stats_msg ret) s3).
    set (line := if 0 <? ret
                 then "Statistics sent to " +:+ user_id +:+ " (" +:+ pretty ret
                        +:+ " bytes)"
                 else "ERROR: Failed to send statistics to " +:+ user_id).
    assert ((if 0 <? ret
             then log_message ("Statistics sent to " +:+ user_id +:+ " ("
                                 +:+ pretty ret +:+ " bytes)") s4
             else log_message ("ERROR: Failed to send statistics to "
                                 +:+ user_id) s4) = log_message line s4) as ->.
    { unfold line. by destruct (0 <? ret). }
    set (s5 := log_message line s4).
    destruct (print_statistics_spec env s5) as (Hc & Hmc & Hsch & Hm & ptext & Ht).
    exists (print_statistics env s5), stats_msg, ret.
    assert (new_events s (print_statistics env s5) =
              [EvLock metrics_mutex; EvLock clients_mutex;
               EvUnlock clients_mutex; EvProc 0; EvUnlock metrics_mutex;
               EvTime now; EvLock metrics_mutex; EvUnlock metrics_mutex;
               EvSend client_socket stats_msg ret; EvLog line;
               EvLock metrics_mutex; EvPrint ptext; EvUnlock metrics_mutex])
      as Hnew.
    { apply new_events_app. rewrite Ht. unfold s5, s4, s3, s2, s1. simpl.
      by rewrite <- !app_assoc. }
    split_and!; try done; try (by rewrite Hnew); try (by rewrite Hm).
    unfold stats_msg. cbn [set_payload payload].
    rewrite c_str_strncpy_nul. done.
  - intros Hproc.
    assert (update_metrics env s = None) as Hnone.
    { rewrite update_metrics_spec. cbv zeta.
      specialize (Hproc (trace s ++ [EvLock metrics_mutex; EvLock clients_mutex;
                                     EvUnlock clients_mutex])).
      by destruct (env_proc env _). }
    split; [|done]. unfold handle_status. by rewrite Hnone.
Qed.

(** *** cleanup_server *)

Lemma close_all_spec env l s :
  ∃ evs,
    trace (foldl (close_active env) s l) = trace s ++ evs ∧
    closed evs = (filter (λ e, active e.2 = true) l).*1 ∧
    sent_to evs = [] ∧ logged evs = [] ∧
    message_cache (foldl (close_active env) s l) = message_cache s ∧
    scheduler (foldl (close_active env) s l) = scheduler s ∧
    metrics (foldl (close_active env) s l) = metrics s.
Proof.
  revert s. induction l as [|[fd info] l IH]; intros s; simpl.
  - exists []. by rewrite app_nil_r.
  - destruct (active info) eqn:Hact.
    + rewrite filter_cons_True by done.
      destruct (IH (with_clients (<[fd := deactivate info]>)
                      (emit (EvClose fd)
                         (emit (EvSetsockopt fd (env_setsockopt env (trace s) fd))
                            s))))
        as (evs & Ht & Hcl & Hsent & Hlog & Hmc & Hsch & Hm).
      exists (EvSetsockopt fd (env_setsockopt env (trace s) fd)
                :: EvClose fd :: evs).
      rewrite Ht. split_and!; try done.
      * simpl. by rewrite <- !app_assoc.
      * change (EvSetsockopt fd (env_setsockopt env (trace s) fd)
                  :: EvClose fd :: evs)
          with ([EvSetsockopt fd (env_setsockopt env (trace s) fd); EvClose fd]
                  ++ evs).
        rewrite closed_app, Hcl. done.
    + rewrite filter_cons_False by (simpl; congruence).
      destruct (IH s) as (evs & Ht & Hcl & Hsent & Hlog & Hmc & Hsch & Hm).
      exists evs. done.
Qed.

(** X25. [cleanup_server] closes the listening socket first, then the
    socket of every connection that is still flagged active, each once and
    in descriptor order, and empties the registry.  The socket of a
    connection already flagged inactive, as a failed broadcast leaves it, is
    not closed here.  Nothing is sent; the cache, the scheduler with the
    clients it holds, and the metrics are left as they are. *)
Theorem cleanup_server_closes_active env server_socket s :
  clients (cleanup_server env server_socket s) = ∅ ∧
  closed (new_events s (cleanup_server env server_socket s))
    = server_socket
      :: (filter (λ e, active e.2 = true) (entries (clients s))).*1 ∧
  sent_to (new_events s (cleanup_server env server_socket s)) = [] ∧
  logged (new_events s (cleanup_server env server_socket s))
    = ["Shutting down server..."; "Server shutdown complete"] ∧
  message_cache (cleanup_server env server_socket s) = message_cache s ∧
  scheduler (cleanup_server env server_socket s) = scheduler s ∧
  metrics (cleanup_server env server_socket s) = metrics s.
Proof.
  unfold cleanup_server.
  set (s1 := emit (EvLock clients_mutex) _).
  destruct (close_all_spec env (entries (clients s1)) s1)
    as (evs & Ht & Hcl & Hsent & Hlog & Hmc & Hsch & Hm).
  set (s2 := foldl (close_active env) s1 (entries (clients s1))) in *.
  set (s3 := emit (EvPrint _) _).
  destruct (print_statistics_spec env s3) as (Hc4 & Hmc4 & Hsch4 & Hm4 & text & Ht4).
  assert (new_events s (log_message "Server shutdown complete"
                          (print_statistics env s3)) =
          [EvLog "Shutting down server..."; EvClose server_socket;
           EvLock clients_mutex] ++ evs ++
          [EvUnlock clients_mutex;
           EvPrint ("Waiting for threads to finish..." +:+ nl);
           EvLock metrics_mutex; EvPrint text; EvUnlock metrics_mutex;
           EvLog "Server shutdown complete"]) as Hnew.
  { apply new_events_app.
    assert (trace s3 = trace s2 ++ [EvUnlock clients_mutex;
              EvPrint ("Waiting for threads to finish..." +:+ nl)]) as Ht3.
    { unfold s3. simpl. by rewrite <- app_assoc. }
    assert (trace s1 = trace s ++ [EvLog "Shutting down server...";
              EvClose server_socket; EvLock clients_mutex]) as Ht1.
    { unfold s1. simpl. by rewrite <- !app_assoc. }
    change (trace (log_message "Server shutdown complete"
                     (print_statistics env s3)))
      with (trace (print_statistics env s3) ++ [EvLog "Server shutdown complete"]).
    rewrite Ht4, Ht3, Ht, Ht1. by rewrite <- !app_assoc. }
  rewrite Hnew.
  change (clients (log_message "Server shutdown complete"
                     (print_statistics env s3)))
    with (clients (print_statistics env s3)).
  change (message_cache (log_message "Server shutdown complete"
                           (print_statistics env s3)))
    with (message_cache (print_statistics env s3)).
  change (scheduler (log_message "Server shutdown complete"
                       (print_statistics env s3)))
    with (scheduler (print_statistics env s3)).
  change (metrics (log_message "Server shutdown complete"
                     (print_statistics env s3)))
    with (metrics (print_statistics env s3)).
  rewrite Hc4, Hmc4, Hsch4, Hm4.
  split_and!.
  - done.
  - rewrite !closed_app, Hcl.
    change (closed [EvLog "Shutting down server..."; EvClose server_socket;
                    EvLock clients_mutex]) with [server_socket].
    cbn [app]. f_equal. apply app_nil_r.
  - rewrite !sent_to_app, Hsent. done.
  - rewrite !logged_app, Hlog. done.
  - change (message_cache s3) with (message_cache s2). by rewrite Hmc.
  - change (scheduler s3) with (scheduler s2). by rewrite Hsch.
  - change (metrics s3) with (metrics s2). by rewrite Hm.
Qed.

(** *** The mutexes *)

Lemma lock_walk_app held evs1 evs2 :
  lock_walk held (evs1 ++ evs2) =
    '(pairs1, held1) ← lock_walk held evs1;
    '(pairs2, held2) ← lock_walk held1 evs2;
    Some (pairs1 ++ pairs2, held2).
Proof.
  revert held. induction evs1 as [|ev evs1 IH]; intros held.
  - simpl. destruct (lock_walk held evs2) as [[??]|]; done.
  - destruct ev; simpl; try apply IH.
    + case_decide; [done|]. rewrite IH.
      destruct (lock_walk (m :: held) evs1) as [[p1 h1]|]; simpl; [|done].
      destruct (lock_walk h1 evs2) as [[p2 h2]|]; simpl; [|done].
      by rewrite app_assoc.
    + destruct held as [|m' rest]; [done|]. case_decide; [|done]. apply IH.
Qed.

Lemma held_at_sends_app held evs1 evs2 pairs held1 :
  lock_walk held evs1 = Some (pairs, held1) →
  held_at_sends held (evs1 ++ evs2)
    = held_at_sends held evs1 ++ held_at_sends held1 evs2.
Proof.
  revert held pairs. induction evs1 as [|ev evs1 IH]; intros held pairs.
  - simpl. by intros [= _ <-].
  - destruct ev; simpl; try apply IH.
    + case_decide; [done|].
      destruct (lock_walk (m :: held) evs1) as [[p1 h1]|] eqn:Hw; simpl; [|done].
      intros [= _ <-]. by eapply IH.
    + destruct held as [|m' rest]; [done|]. case_decide; [|done]. simpl.
      apply IH.
    + intros Hw. simpl. f_equal. by eapply IH.
Qed.

Lemma delivered_sends_one fd msg ret :
  delivered_sends [EvSend fd msg ret; EvLock metrics_mutex;
                   EvUnlock metrics_mutex]
    = if decide (0 < ret) then [fd] else [].
Proof.
  unfold delivered_sends, sent_to. simpl. rewrite filter_cons.
  unfold send_failed at 1. simpl.
  case_decide; case_decide; try lia; done.
Qed.

Lemma delivered_sends_failed fd msg ret :
  ret ≤ 0 → delivered_sends [EvSend fd msg ret] = [].
Proof.
  intros Hret. unfold delivered_sends, sent_to. simpl.
  rewrite filter_cons_False; [done|]. unfold send_failed. simpl. lia.
Qed.

Lemma send_to_locks env msg sender_socket st e :
  ∃ evs, send_locks st (send_to env msg sender_socket st e) evs.
Proof.
  destruct st as [s failed], e as [fd info]. simpl.
  destruct (bool_decide (fd ≠ sender_socket) && active info).
  2:{ exists []. split; simpl; [by rewrite app_nil_r|done|done]. }
  destruct (Z.ltb_spec 0 (env_send env (trace s) fd msg)) as [Hpos|Hneg].
  - eexists [EvSend fd msg _; EvLock metrics_mutex; EvUnlock metrics_mutex].
    split.
    + simpl. by rewrite <- !app_assoc.
    + rewrite delivered_sends_one, decide_True by done. reflexivity.
    + reflexivity.
  - exists [EvSend fd msg (env_send env (trace s) fd msg)].
    split.
    + done.
    + rewrite delivered_sends_failed by done. reflexivity.
    + reflexivity.
Qed.

Lemma send_locks_compose st1 st2 st3 evs1 evs2 :
  send_locks st1 st2 evs1 → send_locks st2 st3 evs2 →
  send_locks st1 st3 (evs1 ++ evs2).
Proof.
  intros [Ht1 Hw1 Hs1] [Ht2 Hw2 Hs2]. split.
  - by rewrite Ht2, Ht1, app_assoc.
  - rewrite lock_walk_app, Hw1. simpl. rewrite Hw2. simpl.
    by rewrite delivered_sends_app, length_app, replicate_add.
  - rewrite (held_at_sends_app _ _ _ _ _ Hw1), Hs1, Hs2.
    by rewrite sent_to_app, !fmap_app.
Qed.

Lemma send_fold_locks env msg sender_socket l st :
  ∃ evs, send_locks st (foldl (send_to env msg sender_socket) st l) evs.
Proof.
  revert st. induction l as [|e l IH]; intros st; simpl.
  - exists []. split; simpl; [by rewrite app_nil_r|done|done].
  - destruct (send_to_locks env msg sender_socket st e) as (evs1 & H1).
    destruct (IH (send_to env msg sender_socket st e)) as (evs2 & H2).
    exists (evs1 ++ evs2). by eapply send_locks_compose.
Qed.

Lemma mark_events_locks m fds :
  lock_walk [] (flat_map (mark_events m) fds) = Some ([], []) ∧
  held_at_sends [] (flat_map (mark_events m) fds) = [].
Proof.
  induction fds as [|fd fds [IH1 IH2]]; [done|]. simpl.
  unfold mark_events at 1 3. destruct (m !! fd); simpl; by rewrite IH1, IH2.
Qed.

Lemma insert_events_locks c k v t now held :
  lock_walk held (insert_events c k v t now) = Some ([], held) ∧
  held_at_sends held (insert_events c k v t now) = [].
Proof. unfold insert_events. by destruct (Cache.insert _ _ _ _ _).1. Qed.

(** X26. The mutexes of a broadcast.  [broadcast_message] releases every
    mutex it takes, in the reverse order of taking, and never locks a mutex
    it holds.  [metrics_mutex] is taken only while [clients_mutex] is held,
    once for every message delivered.  Every [send] is made while
    [clients_mutex], and no other mutex, is held: the registry stays locked
    for the whole of the first loop, the sends included. *)
Theorem broadcast_message_lock_discipline env msg sender_socket s :
  lock_walk [] (new_events s (broadcast_message env msg sender_socket s))
    = Some (replicate
              (length (delivered_sends
                 (new_events s (broadcast_message env msg sender_socket s))))
              (clients_mutex, metrics_mutex), []) ∧
  held_at_sends [] (new_events s (broadcast_message env msg sender_socket s))
    = (λ fd, (fd, [clients_mutex])) <$> peers (clients s) sender_socket.
Proof.
  destruct (broadcast_message_sends env msg sender_socket s) as (Hfds & _).
  cbv zeta in Hfds. revert Hfds.
  unfold broadcast_message, send_pass.
  destruct (send_fold_locks env msg sender_socket
              (entries (clients (emit (EvLock clients_mutex) s)))
              (emit (EvLock clients_mutex) s, [])) as (evs & [Ht Hw Hs]).
  destruct (foldl _ _ _) as [s1 failed]. cbn [fst snd] in Ht.
  destruct (mark_all_spec (emit (EvUnlock clients_mutex) s1) failed)
    as (Htm & _).
  set (m := clients (emit (EvUnlock clients_mutex) s1)) in Htm.
  destruct (cache_insert_spec env (c_str (sender msg)) (c_str (payload msg))
              (timestamp msg)
              (foldl mark_failed (emit (EvUnlock clients_mutex) s1) failed))
    as (Hti & _).
  cbv zeta in Hti.
  set (tl := insert_events _ _ _ _ _) in Hti.
  rewrite (new_events_app s _
             ([EvLock clients_mutex] ++ evs ++ [EvUnlock clients_mutex]
                ++ flat_map (mark_events m) failed ++ tl)).
  2:{ rewrite Hti, Htm. simpl. rewrite Ht. simpl. by rewrite <- !app_assoc. }
  destruct (mark_events_locks m failed) as [Hmw Hms].
  destruct (insert_events_locks
              (message_cache
                 (foldl mark_failed (emit (EvUnlock clients_mutex) s1) failed))
              (c_str (sender msg)) (c_str (payload msg)) (timestamp msg)
              (env_time env
                 (trace (foldl mark_failed
                           (emit (EvUnlock clients_mutex) s1) failed))) [])
    as [Hiw His].
  fold tl in Hiw, His.
  intros Hfds.
  assert (sent_to ([EvLock clients_mutex] ++ evs ++ [EvUnlock clients_mutex]
                     ++ flat_map (mark_events m) failed ++ tl)
          = sent_to evs) as Hsent.
  { rewrite !sent_to_app, sent_to_mark_events.
    unfold tl. rewrite sent_to_insert_events. simpl. by rewrite app_nil_r. }
  rewrite Hsent in Hfds.
  split.
  - unfold delivered_sends. rewrite Hsent. fold (delivered_sends evs).
    rewrite lock_walk_app. simpl.
    rewrite lock_walk_app, Hw. simpl.
    rewrite lock_walk_app, Hmw. simpl. rewrite Hiw. simpl.
    by rewrite !app_nil_r.
  - simpl. rewrite (held_at_sends_app _ _ _ _ _ Hw), Hs. simpl.
    rewrite (held_at_sends_app [] _ _ [] []) by apply Hmw.
    rewrite Hms, His. simpl. by rewrite app_nil_r, Hfds.
Qed.

(** X27. The order of the two mutexes.  [register_client] enters the
    client under its descriptor, replacing an entry that was there, with
    the two clock values it reads and the active flag set, and counts it;
    it takes [metrics_mutex] while it holds [clients_mutex], as
    [broadcast_message] does.  [update_metrics], when it returns, has set
    the metrics to the size of the registry and the counters of the cache;
    it takes the two mutexes in the opposite order, [clients_mutex] while
    it holds [metrics_mutex]. *)
Theorem update_metrics_locks_in_reverse env client_socket user_id s :
  (∃ t1 t2,
     clients (register_client env client_socket user_id s)
       = <[client_socket := mkClientInfo client_socket user_id t1 t2 true]>
           (clients s) ∧
     metrics (register_client env client_socket user_id s)
       = incr_active_clients (metrics s) ∧
     lock_walk [] (new_events s (register_client env client_socket user_id s))
       = Some ([(clients_mutex, metrics_mutex)], [])) ∧
  ((∀ tr, env_proc env tr = O) →
   ∃ s',
     update_metrics env s = Some s' ∧
     active_clients (metrics s') = int_wrap (Z.of_nat (size (clients s))) ∧
     cache_hits (metrics s') = Cache.get_hits (message_cache s) ∧
     cache_misses (metrics s') = Cache.get_misses (message_cache s) ∧
     clients s' = clients s ∧
     lock_walk [] (new_events s s')
       = Some ([(metrics_mutex, clients_mutex)], [])).
Proof.
  split.
  - unfold register_client, time_nullptr. cbv zeta.
    eexists _, _. split_and!; [done|done|].
    erewrite new_events_app; [|simpl; by rewrite <- !app_assoc].
    reflexivity.
  - intros Hproc. rewrite update_metrics_spec. cbv zeta. rewrite Hproc.
    eexists. split; [done|]. split_and!; try done.
    erewrite new_events_app; [|simpl; done]. reflexivity.
Qed.

(** *** What the handler of a connection emits *)

Lemma register_client_emits env client_socket user_id s :
  emits loop_event s (register_client env client_socket user_id s).
Proof.
  unfold register_client, time_nullptr. cbv zeta.
  eexists. split; [simpl; rewrite <- !app_assoc; reflexivity|].
  repeat constructor.
Qed.

Lemma announce_join_emits env client_socket user_id s :
  emits loop_event s (announce_join env client_socket user_id s).
Proof.
  unfold announce_join, time_nullptr. cbv zeta.
  eapply emits_trans;
    [apply (emits_emit loop_event (EvTime (env_time env (trace s)))); done|].
  apply broadcast_message_emits.
Qed.

Lemma announce_leave_emits env user_id s :
  emits loop_event s (announce_leave env user_id s).
Proof.
  unfold announce_leave, time_nullptr. cbv zeta.
  eapply emits_trans;
    [apply (emits_emit loop_event (EvTime (env_time env (trace s)))); done|].
  apply broadcast_message_emits.
Qed.

Lemma handle_text_emits env client_socket user_id msg s :
  emits loop_event s (handle_text env client_socket user_id msg s).
Proof.
  rewrite handle_text_unfold. cbv zeta.
  set (s0 := (cache_lookup _ s).2).
  set (msg2 := set_timestamp _ _).
  set (s1 := emit (EvTime (env_time env (trace s))) s0).
  set (s2 := broadcast_message env msg2 client_socket s1).
  set (s3 := log_message _ s2).
  assert (emits loop_event s s0) as H0.
  { apply emits_same. unfold s0. apply cache_lookup_frame. }
  assert (emits loop_event s0 s1) as H1 by (by apply emits_emit).
  assert (emits loop_event s1 s2) as H2 by apply broadcast_message_emits.
  assert (emits loop_event s2 s3) as H3 by (by apply emits_emit).
  destruct (touch_all_spec env user_id (timestamp msg2) [1; 2; 3] s3)
    as (Hq & _).
  eapply emits_trans; [exact H0|]. eapply emits_trans; [exact H1|].
  eapply emits_trans; [exact H2|]. eapply emits_trans; [exact H3|].
  eapply emits_impl; [|exact Hq]. intros ev Hev. by destruct ev.
Qed.

Lemma handle_status_emits env client_socket user_id s s' :
  handle_status env client_socket user_id s = Some s' → emits loop_event s s'.
Proof.
  unfold handle_status. rewrite update_metrics_spec. cbv zeta.
  destruct (env_proc env _); [|done]. cbn [mbind option_bind].
  unfold time_nullptr. cbv zeta. intros [= <-].
  set (s1 := mkState _ _ _ _ _).
  apply (emits_trans _ _ s1).
  { exists [EvLock metrics_mutex; EvLock clients_mutex; EvUnlock clients_mutex;
            EvProc 0; EvUnlock metrics_mutex].
    split; [done|]. repeat constructor. }
  destruct (0 <? _);
    match goal with
    | |- emits _ _ (print_statistics env ?x) =>
      destruct (print_statistics_spec env x) as (_ & _ & _ & _ & text & Ht)
    end.
  - eexists. split; [rewrite Ht; simpl; rewrite <- !app_assoc; reflexivity|].
    repeat constructor.
  - eexists. split; [rewrite Ht; simpl; rewrite <- !app_assoc; reflexivity|].
    repeat constructor.
Qed.

Lemma loop_body_emits env client_socket user_id s c s' :
  loop_body env client_socket user_id s = Some (c, s') → emits loop_event s s'.
Proof.
  unfold loop_body.
  destruct (env_recv_msg env (trace s) client_socket) as [[bytes timed_out] msg].
  set (s0 := emit (EvRecv client_socket bytes) s).
  assert (emits loop_event s s0) as H0 by (by apply emits_emit).
  destruct (bytes <? 0).
  { destruct timed_out; by intros [= _ <-]. }
  destruct ((bytes =? 0) || negb (bytes =? sizeof_Message)).
  { by intros [= _ <-]. }
  set (s1 := emit (EvLock clients_mutex) _).
  assert (emits loop_event s0 s1) as H1.
  { eexists. split; [unfold s1; simpl; rewrite <- !app_assoc; reflexivity|].
    repeat constructor. }
  set (s2 := emit (EvUnlock clients_mutex) _).
  assert (emits loop_event s1 s2) as H2.
  { unfold s2. destruct (clients s1 !! client_socket).
    - unfold time_nullptr. cbv zeta.
      eexists. split; [simpl; rewrite <- !app_assoc; reflexivity|].
      repeat constructor.
    - by apply emits_emit. }
  pose proof (emits_trans _ _ _ _ H0 (emits_trans _ _ _ _ H1 H2)) as H02.
  destruct (type msg =? MSG_TEXT).
  { intros [= _ <-]. eapply emits_trans; [exact H02|]. apply handle_text_emits. }
  destruct (type msg =? MSG_STATUS).
  { destruct (handle_status env client_socket user_id s2) as [s3|] eqn:Hst;
      [|done]. simpl. intros [= _ <-].
    eapply emits_trans; [exact H02|]. by eapply handle_status_emits. }
  intros [= _ <-]. eapply emits_trans; [exact H02|]. by apply emits_emit.
Qed.

Lemma message_loop_emits fuel env client_socket user_id s s' :
  message_loop fuel env client_socket user_id s = Some s' →
  emits loop_event s s'.
Proof.
  revert s. induction fuel as [|fuel IH]; intros s; [done|]. simpl.
  set (s0 := emit (EvRunning _) s).
  assert (emits loop_event s s0) as H0 by (by apply emits_emit).
  destruct (env_running env (trace s)); [|by intros [= <-]].
  destruct (loop_body env client_socket user_id s0) as [[[] s1]|] eqn:Hbody;
    [| |done].
  - intros Hloop. eapply emits_trans; [exact H0|].
    eapply emits_trans; [by eapply loop_body_emits|]. by apply IH.
  - intros [= <-]. eapply emits_trans; [exact H0|]. by eapply loop_body_emits.
Qed.

Lemma finish_client_returns env client_socket user_id s s' :
  finish_client env client_socket user_id s = Some s' →
  clients s' !! client_socket = None ∧
  ∃ evs, trace s' = trace s ++ evs ++ [EvClose client_socket] ∧
         Forall loop_event evs.
Proof.
  unfold finish_client.
  destruct (Scheduler.remove_client (scheduler s) client_socket) as [r|];
    [|done]. cbn [mbind option_bind].
  set (s1 := emit (EvUnlock clients_mutex) _).
  assert (emits loop_event s s1) as H1.
  { eexists. split; [unfold s1; simpl; rewrite <- !app_assoc; reflexivity|].
    repeat constructor. }
  assert (clients s1 !! client_socket = None) as Hc1.
  { unfold s1. simpl. apply lookup_delete_eq. }
  case_bool_decide; intros [= <-].
  - split; [done|]. destruct H1 as (evs & Ht & Hev).
    exists evs. change (trace (emit (EvClose client_socket) s1))
      with (trace s1 ++ [EvClose client_socket]).
    rewrite Ht, <- app_assoc. done.
  - set (s2 := announce_leave env user_id s1).
    assert (emits loop_event s1 s2) as H2 by apply announce_leave_emits.
    assert (clients s2 !! client_socket = None) as Hc2.
    { unfold s2, announce_leave, time_nullptr. cbv zeta.
      match goal with
      | |- clients (broadcast_message env ?m ?k ?x) !! _ = None =>
        destruct (broadcast_message_frame env m k x client_socket) as (_ & Hc & _)
      end.
      apply Hc. exact Hc1. }
    split; [done|].
    destruct (emits_trans _ _ _ _ H1 H2) as (evs & Ht & Hev).
    exists (evs ++ [EvLog ("Client disconnected: " +:+ user_id +:+ " (fd: "
                      +:+ pretty client_socket +:+ ")")]).
    split.
    + simpl. fold s2. rewrite Ht, <- !app_assoc. done.
    + apply Forall_app. split; [done|]. by apply Forall_singleton.
Qed.

(** X28. Every return of [handle_client] closes the socket, once and
    last.  On whatever path the handler of a connection returns, refused
    handshake, client gone, broken frame or server shutdown, its trace has
    one [close], of the descriptor it was given, as its last event.  If the
    handshake was refused the registry is as it was; otherwise it has no
    entry for the descriptor any more. *)
Theorem handle_client_closes_once fuel env client_socket s s' :
  handle_client fuel env client_socket s = Some s' →
  closed (new_events s s') = [client_socket] ∧
  last (trace s') = Some (EvClose client_socket) ∧
  (clients s' = clients s ∨ clients s' !! client_socket = None).
Proof.
  unfold handle_client.
  set (r := env_setsockopt env (trace s) client_socket).
  set (s0 := if r <? 0 then _ else _).
  assert (∃ evs0, trace s0 = trace s ++ evs0 ∧ closed evs0 = [] ∧
                  clients s0 = clients s) as (evs0 & Ht0 & Hcl0 & Hc0).
  { unfold s0. destruct (r <? 0).
    - eexists [_; _]. simpl. by rewrite <- !app_assoc.
    - by eexists [_]. }
  destruct (env_recv_id env (trace s0) client_socket) as [bytes buffer].
  set (s1 := emit (EvRecv client_socket bytes) s0).
  assert (trace s1 = trace s ++ evs0 ++ [EvRecv client_socket bytes]) as Ht1.
  { unfold s1. simpl. by rewrite Ht0, <- app_assoc. }
  destruct (bytes <=? 0).
  { intros [= <-]. split_and!.
    - erewrite new_events_app;
        [|change (trace (emit (EvClose client_socket) s1))
            with (trace s1 ++ [EvClose client_socket]);
          rewrite Ht1, <- !app_assoc; reflexivity].
      rewrite !closed_app, Hcl0. done.
    - simpl. apply last_snoc.
    - by left. }
  set (user_id := c_str _).
  destruct (bool_decide (user_id = EmptyString) || _).
  { intros [= <-]. split_and!.
    - erewrite new_events_app;
        [|change (trace (emit (EvClose client_socket) (log_message
                   "Invalid user ID received, disconnecting" s1)))
            with ((trace s1
                   ++ [EvLog "Invalid user ID received, disconnecting"])
                  ++ [EvClose client_socket]);
          rewrite Ht1, <- !app_assoc; reflexivity].
      rewrite !closed_app, Hcl0. done.
    - simpl. apply last_snoc.
    - by left. }
  set (s2 := register_client env client_socket user_id s1).
  destruct (Scheduler.add_client (scheduler s2) client_socket user_id)
    as [sch|]; [|done]. cbn [mbind option_bind].
  set (s3 := log_message _ _).
  assert (emits loop_event s1 s3) as H13.
  { eapply emits_trans; [apply register_client_emits|]. fold s2.
    eapply emits_trans; [apply (emits_same _ s2 (with_scheduler sch s2)); done|].
    eapply emits_trans; [apply announce_join_emits|].
    by apply emits_emit. }
  destruct (message_loop fuel env client_socket user_id s3) as [s4|] eqn:Hloop;
    [|done]. cbn [mbind option_bind].
  intros Hfin.
  destruct (finish_client_returns env client_socket user_id s4 s' Hfin)
    as (Hgone & evsf & Htf & Hevf).
  destruct (emits_trans _ _ _ _ H13
              (message_loop_emits fuel env client_socket user_id s3 s4 Hloop))
    as (evs & Ht4 & Hev).
  split_and!.
  - erewrite new_events_app;
      [|rewrite Htf, Ht4, Ht1, <- !app_assoc; reflexivity].
    rewrite !closed_app, Hcl0, (loop_not_closed evs Hev),
      (loop_not_closed evsf Hevf). done.
  - rewrite Htf, !app_assoc. apply last_snoc.
  - by right.
Qed.

Lemma handle_client_closes_once_witness :
  ∃ s', handle_client 1 demo_env 7 demo_state = Some s' ∧
        closed (new_events demo_state s') = [7] ∧
        last (trace s') = Some (EvClose 7).
Proof.
  destruct (handle_client 1 demo_env 7 demo_state) as [s'|] eqn:Hrun.
  - exists s'. split; [reflexivity|].
    destruct (handle_client_closes_once 1 demo_env 7 demo_state s' Hrun)
      as (Hclosed & Hlast & _).
    split; [exact Hclosed|exact Hlast].
  - vm_compute in Hrun. discriminate Hrun.
Defined.


(** *** The insert of a broadcast *)









(** *** The cache along a connection *)

Lemma cache_steps_refl s : cache_steps s s.
Proof. by exists []. Qed.









(** *** The notifications of a connection *)














(** *** Every broadcast reaches the cache *)



(** *** A connection that sends one frame of the wrong size *)




End ServerFacts.
